(** * Audio-to-event pipeline of the ESP32 bark detector

    A shallow embedding of the sample ring buffer
    (secure_webrtc_dogbark_detector.cpp, webrtc-firmware.cpp), the noise gate
    (preprocess.cpp) and the detector core (bark_detector.cpp), with the
    properties the specification states about them.

    Conventions.
    - [int16_t] samples are [Z]; nothing in the ring computes with them.
    - Ring cursors are [nat]: every cursor stays below the buffer size, so
      no [size_t] operation on them can wrap ([ring_step_wf] establishes the
      bound for every operation).
    - [float] values are rationals kept in lowest terms; every arithmetic
      operation reduces its result ([fadd], [fmul], ...), so that equal
      values are syntactically equal.  Rounding is not modelled.
    - [uint32_t] and [size_t] counters of the detector are [Z] with their
      wrap-around modulo [2^32] written out.

    The second half of the file covers more of the same sources: the ring
    of webrtc-firmware.cpp, A-law coding and RTP packets, base64url, the
    rate limiter, the login, the streaming task, and the filters of the
    preprocessor.  There an Arduino [String] is a list of characters or a
    [string], a [std::map] is a finite map or, where the order of iteration
    matters, the list of its entries, and every reading of [millis()] is an
    input. *)

From Stdlib Require Import ZArith QArith Qround Qabs Lia.
From Stdlib Require Import Ascii.
From Stdlib Require String.
From stdpp Require Import base decidable numbers list sorting strings gmap.

#[local] Open Scope nat_scope.

(** ** The audio ring buffer of secure_webrtc_dogbark_detector.cpp *)

Module SampleRing.

Definition SAMPLES_PER_FRAME : nat := 320.
Definition AUDIO_BUFFER_FRAMES : nat := 60.
Definition AUDIO_BUFFER_SIZE : nat := SAMPLES_PER_FRAME * AUDIO_BUFFER_FRAMES.

(** The FreeRTOS mutex guarding the ring.  [xSemaphoreTake] with a timeout
    succeeds when the mutex is free and fails (after the timeout) when
    another task keeps holding it. *)
Inductive Semaphore := SemFree | SemHeld.

Definition xSemaphoreTake (m : Semaphore) : bool * Semaphore :=
  match m with
  | SemFree => (true, SemHeld)
  | SemHeld => (false, SemHeld)
  end.

Definition xSemaphoreGive (m : Semaphore) : Semaphore := SemFree.

(** The globals [audioRingBuffer], [ringBufferWritePos],
    [ringBufferReadPos] and [audioMutex]. *)
Record Ring := mkRing {
  audioRingBuffer : list Z;
  ringBufferWritePos : nat;
  ringBufferReadPos : nat;
  audioMutex : Semaphore
}.

(** State after the allocation in [setup]: zeroed buffer, both cursors 0,
    freshly created mutex. *)
Definition ring_init : Ring :=
  mkRing (replicate AUDIO_BUFFER_SIZE 0%Z) 0 0 SemFree.

(** The [for] loop of [writeToRingBuffer]; [written] is the running count. *)
Fixpoint write_loop (samples : list Z) (r : Ring) (written : nat) : nat * Ring :=
  match samples with
  | [] => (written, r)
  | s :: rest =>
      let nextPos := (ringBufferWritePos r + 1) mod AUDIO_BUFFER_SIZE in
      if decide (nextPos ≠ ringBufferReadPos r) then
        write_loop rest
          (mkRing (<[ringBufferWritePos r := s]> (audioRingBuffer r))
                  nextPos (ringBufferReadPos r) (audioMutex r))
          (S written)
      else (written, r) (* buffer full: break *)
  end.

Definition writeToRingBuffer (r : Ring) (samples : list Z) : nat * Ring :=
  match xSemaphoreTake (audioMutex r) with
  | (true, m) =>
      let '(written, r') :=
        write_loop samples
          (mkRing (audioRingBuffer r) (ringBufferWritePos r)
                  (ringBufferReadPos r) m) 0 in
      (written, mkRing (audioRingBuffer r') (ringBufferWritePos r')
                       (ringBufferReadPos r') (xSemaphoreGive m))
  | (false, _) => (0, r)
  end.

(** The [while] loop shared by [readFromRingBuffer] and [peekRingBuffer]:
    copies at most [count] samples starting at [pos] and stops at the write
    cursor.  Returns the samples stored into the caller's array (their
    number is the function's return value) and the final cursor. *)
Fixpoint copy_loop (buf : list Z) (wpos : nat) (count : nat) (pos : nat)
  : list Z * nat :=
  match count with
  | 0 => ([], pos)
  | S count' =>
      if decide (pos ≠ wpos) then
        let '(out, pos') :=
          copy_loop buf wpos count' ((pos + 1) mod AUDIO_BUFFER_SIZE) in
        (buf !!! pos :: out, pos')
      else ([], pos)
  end.

Definition readFromRingBuffer (r : Ring) (count : nat) : list Z * Ring :=
  match xSemaphoreTake (audioMutex r) with
  | (true, m) =>
      let '(out, pos) :=
        copy_loop (audioRingBuffer r) (ringBufferWritePos r) count
                  (ringBufferReadPos r) in
      (out, mkRing (audioRingBuffer r) (ringBufferWritePos r) pos
                   (xSemaphoreGive m))
  | (false, _) => ([], r)
  end.

Definition peekRingBuffer (r : Ring) (count : nat) : list Z * Ring :=
  match xSemaphoreTake (audioMutex r) with
  | (true, m) =>
      let '(out, _) :=
        copy_loop (audioRingBuffer r) (ringBufferWritePos r) count
                  (ringBufferReadPos r) in
      (out, mkRing (audioRingBuffer r) (ringBufferWritePos r)
                   (ringBufferReadPos r) (xSemaphoreGive m))
  | (false, _) => ([], r)
  end.

Definition getAvailableSamples (r : Ring) : nat :=
  if decide (ringBufferReadPos r ≤ ringBufferWritePos r) then
    ringBufferWritePos r - ringBufferReadPos r
  else
    AUDIO_BUFFER_SIZE - ringBufferReadPos r + ringBufferWritePos r.

(** *** Representation: well-formed rings and the queue they hold *)

Record ring_wf (r : Ring) : Prop := {
  wf_length : length (audioRingBuffer r) = AUDIO_BUFFER_SIZE;
  wf_write : ringBufferWritePos r < AUDIO_BUFFER_SIZE;
  wf_read : ringBufferReadPos r < AUDIO_BUFFER_SIZE
}.

(** The [n] slots that follow cursor [pos], in cursor order. *)
Definition slots (buf : list Z) (pos n : nat) : list Z :=
  (λ k, buf !!! ((pos + k) mod AUDIO_BUFFER_SIZE)) <$> seq 0 n.

(** The buffered (written, not yet read) samples, oldest first. *)
Definition contents (r : Ring) : list Z :=
  slots (audioRingBuffer r) (ringBufferReadPos r) (getAvailableSamples r).

(** Ring with its read cursor moved to [pos]. *)
Definition set_read (r : Ring) (pos : nat) : Ring :=
  mkRing (audioRingBuffer r) (ringBufferWritePos r) pos (audioMutex r).

(** Ring with its mutex in state [m]. *)
Definition set_mutex (r : Ring) (m : Semaphore) : Ring :=
  mkRing (audioRingBuffer r) (ringBufferWritePos r) (ringBufferReadPos r) m.

(** Ring after one successful iteration of the write loop: [s] stored at
    the write cursor, cursor advanced. *)
Definition push (r : Ring) (s : Z) : Ring :=
  mkRing (<[ringBufferWritePos r := s]> (audioRingBuffer r))
         ((ringBufferWritePos r + 1) mod AUDIO_BUFFER_SIZE)
         (ringBufferReadPos r) (audioMutex r).

(** *** Sequences of ring operations, and the queue they are compared to *)

Inductive RingOp :=
| OpWrite (samples : list Z)
| OpRead (count : nat)
| OpPeek (count : nat).

(** What a call hands back: the stored count of a write, the samples of a
    read or peek. *)
Inductive RingOut :=
| Written (n : nat)
| Samples (out : list Z).

Definition ring_step (r : Ring) (op : RingOp) : RingOut * Ring :=
  match op with
  | OpWrite samples =>
      let '(n, r') := writeToRingBuffer r samples in (Written n, r')
  | OpRead count =>
      let '(out, r') := readFromRingBuffer r count in (Samples out, r')
  | OpPeek count =>
      let '(out, r') := peekRingBuffer r count in (Samples out, r')
  end.

Fixpoint ring_run (r : Ring) (ops : list RingOp) : list RingOut * Ring :=
  match ops with
  | [] => ([], r)
  | op :: ops' =>
      let '(o, r1) := ring_step r op in
      let '(os, r2) := ring_run r1 ops' in
      (o :: os, r2)
  end.

(** The reference behaviour the specification asks for: an unbounded
    first-in first-out queue, nothing duplicated, nothing lost. *)
Definition fifo_step (q : list Z) (op : RingOp) : RingOut * list Z :=
  match op with
  | OpWrite samples => (Written (length samples), q ++ samples)
  | OpRead count => (Samples (take count q), drop count q)
  | OpPeek count => (Samples (take count q), q)
  end.

Fixpoint fifo_run (q : list Z) (ops : list RingOp) : list RingOut * list Z :=
  match ops with
  | [] => ([], q)
  | op :: ops' =>
      let '(o, q1) := fifo_step q op in
      let '(os, q2) := fifo_run q1 ops' in
      (o :: os, q2)
  end.

(** The number of buffered samples stays below the capacity throughout. *)
Fixpoint below_capacity (q : list Z) (ops : list RingOp) : bool :=
  match ops with
  | [] => true
  | op :: ops' =>
      let q1 := (fifo_step q op).2 in
      bool_decide (length q1 < AUDIO_BUFFER_SIZE) && below_capacity q1 ops'
  end.

(** A ring filled to the brim: [AUDIO_BUFFER_SIZE - 1] samples buffered. *)
Definition ring_full_example : Ring :=
  mkRing (replicate AUDIO_BUFFER_SIZE 0%Z) (AUDIO_BUFFER_SIZE - 1) 0 SemFree.

End SampleRing.

(** ** The ring of [audioProcessTask] in webrtc-firmware.cpp *)

Module WebrtcFirmware.

Definition SAMPLE_RATE : Z := 16000.
Definition RING_BUFFER_SIZE : nat := Z.to_nat (SAMPLE_RATE * 2).

Definition uint32_wrap (z : Z) : Z := (z mod 2 ^ 32)%Z.

(** The globals [ringBuffer], [ringWritePos], [ringReadPos],
    [ringAvailable] and the counter [audioStats.bufferOverruns]. *)
Record AudioRing := mkAudioRing {
  ringBuffer : list Z;
  ringWritePos : nat;
  ringReadPos : nat;
  ringAvailable : nat;
  bufferOverruns : Z
}.

(** [(i2sBuffer[i] >> 16) & 0xFFFF] converted to [int16_t]. *)
Definition sample_of_i2s (word : Z) : Z :=
  let low := Z.land (Z.shiftr word 16) 65535 in
  (if decide (low < 32768)%Z then low else low - 65536)%Z.

(** The "Add to ring buffer" block, for an allocated [ringBuffer]. *)
Definition ring_store (a : AudioRing) (sample : Z) : AudioRing :=
  let buf := <[ringWritePos a := sample]> (ringBuffer a) in
  let wpos := (ringWritePos a + 1) mod RING_BUFFER_SIZE in
  if decide (ringAvailable a < RING_BUFFER_SIZE) then
    mkAudioRing buf wpos (ringReadPos a) (ringAvailable a + 1)
                (bufferOverruns a)
  else
    (* Buffer full, move read position *)
    mkAudioRing buf wpos ((ringReadPos a + 1) mod RING_BUFFER_SIZE)
                (ringAvailable a) (uint32_wrap (bufferOverruns a + 1)).

(** The sample loop of [audioProcessTask], restricted to the ring. *)
Definition audioProcess_samples (a : AudioRing) (i2sBuffer : list Z)
  : AudioRing :=
  foldl (λ a word, ring_store a (sample_of_i2s word)) a i2sBuffer.

(** A full ring: every slot holds an unread sample. *)
Definition audio_ring_full_example : AudioRing :=
  mkAudioRing (replicate RING_BUFFER_SIZE 0%Z) 0 0 RING_BUFFER_SIZE 0.

End WebrtcFirmware.

(** ** Single-precision values *)

(** [float] is modelled by the rationals in lowest terms.  The operations
    below are the exact ones, followed by a reduction; the model therefore
    describes the arithmetic the source writes down, not its rounding. *)
Module Float.

Definition float : Type := Q.

(** Value read from a slot outside the modelled arrays. *)
#[global] Instance float_inhabited : Inhabited float := populate 0%Q.

(** A literal of the source, such as [0.8f]. *)
Definition flit (q : Q) : float := Qred q.

Definition of_int (z : Z) : float := inject_Z z.

Definition fadd (a b : float) : float := Qred (a + b).
Definition fsub (a b : float) : float := Qred (a - b).
Definition fmul (a b : float) : float := Qred (a * b).
Definition fdiv (a b : float) : float := Qred (a / b).
Definition fabsf (a : float) : float := Qred (Qabs a).

Definition fle (a b : float) : bool := Qle_bool a b.
Definition flt (a b : float) : bool := negb (Qle_bool b a).

(** [powf(x, 2.0f)]. *)
Definition powf2 (x : float) : float := fmul x x.

(** [(int16_t)x] and friends: conversion to an integer truncates toward 0. *)
Definition ftrunc (a : float) : Z :=
  if Qle_bool 0 a then Qfloor a else Qceiling a.

(** [std::sort] on a range of floats: ascending, by insertion. *)
Fixpoint sort_insert (x : float) (l : list float) : list float :=
  match l with
  | [] => [x]
  | y :: l' => if fle x y then x :: l else y :: sort_insert x l'
  end.

Definition std_sort (l : list float) : list float :=
  foldr sort_insert [] l.

(** Values in lowest terms, the only ones the operations produce. *)
Definition canonical (a : float) : Prop := Qred a = a.

End Float.

(** ** The noise gate of preprocess.cpp *)

Module Preprocess.
Import Float.

Definition uint32_wrap (z : Z) : Z := (z mod 2 ^ 32)%Z.

(** The fields of [PreprocessConfig] the noise gate reads. *)
Record PreprocessConfig := mkPreprocessConfig {
  enable_noise_gate : bool;
  noise_gate_threshold : float;   (* Linear threshold (0.0-1.0) *)
  noise_gate_ratio : float        (* Compression ratio below threshold *)
}.

(** The defaults of preprocess.h. *)
Definition default_config : PreprocessConfig :=
  mkPreprocessConfig true (flit 0.001) (flit 10).

(** Default argument [knee_width = 0.1f] of [softKneeCompress]. *)
Definition DEFAULT_KNEE_WIDTH : float := flit 0.1.

Definition softKneeCompress (input threshold ratio knee_width : float) : float :=
  if fle input (fsub threshold (fdiv knee_width (flit 2))) then
    input
  else if fle (fadd threshold (fdiv knee_width (flit 2))) input then
    fadd threshold (fdiv (fsub input threshold) ratio)
  else
    (* Soft knee region *)
    let knee_ratio :=
      fadd (flit 1)
           (fmul (fsub ratio (flit 1))
                 (powf2 (fdiv (fadd (fsub input threshold)
                                    (fdiv knee_width (flit 2)))
                              knee_width))) in
    fadd threshold (fdiv (fsub input threshold) knee_ratio).

(** The gain [noiseGate] applies to a sample of level [level < threshold]. *)
Definition gate_gain (cfg : PreprocessConfig) (level : float) : float :=
  let compressed_level :=
    softKneeCompress level (noise_gate_threshold cfg) (noise_gate_ratio cfg)
                     DEFAULT_KNEE_WIDTH in
  if flt (flit 0.0001) level then fdiv compressed_level level else flit 0.

(** One iteration of the loop of [noiseGate]: the processed sample and the
    new value of [stats_.noise_gate_activations]. *)
Definition noiseGate_sample (cfg : PreprocessConfig) (sample : float)
    (activations : Z) : float * Z :=
  let level := fabsf sample in
  if flt level (noise_gate_threshold cfg) then
    (fmul sample (gate_gain cfg level), uint32_wrap (activations + 1))
  else (sample, activations).

Fixpoint noiseGate (cfg : PreprocessConfig) (samples : list float)
    (activations : Z) : list float * Z :=
  match samples with
  | [] => ([], activations)
  | s :: rest =>
      let '(s', a1) := noiseGate_sample cfg s activations in
      let '(rest', a2) := noiseGate cfg rest a1 in
      (s' :: rest', a2)
  end.

(** A gate at half scale with ratio 2, whose knee lies inside [0, 1]. *)
Definition half_scale_config : PreprocessConfig :=
  mkPreprocessConfig true (flit 0.5) (flit 2).

End Preprocess.

(** ** The detector core of bark_detector.cpp *)

Module BarkDetector.
Import Float.

Definition SAMPLE_RATE : Z := 16000.
Definition FFT_SIZE : Z := 512.
Definition HOP_LENGTH : Z := 256.
Definition MEL_BANDS : Z := 40.
Definition MAX_TIME_FRAMES : Z := 32.
Definition MAX_MEDIAN_FILTER_SIZE : nat := 10.

(** [uint32_t] and, on the 32-bit target, [size_t]. *)
Definition uint32_wrap (z : Z) : Z := (z mod 2 ^ 32)%Z.
Definition size_t_wrap (z : Z) : Z := (z mod 2 ^ 32)%Z.

(** [enum class BarkClass : uint8_t]; [Unnamed] covers the values a
    [static_cast] can produce that have no enumerator. *)
Inductive BarkClass :=
| DOG_BARK | SPEECH | AMBIENT | SILENCE | UNKNOWN
| Unnamed (code : nat).

Definition BarkClass_of_index (i : nat) : BarkClass :=
  match i with
  | 0 => DOG_BARK | 1 => SPEECH | 2 => AMBIENT | 3 => SILENCE
  | 255 => UNKNOWN
  | _ => Unnamed i
  end.

Definition is_DOG_BARK (c : BarkClass) : bool :=
  match c with DOG_BARK => true | _ => false end.

(** [timestamp_ms] is [None] while the field has not been assigned. *)
Record DetectionResult := mkDetectionResult {
  detected_class : BarkClass;
  confidence : float;
  timestamp_ms : option Z;
  is_bark : bool
}.

Record PerformanceStats := mkPerformanceStats {
  inference_time_us : Z;
  avg_inference_time_us : Z;
  preprocessing_time_us : Z;
  total_inferences : Z;
  bark_detections : Z;
  memory_usage_kb : float
}.

Record BarkDetectorConfig := mkBarkDetectorConfig {
  confidence_threshold : float;
  min_bark_duration_ms : Z;
  agc_target_level : float;
  noise_gate_threshold : float;
  enable_temporal_filter : bool;
  ema_alpha : float;
  median_filter_size : nat
}.

(** The members of [BarkDetector::Impl] that carry detector state.  The
    tensors are represented by their float payload; [invocations] is a ghost
    counter of the calls made to [interpreter->Invoke()].  The scratch
    buffers of the FFT are not part of the model. *)
Record Impl := mkImpl {
  config : BarkDetectorConfig;
  initialized : bool;
  input_size : Z;
  mel_bands : Z;
  time_frames : Z;
  tensor_arena_size : Z;
  input_tensor : list float;
  output_tensor : list float;
  invocations : nat;
  ema_confidence : list float;
  median_buffer : list float;
  median_buffer_idx : nat;
  stats : PerformanceStats;
  inference_time_accumulator : Z
}.

Definition zero_stats : PerformanceStats :=
  mkPerformanceStats 0 0 0 0 0 (flit 0).

(** Defaults installed by the constructor of [Impl]. *)
Definition default_config : BarkDetectorConfig :=
  mkBarkDetectorConfig (flit 0.7) 300 (flit 0.5) (flit (-40)) true (flit 0.3) 3.

Definition set_stats (st : Impl) (s : PerformanceStats) : Impl :=
  mkImpl (config st) (initialized st) (input_size st) (mel_bands st)
         (time_frames st) (tensor_arena_size st) (input_tensor st)
         (output_tensor st) (invocations st) (ema_confidence st)
         (median_buffer st) (median_buffer_idx st) s
         (inference_time_accumulator st).

Definition set_input_tensor (st : Impl) (t : list float) : Impl :=
  mkImpl (config st) (initialized st) (input_size st) (mel_bands st)
         (time_frames st) (tensor_arena_size st) t
         (output_tensor st) (invocations st) (ema_confidence st)
         (median_buffer st) (median_buffer_idx st) (stats st)
         (inference_time_accumulator st).

Definition set_output_tensor (st : Impl) (t : list float) (calls : nat) : Impl :=
  mkImpl (config st) (initialized st) (input_size st) (mel_bands st)
         (time_frames st) (tensor_arena_size st) (input_tensor st)
         t calls (ema_confidence st)
         (median_buffer st) (median_buffer_idx st) (stats st)
         (inference_time_accumulator st).

Definition set_filter (st : Impl) (ema buf : list float) (idx : nat) : Impl :=
  mkImpl (config st) (initialized st) (input_size st) (mel_bands st)
         (time_frames st) (tensor_arena_size st) (input_tensor st)
         (output_tensor st) (invocations st) ema buf idx (stats st)
         (inference_time_accumulator st).

(** What one call reads from its surroundings: whether the [new] of the
    working copy succeeds, the four readings of [micros()], the reading of
    [millis()], and the prior content of the uninitialised local array
    [values] at the start of the median computation of each class. *)
Record CallEnv := mkCallEnv {
  alloc_ok : bool;
  t_start : Z;
  t_preproc_start : Z;
  t_preproc_end : Z;
  t_end : Z;
  now_ms : Z;
  stack_values : nat → list float
}.

Section Detector.

(** Functions of the C library, and the numerical kernel of one analysis
    frame (zero-padded copy, Hamming window, FFT, power spectrum and mel
    filterbank of [extract_mel_spectrogram], which returns the
    [mel_energies] of the frame starting at sample [start_idx]). *)
Variable sqrtf : float → float.
Variable log10f : float → float.
Variable mel_frame : list Z → nat → nat → list float.

(** The TensorFlow Lite Micro interpreter: from the content of the input
    tensor to the content of the output tensor, or [None] when [Invoke]
    does not return [kTfLiteOk]. *)
Variable Invoke : list float → option (list float).

(** *** AudioUtils *)

Definition calculate_rms (samples : list Z) : float :=
  match samples with
  | [] => flit 0
  | _ =>
      let sum :=
        foldl (λ sum s,
                 let normalized := fdiv (of_int s) (flit 32768) in
                 fadd sum (fmul normalized normalized))
              (flit 0) samples in
      sqrtf (fdiv sum (of_int (Z.of_nat (length samples))))
  end.

Definition amplitude_to_db (amplitude : float) : float :=
  if flt amplitude (flit 1e-10) then flit (-100)
  else fmul (flit 20) (log10f amplitude).

Definition apply_agc (samples : list Z) (target_level : float) : list Z :=
  let rms := calculate_rms samples in
  if flt rms (flit 1e-6) then samples
  else
    let gain0 := fdiv target_level rms in
    let gain := if flt (flit 4) gain0 then flit 4 else gain0 in
    (λ s,
       let sample0 := fmul (of_int s) gain in
       let sample1 := if flt (flit 32767) sample0 then flit 32767 else sample0 in
       let sample2 := if flt sample1 (flit (-32768)) then flit (-32768) else sample1 in
       ftrunc sample2) <$> samples.

Definition apply_noise_gate (samples : list Z) (threshold_db : float) : bool :=
  let rms := calculate_rms samples in
  let db := amplitude_to_db rms in
  flt threshold_db db.

(** *** Feature extraction *)

Definition required_samples (st : Impl) : Z :=
  size_t_wrap (size_t_wrap (size_t_wrap (time_frames st - 1) * HOP_LENGTH)
               + FFT_SIZE).

(** Copy of [mel_energies] into row [frame] of the output matrix. *)
Definition store_frame (bands : nat) (frame : nat) (mel : list float)
    (output : list float) : list float :=
  foldl (λ out i, <[frame * bands + i := mel !!! i]> out) output (seq 0 bands).

Definition extract_mel_spectrogram (st : Impl) (audio_samples : list Z)
    (output_features : list float) : bool * list float :=
  if negb (initialized st) then (false, output_features)
  else if (Z.of_nat (length audio_samples) <? required_samples st)%Z then
    (false, output_features)
  else
    let bands := Z.to_nat (mel_bands st) in
    (true,
     foldl (λ out frame,
              store_frame bands frame
                (mel_frame audio_samples (frame * Z.to_nat HOP_LENGTH) bands)
                out)
           output_features (seq 0 (Z.to_nat (time_frames st)))).

(** [BarkDetector::extract_features]. *)
Definition extract_features (st : Impl) (audio_samples : list Z)
    (features : list float) (feature_size : Z) : bool * list float :=
  if decide (feature_size ≠ input_size st) then (false, features)
  else extract_mel_spectrogram st audio_samples features.

(** *** Temporal filtering *)

(** One iteration of the EMA loop: class [i] of the running pair
    ([ema_confidence], [confidences]). *)
Definition ema_update (alpha : float) (acc : list float * list float)
    (i : nat) : list float * list float :=
  let '(ema, confidences) := acc in
  let v := fadd (fmul alpha (confidences !!! i))
                (fmul (fsub (flit 1) alpha) (ema !!! i)) in
  (<[i := v]> ema, <[i := v]> confidences).

(** "Store current confidences in circular buffer". *)
Definition store_history (buf : list float) (idx num_classes : nat)
    (confidences : list float) : list float :=
  foldl (λ b i, <[idx * num_classes + i := confidences !!! i]> b)
        buf (seq 0 num_classes).

(** [count = std::min((size_t)config.median_filter_size,
    stats.total_inferences)]. *)
Definition median_count (st : Impl) : nat :=
  median_filter_size (config st) `min` Z.to_nat (total_inferences (stats st)).

(** The local array [values] of class [i] after the copy loop and the sort
    of its first [count] entries; [values] is its content on entry. *)
Definition median_values (values : list float) (buf : list float)
    (num_classes i count : nat) : list float :=
  let copied :=
    foldl (λ v j, <[j := buf !!! (j * num_classes + i)]> v)
          values (seq 0 count) in
  std_sort (take count copied) ++ drop count copied.

Definition apply_temporal_filter (values_of : nat → list float) (st : Impl)
    (confidences : list float) : list float * Impl :=
  if negb (enable_temporal_filter (config st)) then (confidences, st)
  else
    let num_classes := length confidences in
    let '(ema, confidences1) :=
      foldl (ema_update (ema_alpha (config st)))
            (ema_confidence st, confidences) (seq 0 num_classes) in
    if decide (1 < median_filter_size (config st)) then
      let buf := store_history (median_buffer st) (median_buffer_idx st)
                               num_classes confidences1 in
      let idx := (median_buffer_idx st + 1) mod median_filter_size (config st) in
      let count := median_count st in
      let confidences2 :=
        foldl (λ c i,
                 <[i := median_values (values_of i) buf num_classes i count
                        !!! (count / 2)]> c)
              confidences1 (seq 0 num_classes) in
      (confidences2, set_filter st ema buf idx)
    else
      (confidences1,
       set_filter st ema (median_buffer st) (median_buffer_idx st)).

(** The history entries of class [i] in slots [0 .. count-1]. *)
Definition history_column (buf : list float) (num_classes i count : nat)
    : list float :=
  (λ j, buf !!! (j * num_classes + i)) <$> seq 0 count.

(** *** Inference *)

(** "Find class with highest confidence": the running pair
    ([max_confidence], [max_class]); [max_class] is a [uint8_t]. *)
Definition argmax_step (output : list float) (acc : float * nat) (i : nat)
    : float * nat :=
  let '(max_confidence, max_class) := acc in
  if flt max_confidence (output !!! i) then (output !!! i, i mod 256)
  else acc.

Definition empty_result : DetectionResult :=
  mkDetectionResult UNKNOWN (flit 0) (Some 0%Z) false.

Definition run_inference (env : CallEnv) (st : Impl) (audio_samples : list Z)
    : DetectionResult * Impl :=
  if negb (initialized st) then (empty_result, st)
  else if negb (alloc_ok env) then (empty_result, st)
  else
    let mutable_samples :=
      apply_agc audio_samples (agc_target_level (config st)) in
    if negb (apply_noise_gate mutable_samples
                              (noise_gate_threshold (config st))) then
      (mkDetectionResult SILENCE (flit 1) (Some 0%Z) false, st)
    else
      let '(ok, features) :=
        extract_mel_spectrogram st mutable_samples (input_tensor st) in
      let st1 := set_input_tensor st features in
      if negb ok then (empty_result, st1)
      else
        let s1 := stats st1 in
        let st2 :=
          set_stats st1
            (mkPerformanceStats (inference_time_us s1)
               (avg_inference_time_us s1)
               (uint32_wrap (t_preproc_end env - t_preproc_start env))
               (total_inferences s1) (bark_detections s1)
               (memory_usage_kb s1)) in
        match Invoke (input_tensor st2) with
        | None =>
            (empty_result,
             set_output_tensor st2 (output_tensor st2) (S (invocations st2)))
        | Some output =>
            let st3 := set_output_tensor st2 output (S (invocations st2)) in
            let '(filtered, st4) :=
              apply_temporal_filter (stack_values env) st3 output in
            let st5 := set_output_tensor st4 filtered (invocations st4) in
            let num_classes := length output in
            let '(max_confidence, max_class) :=
              foldl (argmax_step filtered) (filtered !!! 0, 0)
                    (seq 1 (num_classes - 1)) in
            let cls := BarkClass_of_index max_class in
            let bark :=
              is_DOG_BARK cls
              && fle (confidence_threshold (config st5)) max_confidence in
            let result := mkDetectionResult cls max_confidence (Some 0%Z) bark in
            let s5 := stats st5 in
            let inference_time := uint32_wrap (t_end env - t_start env) in
            let total := uint32_wrap (total_inferences s5 + 1) in
            let accumulator :=
              uint32_wrap (inference_time_accumulator st5 + inference_time) in
            let s6 :=
              mkPerformanceStats inference_time (accumulator / total)%Z
                (preprocessing_time_us s5) total
                (if bark then uint32_wrap (bark_detections s5 + 1)
                 else bark_detections s5)
                (fdiv (of_int (tensor_arena_size st5)) (flit 1024)) in
            (result,
             mkImpl (config st5) (initialized st5) (input_size st5)
                    (mel_bands st5) (time_frames st5) (tensor_arena_size st5)
                    (input_tensor st5) (output_tensor st5) (invocations st5)
                    (ema_confidence st5) (median_buffer st5)
                    (median_buffer_idx st5) s6 accumulator)
        end.

(** [BarkDetector::process]. *)
Definition process (env : CallEnv) (st : Impl) (audio_samples : list Z)
    (sample_rate : Z) : DetectionResult * Impl :=
  if decide (sample_rate ≠ SAMPLE_RATE) then
    (mkDetectionResult UNKNOWN (flit 0) None false, st)
  else
    let '(result, st') := run_inference env st audio_samples in
    (mkDetectionResult (detected_class result) (confidence result)
                       (Some (now_ms env)) (is_bark result),
     st').

End Detector.

(** A detector right after a successful [init_model] with the default
    configuration and a four-class model of [time_frames] = 32 and
    [mel_bands] = 40: buffers allocated, nothing processed yet.  The source
    leaves the freshly allocated [median_buffer] uninitialised; zeros stand
    for its content. *)
Definition fresh_detector : Impl :=
  mkImpl default_config true (32 * 40) 40 32 (32 * 1024)
         (replicate (32 * 40) (flit 0)) (replicate 4 (flit 0)) 0
         (replicate 4 (flit 0))
         (replicate (median_filter_size default_config * 4) (flit 0)) 0
         zero_stats 0.

(** A detector in mid-run with a window of five: two classes, seven
    inferences done, the history of class 0 holding 0.1, 0.9, 0.2, 0.8 in
    slots 0 to 3 and the cursor on slot 4. *)
Definition window5_detector : Impl :=
  mkImpl (mkBarkDetectorConfig (flit 0.7) 300 (flit 0.5) (flit (-40)) true
                               (flit 0.3) 5)
         true (32 * 40) 40 32 (32 * 1024)
         (replicate (32 * 40) (flit 0)) (replicate 2 (flit 0)) 7
         [flit 0.3; flit 0.6]
         [flit 0.1; flit 0.5; flit 0.9; flit 0.5; flit 0.2; flit 0.5;
          flit 0.8; flit 0.5; flit 0; flit 0; flit 0; flit 0; flit 0; flit 0;
          flit 0; flit 0; flit 0; flit 0; flit 0; flit 0]
         4
         (mkPerformanceStats 900 900 400 7 0 (flit 32)) 6300.

End BarkDetector.

(** ** The decision state machine *)

Module TemporalDecision.
Import Float.

(** The decision fields of [Config] in bark_detector_api.h. *)
Record Config := mkConfig {
  bark_threshold : float;   (* Confidence threshold for bark *)
  min_duration_ms : Z;      (* Minimum bark duration *)
  debounce_ms : Z           (* Debounce time between events *)
}.

(** The defaults of bark_detector_api.h. *)
Definition default_config : Config := mkConfig (flit 0.8) 300 100.

(** Modelled from the spec: the three states of section 4.5. *)
Inductive EventState := Idle | CandidateActive | Confirmed.

(** Modelled from the spec: the event part of the detection state of
    section 3: the state, the time [CandidateActive] was entered (start
    timestamp), and the time of the last cycle whose confidence reached the
    threshold (last-activity timestamp). *)
Record DetectionState := mkDetectionState {
  event_state : EventState;
  start_time : Z;
  last_activity : Z
}.

(** Modelled from the spec: the event of section 4.5, confidence, start
    time and duration (the class is the target class throughout). *)
Record BarkEvent := mkBarkEvent {
  ev_confidence : float;
  ev_start_time : Z;
  ev_duration_ms : Z
}.

(** One classification cycle: its timestamp and the filtered confidence of
    the target class. *)
Record Cycle := mkCycle {
  cycle_time : Z;
  cycle_confidence : float
}.

Definition qualifies (cfg : Config) (c : Cycle) : bool :=
  fle (bark_threshold cfg) (cycle_confidence c).

(** Modelled from the spec: the decision step of the detector declared in
    bark_detector_api.h ([BarkDetector::start] with its [BarkCallback]),
    whose implementation is not part of the source tree.  Section 4.5 of
    the specification: [Idle] becomes [CandidateActive] when the confidence
    reaches the threshold; [CandidateActive] becomes [Confirmed], emitting
    one event, on a qualifying cycle at which the time since entering
    [CandidateActive] has reached the minimum duration; both fall back to
    [Idle] once the confidence has stayed below the threshold for longer
    than the debounce interval; [Confirmed] emits nothing. *)
Definition step (cfg : Config) (st : DetectionState) (c : Cycle)
    : DetectionState * option BarkEvent :=
  let t := cycle_time c in
  match event_state st with
  | Idle =>
      if qualifies cfg c then (mkDetectionState CandidateActive t t, None)
      else (st, None)
  | CandidateActive =>
      if qualifies cfg c then
        if (min_duration_ms cfg <=? t - start_time st)%Z then
          (mkDetectionState Confirmed (start_time st) t,
           Some (mkBarkEvent (cycle_confidence c) (start_time st)
                             (t - start_time st)))
        else (mkDetectionState CandidateActive (start_time st) t, None)
      else if (debounce_ms cfg <? t - last_activity st)%Z then
        (mkDetectionState Idle (start_time st) (last_activity st), None)
      else (st, None)
  | Confirmed =>
      if qualifies cfg c then
        (mkDetectionState Confirmed (start_time st) t, None)
      else if (debounce_ms cfg <? t - last_activity st)%Z then
        (mkDetectionState Idle (start_time st) (last_activity st), None)
      else (st, None)
  end.

(** The events emitted over a sequence of cycles, and the final state. *)
Fixpoint run (cfg : Config) (st : DetectionState) (cycles : list Cycle)
    : list BarkEvent * DetectionState :=
  match cycles with
  | [] => ([], st)
  | c :: rest =>
      let '(st1, ev) := step cfg st c in
      let '(evs, st2) := run cfg st1 rest in
      (match ev with Some e => e :: evs | None => evs end, st2)
  end.

Definition idle_state : DetectionState := mkDetectionState Idle 0 0.

Definition first_time (cycles : list Cycle) : Z :=
  match cycles with c :: _ => cycle_time c | [] => 0%Z end.

Definition last_time (cycles : list Cycle) : Z :=
  match last cycles with Some c => cycle_time c | None => 0%Z end.

(** A qualifying burst: at least one cycle, every cycle at or above the
    threshold, lasting at least the minimum duration. *)
Definition qualifying_burst (cfg : Config) (burst : list Cycle) : bool :=
  negb (bool_decide (burst = []))
  && forallb (qualifies cfg) burst
  && (min_duration_ms cfg <=? last_time burst - first_time burst)%Z.

(** A pause after a burst that ended at time [since]: every cycle below the
    threshold and less than the debounce interval after [since]. *)
Definition short_pause (cfg : Config) (since : Z) (pause : list Cycle) : bool :=
  forallb (λ c, negb (qualifies cfg c)
                && (cycle_time c - since <? debounce_ms cfg)%Z) pause.

End TemporalDecision.

(** ** Representation of the ring of [audioProcessTask] *)

Module WebrtcRing.
Import WebrtcFirmware.

(** State after [startAudio]: zeroed buffer, cursors and fill level 0,
    statistics cleared. *)
Definition audio_ring_init : AudioRing :=
  mkAudioRing (replicate RING_BUFFER_SIZE 0%Z) 0 0 0 0.

Record audio_ring_wf (a : AudioRing) : Prop := {
  awf_length : length (ringBuffer a) = RING_BUFFER_SIZE;
  awf_write : ringWritePos a < RING_BUFFER_SIZE;
  awf_read : ringReadPos a < RING_BUFFER_SIZE;
  awf_avail : ringAvailable a ≤ RING_BUFFER_SIZE;
  awf_offset :
    (ringReadPos a + ringAvailable a) mod RING_BUFFER_SIZE = ringWritePos a
}.

(** The [ringAvailable] samples that start at the read cursor, oldest
    first. *)
Definition buffered (a : AudioRing) : list Z :=
  (λ k, ringBuffer a !!! ((ringReadPos a + k) mod RING_BUFFER_SIZE))
    <$> seq 0 (ringAvailable a).

(** The last [n] elements of a list. *)
Definition keep_last {A} (n : nat) (l : list A) : list A :=
  drop (length l - n) l.

End WebrtcRing.

(** ** G.711 A-law companding and RTP packets of
    secure_webrtc_dogbark_detector.cpp *)

Module Alaw.

Definition INT16_MIN : Z := -32768.
Definition INT16_MAX : Z := 32767.

Definition uint8_wrap (z : Z) : Z := (z mod 2 ^ 8)%Z.
Definition uint16_wrap (z : Z) : Z := (z mod 2 ^ 16)%Z.
Definition uint32_wrap (z : Z) : Z := (z mod 2 ^ 32)%Z.

(** [while (absValue >= (256 << segment) && segment < 7) segment++;]
    The loop runs at most [7 - segment] times, which [fuel] covers. *)
Fixpoint segment_loop (fuel : nat) (absValue segment : Z) : Z :=
  match fuel with
  | 0 => segment
  | S fuel' =>
      if ((Z.shiftl 256 segment <=? absValue) && (segment <? 7))%Z then
        segment_loop fuel' absValue (segment + 1)
      else segment
  end.

Definition encodeAlaw (sample : Z) : Z :=
  let ALAW_MAX := 4095%Z in
  let sign := (if sample <? 0 then 128 else 0)%Z in
  let absValue0 :=
    (if sample <? 0 then
       (if sample =? INT16_MIN then INT16_MAX else - sample)
     else sample)%Z in
  (* Clip to maximum *)
  let absValue := (if ALAW_MAX <? absValue0 then ALAW_MAX else absValue0)%Z in
  let '(segment, quantization) :=
    if (256 <=? absValue)%Z then
      let segment := segment_loop 7 absValue 1 in
      (segment, Z.land (Z.shiftr absValue (segment + 3)) 15)
    else (0%Z, Z.land (Z.shiftr absValue 4) 15) in
  let alaw := uint8_wrap (Z.lor sign (Z.lor (Z.shiftl segment 4) quantization)) in
  uint8_wrap (Z.lxor alaw 85).

(** The seven code bits without the sign and the transmission mask. *)
Definition alaw_code (sample : Z) : Z :=
  Z.land (Z.lxor (encodeAlaw sample) 85) 127.

(** The fields of [StreamingClient] that [createRTPPacket] uses. *)
Record StreamingClient := mkStreamingClient {
  ssrc : Z;
  sequenceNumber : Z;
  timestamp : Z
}.

(** [RTPHeader], a packed struct of 12 bytes; the multi-byte fields hold
    what [htons] and [htonl] return. *)
Record RTPHeader := mkRTPHeader {
  version : Z;
  padding : Z;
  extension : Z;
  csrcCount : Z;
  marker : Z;
  payloadType : Z;
  hdr_sequenceNumber : Z;
  hdr_timestamp : Z;
  hdr_ssrc : Z
}.

Definition sizeof_RTPHeader : nat := 12.

Section Rtp.

(** Byte-order conversions of the network stack. *)
Variable htons : Z → Z.
Variable htonl : Z → Z.

(** The packet (header and payload), the returned size and the updated
    client. *)
Definition createRTPPacket (audioSamples : list Z) (client : StreamingClient)
    : RTPHeader * list Z * nat * StreamingClient :=
  let header :=
    mkRTPHeader 2 0 0 0 0 8 (htons (sequenceNumber client))
                (htonl (timestamp client)) (htonl (ssrc client)) in
  let payload := encodeAlaw <$> audioSamples in
  let sampleCount := length audioSamples in
  (header, payload, sizeof_RTPHeader + sampleCount,
   mkStreamingClient (ssrc client)
     (uint16_wrap (sequenceNumber client + 1))
     (uint32_wrap (timestamp client + Z.of_nat sampleCount))).

(** The packets made for a succession of frames, and the client after the
    last one. *)
Fixpoint send_frames (frames : list (list Z)) (client : StreamingClient)
    : list (RTPHeader * list Z * nat) * StreamingClient :=
  match frames with
  | [] => ([], client)
  | frame :: rest =>
      let '(header, payload, size, client1) := createRTPPacket frame client in
      let '(packets, client2) := send_frames rest client1 in
      ((header, payload, size) :: packets, client2)
  end.

End Rtp.

(** [P] holds for the [n] integers from [start] on. *)
Fixpoint forall_from (n : nat) (start : Z) (P : Z → bool) : bool :=
  match n with
  | 0 => true
  | S n' => P start && forall_from n' (start + 1)%Z P
  end.

End Alaw.

(** ** Base64url coding of the JWT parts (secure_webrtc_dogbark_detector.cpp)

    An Arduino [String] is the list of its characters.  [int] arithmetic is
    two's complement on 32 bits, as on the target; [>>] on a negative [int]
    is the arithmetic shift. *)

Module Base64Url.

(** The alphabet of RFC 4648, section 5. *)
Definition base64_chars : list ascii :=
  String.list_ascii_of_string
    "ABCDEFGHIJKLMNOPQRSTUVWXYZabcdefghijklmnopqrstuvwxyz0123456789-_".

(** [int] arithmetic: results are taken modulo [2^32] into the signed
    range. *)
Definition int_wrap (z : Z) : Z := ((z + 2 ^ 31) mod 2 ^ 32 - 2 ^ 31)%Z.

(** The value of a character as [unsigned char], and back. *)
Definition byte_of (c : ascii) : Z := Z.of_N (N_of_ascii c).
Definition char_of (z : Z) : ascii := ascii_of_N (Z.to_N z).

(** [base64_chars[i]]; index 64 is the terminating NUL. *)
Definition char_at (i : Z) : ascii := nth (Z.to_nat i) base64_chars zero.

(** The inner [while (valb >= 0)] of the encoder; it runs
    [valb / 6 + 1] times when [valb >= 0]. *)
Fixpoint emit_loop (fuel : nat) (val valb : Z) (encoded : list ascii)
    : list ascii * Z :=
  match fuel with
  | 0 => (encoded, valb)
  | S fuel' =>
      if (0 <=? valb)%Z then
        emit_loop fuel' val (valb - 6)
          (encoded ++ [char_at (Z.land (Z.shiftr val valb) 63)])
      else (encoded, valb)
  end.

Definition emit_fuel (valb : Z) : nat := Z.to_nat (valb / 6 + 1).

(** One iteration of the encoder's [for] loop on the state
    ([val], [valb], [encoded]). *)
Definition encode_char (st : Z * Z * list ascii) (c : ascii)
    : Z * Z * list ascii :=
  let '(val, valb, encoded) := st in
  let val1 := int_wrap (int_wrap (Z.shiftl val 8) + byte_of c) in
  let valb1 := (valb + 8)%Z in
  let '(encoded1, valb2) := emit_loop (emit_fuel valb1) val1 valb1 encoded in
  (val1, valb2, encoded1).

(** The statement after the loop, which emits the leftover bits. *)
Definition encode_finish (st : Z * Z * list ascii) : list ascii :=
  let '(val, valb, encoded) := st in
  if (-6 <? valb)%Z then
    encoded
    ++ [char_at (Z.land (Z.shiftr (int_wrap (Z.shiftl val 8)) (valb + 8)) 63)]
  else encoded.

Definition base64UrlEncode (input : list ascii) : list ascii :=
  encode_finish (foldl encode_char (0%Z, (-6)%Z, []) input).

(** [strchr(base64_chars, c) - base64_chars]: the first position of [c] in
    the alphabet; the NUL character is found at the terminator. *)
Fixpoint index_from (c : ascii) (l : list ascii) (i : Z) : option Z :=
  match l with
  | [] => if decide (c = zero) then Some i else None
  | x :: l' => if decide (c = x) then Some i else index_from c l' (i + 1)
  end.

Definition strchr_index (c : ascii) : option Z := index_from c base64_chars 0.

Definition decode_char (st : Z * Z * list ascii) (c : ascii)
    : Z * Z * list ascii :=
  let '(val, valb, decoded) := st in
  match strchr_index c with
  | None => st (* continue *)
  | Some idx =>
      let val1 := int_wrap (int_wrap (Z.shiftl val 6) + idx) in
      let valb1 := (valb + 6)%Z in
      if (0 <=? valb1)%Z then
        (val1, (valb1 - 8)%Z,
         decoded ++ [char_of (Z.land (Z.shiftr val1 valb1) 255)])
      else (val1, valb1, decoded)
  end.

Definition base64UrlDecode (input : list ascii) : list ascii :=
  (foldl decode_char (0%Z, (-8)%Z, []) input).2.

(** What the encoder appends from state ([val], [valb]) on, and what the
    decoder appends from its state on. *)
Definition enc_from (val valb : Z) (input : list ascii) : list ascii :=
  encode_finish (foldl encode_char (val, valb, []) input).

Definition dec_from (val valb : Z) (input : list ascii) : list ascii :=
  (foldl decode_char (val, valb, []) input).2.

(** [val] after the encoder has taken in [c], and after the decoder has
    taken in the alphabet position [idx]. *)
Definition enc_val (val : Z) (c : ascii) : Z :=
  int_wrap (int_wrap (Z.shiftl val 8) + byte_of c).
Definition dec_val (val idx : Z) : Z :=
  int_wrap (int_wrap (Z.shiftl val 6) + idx).


(** The characters the encoder may produce, the characters the decoder
    takes in, and the strings an Arduino [String] can hold. *)
Definition in_alphabet (c : ascii) : Prop := c ∈ base64_chars.
Definition decodable (c : ascii) : bool :=
  match strchr_index c with Some _ => true | None => false end.
Definition nul_free (input : list ascii) : Prop := zero ∉ input.

End Base64Url.

(** ** Rate limiting and login (secure_webrtc_dogbark_detector.cpp)

    The [std::map] globals are finite maps with [String] keys.  [millis()]
    is an input: every call site gets the reading it would obtain. *)

Module Security.

Definition MAX_FAILED_ATTEMPTS : Z := 5.
Definition LOCKOUT_DURATION : Z := 300000.
Definition RATE_LIMIT_WINDOW : Z := 60000.
Definition MAX_REQUESTS_PER_WINDOW : Z := 100.

Definition uint16_wrap (z : Z) : Z := (z mod 2 ^ 16)%Z.
Definition uint32_wrap (z : Z) : Z := (z mod 2 ^ 32)%Z.

(** [std::map::operator[]]: the value stored under the key, after a
    value-initialised entry has been inserted when there was none. *)
Definition map_index {V : Type} (dflt : V) (m : gmap string V) (k : string)
    : V * gmap string V :=
  match m !! k with
  | Some v => (v, m)
  | None => (dflt, <[k := dflt]> m)
  end.

Record RateState : Type := mkRateState {
  clientRequests : gmap string Z;
  clientWindowStart : gmap string Z;
  blockedClients : gmap string bool
}.

Definition rate_init : RateState := mkRateState ∅ ∅ ∅.

(** [rateLimitCheck]; [now] is the reading of [millis()]. *)
Definition rateLimitCheck (now : Z) (clientIP : string) (st : RateState)
    : bool * RateState :=
  let '(blocked, bc0) := map_index false (blockedClients st) clientIP in
  let '(start0, cw0) :=
    if blocked then map_index 0%Z (clientWindowStart st) clientIP
    else (0%Z, clientWindowStart st) in
  if blocked && (now <? uint32_wrap (start0 + 5 * 60 * 1000))%Z then
    (false, mkRateState (clientRequests st) cw0 bc0)
  else
    let bc1 := if blocked then <[clientIP := false]> bc0 else bc0 in
    let '(start1, cw1) := map_index 0%Z cw0 clientIP in
    let expired := (uint32_wrap (start1 + RATE_LIMIT_WINDOW) <? now)%Z in
    let cr1 :=
      if expired then <[clientIP := 0%Z]> (clientRequests st)
      else clientRequests st in
    let cw2 := if expired then <[clientIP := now]> cw1 else cw1 in
    let '(requests, cr2) := map_index 0%Z cr1 clientIP in
    let cr3 := <[clientIP := uint32_wrap (requests + 1)]> cr2 in
    if (MAX_REQUESTS_PER_WINDOW <? uint32_wrap (requests + 1))%Z then
      (false, mkRateState cr3 (<[clientIP := now]> cw2)
                (<[clientIP := true]> bc1))
    else (true, mkRateState cr3 cw2 bc1).

(** The requests of one client, one after the other, at the given times. *)
Fixpoint rate_run (clientIP : string) (times : list Z) (st : RateState)
    : list bool * RateState :=
  match times with
  | [] => ([], st)
  | now :: rest =>
      let '(ok, st1) := rateLimitCheck now clientIP st in
      let '(oks, st2) := rate_run clientIP rest st1 in
      (ok :: oks, st2)
  end.

(** What the three maps say about one client: blocked, window start and
    request count, with the defaults [operator[]] would insert. *)
Definition client_view (st : RateState) (ip : string) : bool * Z * Z :=
  (default false (blockedClients st !! ip),
   default 0%Z (clientWindowStart st !! ip),
   default 0%Z (clientRequests st !! ip)).

(** The effect of [rateLimitCheck] on the view of the calling client. *)
Definition view_step (now : Z) (v : bool * Z * Z) : bool * (bool * Z * Z) :=
  let '(blocked, start, requests) := v in
  if blocked && (now <? uint32_wrap (start + 5 * 60 * 1000))%Z then
    (false, v)
  else
    let expired := (uint32_wrap (start + RATE_LIMIT_WINDOW) <? now)%Z in
    let requests1 := uint32_wrap ((if expired then 0 else requests) + 1) in
    if (MAX_REQUESTS_PER_WINDOW <? requests1)%Z then
      (false, (true, now, requests1))
    else (true, (false, if expired then now else start, requests1)).

Definition accepted (oks : list bool) : nat := length (List.filter id oks).

(** A window that started inside the span [t0, t0 + RATE_LIMIT_WINDOW]. *)
Definition window_in_span (t0 start : Z) : bool :=
  (t0 <=? start)%Z && (start <=? t0 + RATE_LIMIT_WINDOW)%Z.

(** An upper bound on the requests that can still be accepted for a client
    up to [t0 + RATE_LIMIT_WINDOW]: what is left of the running window,
    plus a whole window when the running one started before [t0]. *)
Definition budget (t0 : Z) (v : bool * Z * Z) : Z :=
  let '(blocked, start, requests) := v in
  if window_in_span t0 start then
    if blocked then 0%Z
    else Z.max 0 (MAX_REQUESTS_PER_WINDOW - requests)
  else (MAX_REQUESTS_PER_WINDOW
        + Z.max 0 (MAX_REQUESTS_PER_WINDOW - requests))%Z.

(** The request counter is not about to wrap. *)
Definition counter_safe (t0 : Z) (v : bool * Z * Z) : Prop :=
  let '(blocked, start, requests) := v in
  (0 ≤ requests)%Z
  ∧ ((requests < 2 ^ 32 - 1)%Z
     ∨ (blocked = true ∧ window_in_span t0 start = true)).

Inductive SecurityLevel : Type :=
  PUBLIC_READ | USER_ACCESS | ADMIN_ACCESS | SUPER_ADMIN.

Record UserCredentials : Type := mkUserCredentials {
  username : string;
  passwordHash : string;
  level : SecurityLevel;
  lastLogin : Z;
  failedAttempts : Z;
  isLocked : bool;
  lockExpiry : Z
}.

Definition set_failedAttempts (u : UserCredentials) (n : Z) : UserCredentials :=
  mkUserCredentials (username u) (passwordHash u) (level u) (lastLogin u)
    n (isLocked u) (lockExpiry u).

Definition set_lastLogin (u : UserCredentials) (t : Z) : UserCredentials :=
  mkUserCredentials (username u) (passwordHash u) (level u) t
    (failedAttempts u) (isLocked u) (lockExpiry u).

Definition set_isLocked (u : UserCredentials) (b : bool) : UserCredentials :=
  mkUserCredentials (username u) (passwordHash u) (level u) (lastLogin u)
    (failedAttempts u) b (lockExpiry u).

Definition set_lockExpiry (u : UserCredentials) (t : Z) : UserCredentials :=
  mkUserCredentials (username u) (passwordHash u) (level u) (lastLogin u)
    (failedAttempts u) (isLocked u) t.

(** The readings of [millis()] at the three places of [authenticateUser]
    that ask for the time: the lock test, the expiry test, and the stamp
    written to [lastLogin] or used for [lockExpiry]. *)
Record Clock : Type := mkClock {
  t_lock_test : Z;
  t_expiry_test : Z;
  t_stamp : Z
}.

Definition at_time (t : Z) : Clock := mkClock t t t.

Section Login.

(** SHA-256 of password and salt in hexadecimal (mbedTLS). *)
Variable hashPassword : string → string → string.

Definition authenticateUser (clock : Clock) (name password : string)
    (users : gmap string UserCredentials)
    : bool * gmap string UserCredentials :=
  match users !! name with
  | None => (false, users)
  | Some user =>
      if isLocked user && (t_lock_test clock <? lockExpiry user)%Z then
        (false, users)
      else
        let user1 :=
          if isLocked user && (lockExpiry user <=? t_expiry_test clock)%Z
          then set_failedAttempts (set_isLocked user false) 0
          else user in
        if decide (hashPassword password name = passwordHash user1) then
          (true,
           <[name := set_lastLogin (set_failedAttempts user1 0)
                       (t_stamp clock)]> users)
        else
          let user2 :=
            set_failedAttempts user1 (uint16_wrap (failedAttempts user1 + 1)) in
          let user3 :=
            if (MAX_FAILED_ATTEMPTS <=? failedAttempts user2)%Z then
              set_lockExpiry (set_isLocked user2 true)
                (uint32_wrap (t_stamp clock + LOCKOUT_DURATION))
            else user2 in
          (false, <[name := user3]> users)
  end.

(** Login attempts on one account, one after the other. *)
Fixpoint login_run (name : string) (attempts : list (Z * string))
    (users : gmap string UserCredentials)
    : list bool * gmap string UserCredentials :=
  match attempts with
  | [] => ([], users)
  | (t, password) :: rest =>
      let '(ok, users1) := authenticateUser (at_time t) name password users in
      let '(oks, users2) := login_run name rest users1 in
      (ok :: oks, users2)
  end.

End Login.

End Security.

(** ** The streaming task of secure_webrtc_dogbark_detector.cpp

    [activeStreams] is a [std::map]: its entries are visited in the order of
    their keys, so the map is the list of its entries in that order.  One
    pass of the loop body of [streamingTask] is taken without a write to the
    ring in between. *)

Module Streaming.
Import SampleRing Alaw.

Definition BARK_TRIGGERED_STREAM_MS : Z := 5000.

(** The fields of [StreamingClient] the tasks read and write; the RTP
    counters are those of [Alaw.StreamingClient]. *)
Record Stream : Type := mkStream {
  active : bool;
  barkTriggered : bool;
  barkTriggerEnd : Z;
  rtp : StreamingClient
}.

Definition set_rtp (s : Stream) (c : StreamingClient) : Stream :=
  mkStream (active s) (barkTriggered s) (barkTriggerEnd s) c.

Definition set_barkTriggerEnd (s : Stream) (t : Z) : Stream :=
  mkStream (active s) (barkTriggered s) t (rtp s).

(** The session that the handler of /api/start-stream creates; [random] is
    the value of [esp_random()]. *)
Definition new_stream (random : Z) (barkAlertsOnly : bool) : Stream :=
  mkStream true barkAlertsOnly 0 (mkStreamingClient random 1 0).

(** "Activate bark-triggered streams" of [barkDetectedCallback]. *)
Definition activate_bark_streams (now : Z) (streams : list (string * Stream))
    : list (string * Stream) :=
  (λ entry : string * Stream,
     if barkTriggered entry.2 then
       (entry.1,
        set_barkTriggerEnd entry.2
          (uint32_wrap (now + BARK_TRIGGERED_STREAM_MS)))
     else entry) <$> streams.

Section Pass.

Variable htons : Z → Z.
Variable htonl : Z → Z.

(** The [for] loop over [activeStreams] in [streamingTask]: the packets
    handed to [udp.write] with the key of their stream, the entries left in
    the map, and the ring. *)
Fixpoint streaming_pass (now : Z) (streams : list (string * Stream))
    (ring : Ring)
    : list (string * (RTPHeader * list Z * nat)) * list (string * Stream)
      * Ring :=
  match streams with
  | [] => ([], [], ring)
  | (key, client) :: rest =>
      if barkTriggered client && (barkTriggerEnd client <? now)%Z then
        streaming_pass now rest ring
      else if active client then
        let '(streamBuffer, ring1) :=
          readFromRingBuffer ring SAMPLES_PER_FRAME in
        if decide (length streamBuffer = SAMPLES_PER_FRAME) then
          let '(header, payload, packetSize, rtp1) :=
            createRTPPacket htons htonl streamBuffer (rtp client) in
          let '(sent, kept, ring2) := streaming_pass now rest ring1 in
          ((key, (header, payload, packetSize)) :: sent,
           (key, set_rtp client rtp1) :: kept, ring2)
        else
          let '(sent, kept, ring2) := streaming_pass now rest ring1 in
          (sent, (key, client) :: kept, ring2)
      else
        let '(sent, kept, ring2) := streaming_pass now rest ring in
        (sent, (key, client) :: kept, ring2)
  end.

End Pass.

(** Streams that a pass at [now] serves: active and not expired. *)
Definition serving (now : Z) (s : Stream) : Prop :=
  active s = true
  ∧ (barkTriggered s = false ∨ (now ≤ barkTriggerEnd s)%Z).

End Streaming.

(** ** The filters of preprocess.cpp

    The filter state ([pre_emphasis_state_], [agc_gain_], [agc_envelope_])
    is passed in and returned. *)

Module PreprocessFilters.
Import Float.

(** The fields of [PreprocessConfig] these filters read. *)
Record FilterConfig : Type := mkFilterConfig {
  agc_target_level : float;
  agc_attack_time : float;
  agc_release_time : float;
  agc_max_gain : float;
  pre_emphasis_alpha : float
}.

(** [std::min] and [std::max] on floats. *)
Definition fmin (a b : float) : float := if flt b a then b else a.
Definition fmax (a b : float) : float := if flt a b then b else a.

(** [preEmphasisFilter]: the filtered samples and the new
    [pre_emphasis_state_]. *)
Fixpoint preEmphasisFilter (cfg : FilterConfig) (pre_emphasis_state : float)
    (samples : list float) : list float * float :=
  match samples with
  | [] => ([], pre_emphasis_state)
  | sample :: rest =>
      let filtered :=
        fsub sample (fmul (pre_emphasis_alpha cfg) pre_emphasis_state) in
      let '(out, state') := preEmphasisFilter cfg sample rest in
      (filtered :: out, state')
  end.

Definition envelopeFollower (input envelope attack_coeff release_coeff : float)
    : float :=
  if flt envelope input then
    fadd envelope (fmul (fsub input envelope) (fsub (flit 1) attack_coeff))
  else
    fadd envelope (fmul (fsub input envelope) (fsub (flit 1) release_coeff)).

Section Agc.

Variable expf : float → float.

(** One iteration of the loop of [automaticGainControl] on the state
    ([agc_gain_], [agc_envelope_]). *)
Definition agc_sample (cfg : FilterConfig) (attack_coeff release_coeff : float)
    (state : float * float) (sample : float) : float * (float * float) :=
  let '(agc_gain, agc_envelope) := state in
  let input_level := fabsf sample in
  let agc_envelope1 :=
    envelopeFollower input_level agc_envelope attack_coeff release_coeff in
  let desired_gain0 :=
    if flt (flit 0.001) agc_envelope1
    then fdiv (agc_target_level cfg) agc_envelope1
    else agc_max_gain cfg in
  let desired_gain := fmin desired_gain0 (agc_max_gain cfg) in
  let agc_gain1 :=
    fadd agc_gain (fmul (fsub desired_gain agc_gain) (flit 0.01)) in
  let sample1 := fmul sample agc_gain1 in
  (fmax (flit (-1)) (fmin (flit 1) sample1), (agc_gain1, agc_envelope1)).

Fixpoint agc_loop (cfg : FilterConfig) (attack_coeff release_coeff : float)
    (state : float * float) (samples : list float)
    : list float * (float * float) :=
  match samples with
  | [] => ([], state)
  | sample :: rest =>
      let '(out, state1) :=
        agc_sample cfg attack_coeff release_coeff state sample in
      let '(outs, state2) :=
        agc_loop cfg attack_coeff release_coeff state1 rest in
      (out :: outs, state2)
  end.

(** [automaticGainControl]; [sample_rate] is [sample_rate_]. *)
Definition automaticGainControl (cfg : FilterConfig) (sample_rate : Z)
    (state : float * float) (samples : list float)
    : list float * (float * float) :=
  let attack_coeff :=
    expf (fdiv (flit (-1)) (fmul (agc_attack_time cfg) (of_int sample_rate))) in
  let release_coeff :=
    expf (fdiv (flit (-1))
               (fmul (agc_release_time cfg) (of_int sample_rate))) in
  agc_loop cfg attack_coeff release_coeff state samples.

End Agc.

End PreprocessFilters.

(* ====================================================================== *)
(** * Properties *)
(* ====================================================================== *)

(** ** Arithmetic of cursors that advance modulo the buffer size *)

Section CursorArith.
Variable N : nat.
Hypothesis N_pos : 0 < N.

Lemma add_mod_wrap (p k : nat) :
  p < N → k ≤ N → (p + k) mod N = if decide (p + k < N) then p + k else p + k - N.
Proof.
  intros Hp Hk. case_decide as Hlt.
  - by apply Nat.mod_small.
  - assert (Hsplit : p + k = (p + k - N) + 1 * N) by lia.
    rewrite Hsplit at 1.
    rewrite Nat.Div0.mod_add. apply Nat.mod_small. lia.
Qed.

Lemma succ_mod_lt (p : nat) : (p + 1) mod N < N.
Proof. apply Nat.mod_upper_bound. lia. Qed.

Lemma add_mod_succ (p k : nat) :
  ((p + 1) mod N + k) mod N = (p + S k) mod N.
Proof.
  rewrite Nat.Div0.add_mod_idemp_l. f_equal. lia.
Qed.
End CursorArith.


(** ** Facts about the audio ring buffer *)

Section SampleRingFacts.
Import SampleRing.

Lemma AUDIO_BUFFER_SIZE_gt1 : 1 < AUDIO_BUFFER_SIZE.
Proof. apply Nat.ltb_lt. vm_compute. reflexivity. Qed.

#[local] Opaque AUDIO_BUFFER_SIZE.

Let size_pos : 0 < AUDIO_BUFFER_SIZE.
Proof. pose proof AUDIO_BUFFER_SIZE_gt1. lia. Qed.

Lemma ring_init_wf : ring_wf ring_init.
Proof.
  split; [apply length_replicate | apply size_pos | apply size_pos].
Qed.

Lemma available_lt (r : Ring) :
  ring_wf r → getAvailableSamples r < AUDIO_BUFFER_SIZE.
Proof.
  intros [_ Hw Hr]. unfold getAvailableSamples. case_decide; lia.
Qed.

(** The write cursor sits [available] slots after the read cursor. *)
Lemma write_pos_offset (r : Ring) :
  ring_wf r →
  (ringBufferReadPos r + getAvailableSamples r) mod AUDIO_BUFFER_SIZE
  = ringBufferWritePos r.
Proof.
  intros Hwf. pose proof (available_lt r Hwf) as Ha. destruct Hwf as [_ Hw Hr].
  rewrite add_mod_wrap by lia.
  unfold getAvailableSamples in *. repeat case_decide; lia.
Qed.

(** No buffered slot coincides with the write cursor. *)
Lemma buffered_slot_ne_write (r : Ring) (k : nat) :
  ring_wf r → k < getAvailableSamples r →
  (ringBufferReadPos r + k) mod AUDIO_BUFFER_SIZE ≠ ringBufferWritePos r.
Proof.
  intros Hwf Hk. pose proof (available_lt r Hwf) as Ha. destruct Hwf as [_ Hw Hr].
  rewrite add_mod_wrap by lia.
  unfold getAvailableSamples in *. repeat case_decide; lia.
Qed.

Lemma next_pos_full (r : Ring) :
  ring_wf r →
  (ringBufferWritePos r + 1) mod AUDIO_BUFFER_SIZE = ringBufferReadPos r
  ↔ getAvailableSamples r = AUDIO_BUFFER_SIZE - 1.
Proof.
  intros [_ Hw Hr]. pose proof AUDIO_BUFFER_SIZE_gt1.
  rewrite add_mod_wrap by lia.
  unfold getAvailableSamples. repeat case_decide; lia.
Qed.

Lemma push_wf (r : Ring) (s : Z) : ring_wf r → ring_wf (push r s).
Proof.
  intros [Hl Hw Hr]. split; simpl.
  - by rewrite length_insert.
  - by apply succ_mod_lt.
  - done.
Qed.

Lemma push_available (r : Ring) (s : Z) :
  ring_wf r → getAvailableSamples r ≠ AUDIO_BUFFER_SIZE - 1 →
  getAvailableSamples (push r s) = S (getAvailableSamples r).
Proof.
  intros Hwf Hfull. pose proof (available_lt r Hwf) as Ha.
  destruct Hwf as [_ Hw Hr]. pose proof AUDIO_BUFFER_SIZE_gt1.
  unfold getAvailableSamples in *. simpl.
  rewrite add_mod_wrap by lia. repeat case_decide; lia.
Qed.

Lemma push_contents (r : Ring) (s : Z) :
  ring_wf r → getAvailableSamples r ≠ AUDIO_BUFFER_SIZE - 1 →
  contents (push r s) = contents r ++ [s].
Proof.
  intros Hwf Hfull. unfold contents.
  rewrite push_available by done.
  unfold slots. rewrite seq_S, fmap_app. simpl. f_equal.
  - apply list_fmap_ext. intros i k Hk.
    apply lookup_seq in Hk as [-> Hk]. simpl.
    apply list_lookup_total_insert_ne.
    intros Heq. by eapply buffered_slot_ne_write.
  - rewrite write_pos_offset by done.
    rewrite list_lookup_total_insert_eq; [done |].
    destruct Hwf as [Hl Hw _]. lia.
Qed.

(** Neither well-formedness, the fill level nor the queue depend on the
    mutex. *)
Lemma set_mutex_wf (r : Ring) (m : Semaphore) :
  ring_wf r → ring_wf (set_mutex r m).
Proof. intros [Hl Hw Hr]. by split. Qed.

Lemma set_mutex_same (r : Ring) :
  set_mutex r (audioMutex r) = r.
Proof. by destruct r. Qed.

(** The write loop on a well-formed ring stores the longest prefix of the
    offered samples that fits in the [AUDIO_BUFFER_SIZE - 1] usable slots
    and appends exactly that prefix to the queue. *)
Lemma write_loop_spec (samples : list Z) :
  ∀ (r : Ring) (written : nat),
    ring_wf r →
    let k := length samples `min`
             (AUDIO_BUFFER_SIZE - 1 - getAvailableSamples r) in
    ∃ r', write_loop samples r written = (written + k, r')
          ∧ ring_wf r'
          ∧ ringBufferReadPos r' = ringBufferReadPos r
          ∧ audioMutex r' = audioMutex r
          ∧ getAvailableSamples r' = getAvailableSamples r + k
          ∧ contents r' = contents r ++ take k samples.
Proof.
  induction samples as [| s rest IH]; intros r written Hwf k.
  - exists r. subst k. simpl. rewrite !Nat.add_0_r, app_nil_r. done.
  - pose proof (available_lt r Hwf) as Ha.
    pose proof (next_pos_full r Hwf) as Hfull.
    simpl. case_decide as Hnext.
    + assert (Hroom : getAvailableSamples r ≠ AUDIO_BUFFER_SIZE - 1)
        by (intros Heq; apply Hnext, Hfull, Heq).
      destruct (IH (push r s) (S written) (push_wf r s Hwf))
        as (r' & Hrun & Hwf' & Hrd & Hmx & Hav & Hct).
      rewrite push_available in Hrun, Hav, Hct by done.
      rewrite push_contents in Hct by done.
      assert (Hk : k = S (length rest `min`
                   (AUDIO_BUFFER_SIZE - 1 - S (getAvailableSamples r))))
        by (subst k; cbn [length]; lia).
      exists r'. rewrite Hk. split_and!; try done.
      * unfold push in Hrun. rewrite Hrun. f_equal. lia.
      * rewrite Hav. lia.
      * rewrite Hct. simpl. by rewrite <- app_assoc.
    + assert (Heq : getAvailableSamples r = AUDIO_BUFFER_SIZE - 1).
      { apply Hfull. destruct (decide ((ringBufferWritePos r + 1)
          mod AUDIO_BUFFER_SIZE = ringBufferReadPos r)); [done |].
        by destruct Hnext. }
      assert (Hk : k = 0) by (subst k; cbn [length]; lia).
      exists r. rewrite Hk, !Nat.add_0_r, app_nil_r. done.
Qed.

(** On a full ring the loop breaks at once and touches nothing. *)
Lemma write_loop_full (samples : list Z) (r : Ring) (written : nat) :
  ring_wf r → getAvailableSamples r = AUDIO_BUFFER_SIZE - 1 →
  write_loop samples r written = (written, r).
Proof.
  intros Hwf Hfull. destruct samples as [| s rest]; [done |].
  simpl. case_decide as Hnext; [| done].
  destruct Hnext. by apply next_pos_full.
Qed.

(** One iteration of the copy loop: the slot under the read cursor is the
    head of the queue. *)
Lemma contents_pop (r : Ring) :
  ring_wf r → ringBufferReadPos r ≠ ringBufferWritePos r →
  let r1 := set_read r ((ringBufferReadPos r + 1) mod AUDIO_BUFFER_SIZE) in
  ring_wf r1
  ∧ contents r = audioRingBuffer r !!! ringBufferReadPos r :: contents r1.
Proof.
  intros Hwf Hne r1. pose proof (available_lt r Hwf) as Ha.
  pose proof AUDIO_BUFFER_SIZE_gt1 as Hgt.
  destruct Hwf as [Hl Hw Hr].
  assert (Hav : getAvailableSamples r = S (getAvailableSamples r1)).
  { subst r1. unfold getAvailableSamples in *. simpl.
    rewrite add_mod_wrap by lia. repeat case_decide; lia. }
  split.
  - split; simpl; [done | done | by apply succ_mod_lt].
  - unfold contents. rewrite Hav. unfold slots.
    rewrite <- cons_seq, fmap_cons. f_equal.
    + rewrite Nat.add_0_r, Nat.mod_small by done. done.
    + rewrite <- fmap_S_seq, <- list_fmap_compose.
      apply list_fmap_ext. intros i k _. simpl.
      by rewrite add_mod_succ.
Qed.

Lemma contents_empty (r : Ring) :
  ringBufferReadPos r = ringBufferWritePos r → contents r = [].
Proof.
  intros Heq. unfold contents, getAvailableSamples.
  rewrite Heq. case_decide; [| lia]. by rewrite Nat.sub_diag.
Qed.

(** The copy loop returns the first [count] queued samples and leaves the
    cursor right behind them. *)
Lemma copy_loop_spec (count : nat) :
  ∀ r : Ring,
    ring_wf r →
    ∃ pos, copy_loop (audioRingBuffer r) (ringBufferWritePos r) count
                     (ringBufferReadPos r)
           = (take count (contents r), pos)
           ∧ ring_wf (set_read r pos)
           ∧ contents (set_read r pos) = drop count (contents r).
Proof.
  induction count as [| count IH]; intros r Hwf.
  - exists (ringBufferReadPos r). simpl. rewrite drop_0.
    replace (set_read r (ringBufferReadPos r)) with r by (by destruct r).
    done.
  - simpl. case_decide as Hne.
    + destruct (contents_pop r Hwf Hne) as [Hwf1 Hct].
      destruct (IH _ Hwf1) as (pos & Hrun & Hwf2 & Hct2).
      simpl in Hrun. rewrite Hrun.
      exists pos. rewrite Hct. simpl. split_and!; done.
    + assert (Heq : ringBufferReadPos r = ringBufferWritePos r).
      { destruct (decide (ringBufferReadPos r = ringBufferWritePos r));
          [done | by destruct Hne]. }
      exists (ringBufferReadPos r).
      replace (set_read r (ringBufferReadPos r)) with r by (by destruct r).
      rewrite contents_empty by done. done.
Qed.

Lemma contents_length (r : Ring) :
  length (contents r) = getAvailableSamples r.
Proof. unfold contents, slots. by rewrite length_fmap, length_seq. Qed.

(** *** The three entry points, with the mutex free *)

Lemma writeToRingBuffer_spec (r : Ring) (samples : list Z) :
  ring_wf r → audioMutex r = SemFree →
  let k := length samples `min`
           (AUDIO_BUFFER_SIZE - 1 - getAvailableSamples r) in
  ∃ r', writeToRingBuffer r samples = (k, r')
        ∧ ring_wf r' ∧ audioMutex r' = SemFree
        ∧ ringBufferReadPos r' = ringBufferReadPos r
        ∧ getAvailableSamples r' = getAvailableSamples r + k
        ∧ contents r' = contents r ++ take k samples.
Proof.
  intros Hwf Hfree k. unfold writeToRingBuffer. rewrite Hfree. simpl.
  destruct (write_loop_spec samples (set_mutex r SemHeld) 0
              (set_mutex_wf r SemHeld Hwf))
    as (r' & Hrun & Hwf' & Hrd & _ & Hav & Hct).
  unfold set_mutex in Hrun at 1. rewrite Hrun.
  exists (set_mutex r' SemFree). split_and!; try done.
  by apply set_mutex_wf.
Qed.

Lemma readFromRingBuffer_spec (r : Ring) (count : nat) :
  ring_wf r → audioMutex r = SemFree →
  ∃ r', readFromRingBuffer r count = (take count (contents r), r')
        ∧ ring_wf r' ∧ audioMutex r' = SemFree
        ∧ contents r' = drop count (contents r).
Proof.
  intros Hwf Hfree. unfold readFromRingBuffer. rewrite Hfree. simpl.
  destruct (copy_loop_spec count r Hwf) as (pos & Hrun & Hwf' & Hct).
  rewrite Hrun.
  exists (set_mutex (set_read r pos) SemFree). split_and!; try done.
  by apply set_mutex_wf.
Qed.

Lemma peekRingBuffer_spec (r : Ring) (count : nat) :
  ring_wf r → audioMutex r = SemFree →
  peekRingBuffer r count = (take count (contents r), r).
Proof.
  intros Hwf Hfree. unfold peekRingBuffer. rewrite Hfree. simpl.
  destruct (copy_loop_spec count r Hwf) as (pos & Hrun & _).
  rewrite Hrun. f_equal. destruct r; simpl in *. by subst.
Qed.

(** A call that finds the mutex held returns nothing and changes nothing. *)
Lemma ring_step_held (r : Ring) (op : RingOp) :
  audioMutex r = SemHeld → (ring_step r op).2 = r.
Proof.
  intros Hheld. destruct op; simpl;
    unfold writeToRingBuffer, readFromRingBuffer, peekRingBuffer;
    by rewrite Hheld.
Qed.

Lemma ring_step_wf (r : Ring) (op : RingOp) :
  ring_wf r → ring_wf (ring_step r op).2.
Proof.
  intros Hwf. destruct (audioMutex r) eqn:Hm;
    [| by rewrite ring_step_held].
  destruct op as [samples | count | count]; simpl.
  - destruct (writeToRingBuffer_spec r samples Hwf Hm)
      as (r' & -> & Hwf' & _). done.
  - destruct (readFromRingBuffer_spec r count Hwf Hm)
      as (r' & -> & Hwf' & _). done.
  - by rewrite peekRingBuffer_spec.
Qed.

Lemma ring_run_wf (ops : list RingOp) :
  ∀ r, ring_wf r → ring_wf (ring_run r ops).2.
Proof.
  induction ops as [| op ops IH]; intros r Hwf; [done |].
  simpl. pose proof (ring_step_wf r op Hwf) as Hstep.
  destruct (ring_step r op) as [o r1].
  specialize (IH r1 Hstep). by destruct (ring_run r1 ops).
Qed.

(** One operation of the ring behaves like the same operation of the
    queue, as long as the queue stays below the capacity. *)
Lemma ring_step_simulates (r : Ring) (op : RingOp) :
  ring_wf r → audioMutex r = SemFree →
  length (fifo_step (contents r) op).2 < AUDIO_BUFFER_SIZE →
  ∃ r', ring_step r op = ((fifo_step (contents r) op).1, r')
        ∧ ring_wf r' ∧ audioMutex r' = SemFree
        ∧ contents r' = (fifo_step (contents r) op).2.
Proof.
  intros Hwf Hfree Hfit. destruct op as [samples | count | count]; simpl in *.
  - rewrite length_app, contents_length in Hfit.
    destruct (writeToRingBuffer_spec r samples Hwf Hfree)
      as (r' & Hrun & Hwf' & Hfree' & _ & _ & Hct).
    rewrite Nat.min_l in Hrun, Hct by lia.
    rewrite firstn_all in Hct. rewrite Hrun. by exists r'.
  - destruct (readFromRingBuffer_spec r count Hwf Hfree)
      as (r' & Hrun & Hwf' & Hfree' & Hct).
    rewrite Hrun. by exists r'.
  - rewrite peekRingBuffer_spec by done. by exists r.
Qed.

Lemma ring_refines_fifo (ops : list RingOp) :
  ∀ r, ring_wf r → audioMutex r = SemFree →
       below_capacity (contents r) ops = true →
       (ring_run r ops).1 = (fifo_run (contents r) ops).1.
Proof.
  induction ops as [| op ops IH]; intros r Hwf Hfree Hcap; [done |].
  simpl in Hcap. apply andb_true_iff in Hcap as [Hfit Hcap].
  apply bool_decide_eq_true in Hfit.
  destruct (ring_step_simulates r op Hwf Hfree Hfit)
    as (r' & Hstep & Hwf' & Hfree' & Hct).
  simpl. rewrite Hstep.
  destruct (fifo_step (contents r) op) as [o q1]. simpl in *.
  rewrite <- Hct in Hcap. specialize (IH r' Hwf' Hfree' Hcap).
  rewrite Hct in IH.
  destruct (ring_run r' ops), (fifo_run q1 ops). simpl in *. by f_equal.
Qed.

(** Writing [n] samples into an empty ring and reading [n] back returns
    them, provided they fit. *)
Lemma write_then_read (r : Ring) (samples : list Z) :
  ring_wf r → audioMutex r = SemFree → contents r = [] →
  length samples < AUDIO_BUFFER_SIZE →
  ∃ r1 r2, writeToRingBuffer r samples = (length samples, r1)
           ∧ readFromRingBuffer r1 (length samples) = (samples, r2).
Proof.
  intros Hwf Hfree Hempty Hlen.
  pose proof (contents_length r) as Hav. rewrite Hempty in Hav. simpl in Hav.
  destruct (writeToRingBuffer_spec r samples Hwf Hfree)
    as (r1 & Hw & Hwf1 & Hfree1 & _ & _ & Hct).
  rewrite Nat.min_l in Hw, Hct by lia.
  rewrite Hempty, firstn_all in Hct. simpl in Hct.
  destruct (readFromRingBuffer_spec r1 (length samples) Hwf1 Hfree1)
    as (r2 & Hr & _).
  rewrite Hct, firstn_all in Hr. by exists r1, r2.
Qed.

(** *** The claims about the ring *)

(** C1. For every sequence of ring writes and reads (and peeks) during which
    the number of buffered samples stays below the capacity, every call
    returns what a first-in first-out queue returns: writes store all their
    samples, reads hand back exactly the samples written before, in write
    order, none twice and none missing. *)
Theorem ring_fifo_roundtrip (ops : list RingOp) :
  below_capacity [] ops = true →
  (ring_run ring_init ops).1 = (fifo_run [] ops).1.
Proof.
  intros Hcap.
  apply (ring_refines_fifo ops ring_init ring_init_wf eq_refl).
  by rewrite contents_empty.
Qed.

Lemma ring_fifo_roundtrip_witness :
  (ring_run ring_init
     [OpWrite [11; 22; 33]%Z; OpRead 2; OpWrite [44%Z]; OpRead 5]).1
  = [Written 3; Samples [11; 22]; Written 1; Samples [33; 44]]%Z.
Proof.
  rewrite ring_fifo_roundtrip.
  - reflexivity.
  - vm_compute. reflexivity.
Defined.

(** C3 as stated fails.  On a full ring [writeToRingBuffer] leaves the whole
    state as it was, so nothing that could serve as an overrun counter is
    incremented; and the ring that does count overruns, the one of
    [audioProcessTask], overwrites the oldest unread sample instead of
    dropping the incoming one. *)
Lemma full_write_counts_no_overrun :
  (getAvailableSamples ring_full_example = AUDIO_BUFFER_SIZE - 1
   ∧ ¬ ∃ overruns : Ring → nat,
         overruns (writeToRingBuffer ring_full_example [7%Z]).2
         = S (overruns ring_full_example))
  ∧ (let a := WebrtcFirmware.audio_ring_full_example in
     let a' := WebrtcFirmware.ring_store a 7%Z in
     WebrtcFirmware.ringBuffer a !! WebrtcFirmware.ringReadPos a = Some 0%Z
     ∧ WebrtcFirmware.ringBuffer a' !! WebrtcFirmware.ringReadPos a
       = Some 7%Z
     ∧ WebrtcFirmware.bufferOverruns a' = 1%Z).
Proof.
  split; [split |].
  - vm_compute. reflexivity.
  - intros [overruns Hinc].
    assert (Hsame : (writeToRingBuffer ring_full_example [7%Z]).2
                    = ring_full_example) by (vm_compute; reflexivity).
    rewrite Hsame in Hinc. lia.
  - vm_compute. done.
Qed.

(** C3, amended.  A [writeToRingBuffer] on a full ring stores nothing and
    returns 0: the incoming samples are dropped, and the buffer, both
    cursors and the mutex are exactly as before, so no buffered sample is
    overwritten. *)
Theorem full_write_drops_incoming (r : Ring) (samples : list Z) :
  ring_wf r → getAvailableSamples r = AUDIO_BUFFER_SIZE - 1 →
  writeToRingBuffer r samples = (0, r).
Proof.
  intros Hwf Hfull. unfold writeToRingBuffer.
  destruct (audioMutex r) eqn:Hm; simpl; [| done].
  pose proof (write_loop_full samples (set_mutex r SemHeld) 0
                (set_mutex_wf r SemHeld Hwf) Hfull) as Hrun.
  unfold set_mutex in Hrun. rewrite Hrun. simpl.
  f_equal. destruct r. simpl in Hm. by subst.
Qed.

Lemma full_write_drops_incoming_witness :
  writeToRingBuffer ring_full_example [5; 6; 7]%Z = (0, ring_full_example).
Proof.
  apply full_write_drops_incoming.
  - split.
    + vm_compute. reflexivity.
    + apply Nat.ltb_lt. vm_compute. reflexivity.
    + apply Nat.ltb_lt. vm_compute. reflexivity.
  - vm_compute. reflexivity.
Defined.

(** C7. A peek changes nothing: the ring after [peekRingBuffer] is the ring
    before it (buffer, write cursor, read cursor, mutex), a destructive
    read issued next returns the very samples the peek returned, and on a
    well-formed ring those are the oldest [count] buffered samples, the
    ones that start at the read cursor. *)
Theorem peek_nondestructive (r : Ring) (count : nat) :
  (peekRingBuffer r count).2 = r
  ∧ (readFromRingBuffer (peekRingBuffer r count).2 count).1
    = (peekRingBuffer r count).1
  ∧ (ring_wf r → audioMutex r = SemFree →
     (peekRingBuffer r count).1 = take count (contents r)).
Proof.
  assert (Hsame : (peekRingBuffer r count).2 = r).
  { unfold peekRingBuffer. destruct (audioMutex r) eqn:Hm; simpl; [| done].
    destruct (copy_loop _ _ _ _). destruct r. simpl in *. by subst. }
  split_and!.
  - done.
  - rewrite Hsame. unfold readFromRingBuffer, peekRingBuffer.
    destruct (audioMutex r); simpl; [| done].
    by destruct (copy_loop _ _ _ _).
  - intros Hwf Hfree. by rewrite peekRingBuffer_spec.
Qed.

Lemma peek_nondestructive_witness :
  let r := (writeToRingBuffer ring_init [10; 20; 30]%Z).2 in
  (peekRingBuffer r 2).1 = take 2 (contents r).
Proof.
  intros r.
  destruct (peek_nondestructive r 2) as (_ & _ & Hpeek).
  apply Hpeek.
  - split.
    + vm_compute. reflexivity.
    + apply Nat.ltb_lt. vm_compute. reflexivity.
    + apply Nat.ltb_lt. vm_compute. reflexivity.
  - vm_compute. reflexivity.
Defined.

(** C8. Whatever sequence of writes, reads and peeks runs from the initial
    (empty) ring, [getAvailableSamples] never reports more than
    [AUDIO_BUFFER_SIZE - 1]; one slot always stays unused, and a single
    write into the empty ring stores [AUDIO_BUFFER_SIZE - 1] samples at
    most, however many are offered. *)
Theorem available_never_exceeds :
  (∀ ops : list RingOp,
      getAvailableSamples (ring_run ring_init ops).2 ≤ AUDIO_BUFFER_SIZE - 1)
  ∧ (∀ samples : list Z,
      (writeToRingBuffer ring_init samples).1
      = length samples `min` (AUDIO_BUFFER_SIZE - 1)).
Proof.
  split.
  - intros ops.
    pose proof (available_lt _ (ring_run_wf ops ring_init ring_init_wf)).
    lia.
  - intros samples.
    destruct (writeToRingBuffer_spec ring_init samples ring_init_wf eq_refl)
      as (r' & Hrun & _).
    rewrite Hrun. simpl.
    pose proof (contents_length ring_init) as Hlen.
    rewrite contents_empty in Hlen by done. simpl in Hlen.
    rewrite <- Hlen. by rewrite Nat.sub_0_r.
Qed.

End SampleRingFacts.

(** ** Facts about the ring of [audioProcessTask] *)

Section WebrtcRingFacts.
Import WebrtcFirmware.

(** On a full ring the incoming sample is stored all the same; the read
    cursor gives way and the overrun is counted. *)
Lemma ring_store_full (a : AudioRing) (sample : Z) :
  ringAvailable a = RING_BUFFER_SIZE →
  ring_store a sample
  = mkAudioRing (<[ringWritePos a := sample]> (ringBuffer a))
                ((ringWritePos a + 1) mod RING_BUFFER_SIZE)
                ((ringReadPos a + 1) mod RING_BUFFER_SIZE)
                (ringAvailable a)
                (uint32_wrap (bufferOverruns a + 1)).
Proof.
  intros Hfull. unfold ring_store. case_decide; [lia | done].
Qed.

(** Below the capacity nothing is counted. *)
Lemma ring_store_room (a : AudioRing) (sample : Z) :
  ringAvailable a < RING_BUFFER_SIZE →
  bufferOverruns (ring_store a sample) = bufferOverruns a
  ∧ ringReadPos (ring_store a sample) = ringReadPos a
  ∧ ringAvailable (ring_store a sample) = ringAvailable a + 1.
Proof.
  intros Hroom. unfold ring_store. case_decide; [done | lia].
Qed.

End WebrtcRingFacts.

(** ** Facts about the noise gate *)

Section NoiseGateFacts.
Import Float Preprocess.

Lemma uint32_wrap_succ (a : Z) :
  (0 ≤ a < 2 ^ 32 - 1)%Z → uint32_wrap (a + 1) = (a + 1)%Z.
Proof. intros Ha. unfold uint32_wrap. apply Z.mod_small. lia. Qed.

(** What does hold: a sample at or above the threshold is left alone and is
    not counted. *)
Lemma noiseGate_sample_above (cfg : PreprocessConfig) (s : float) (a : Z) :
  flt (fabsf s) (noise_gate_threshold cfg) = false →
  noiseGate_sample cfg s a = (s, a).
Proof. intros Hlvl. unfold noiseGate_sample. by rewrite Hlvl. Qed.

(** What does hold: every sample under the threshold is counted once. *)
Lemma noiseGate_sample_counts (cfg : PreprocessConfig) (s : float) (a : Z) :
  flt (fabsf s) (noise_gate_threshold cfg) = true →
  (noiseGate_sample cfg s a).2 = uint32_wrap (a + 1).
Proof. intros Hlvl. unfold noiseGate_sample. by rewrite Hlvl. Qed.

(** Below the knee [softKneeCompress] is the identity, so the gate applies
    the gain [level / level]: the sample keeps its value. *)
Lemma noiseGate_sample_below_knee (cfg : PreprocessConfig) (s : float) (a : Z) :
  flt (fabsf s) (noise_gate_threshold cfg) = true →
  fle (fabsf s)
      (fsub (noise_gate_threshold cfg) (fdiv DEFAULT_KNEE_WIDTH (flit 2)))
  = true →
  flt (flit 0.0001) (fabsf s) = true →
  noiseGate_sample cfg s a = (Qred s, uint32_wrap (a + 1)).
Proof.
  intros Hlvl Hknee Hpos. unfold noiseGate_sample. rewrite Hlvl.
  unfold gate_gain, softKneeCompress. rewrite Hknee, Hpos.
  f_equal. unfold fmul, fdiv. apply Qred_complete.
  rewrite Qred_correct.
  assert (Hnz : ¬ (fabsf s == 0)%Q).
  { intros Hz. unfold flt in Hpos. apply negb_true_iff in Hpos.
    apply not_true_iff_false in Hpos. apply Hpos.
    apply Qle_bool_iff. rewrite Hz. by vm_compute. }
  unfold Qdiv. rewrite Qmult_inv_r by done. apply Qmult_1_r.
Qed.

(** C5 fails on the code.  With threshold 0.5 and ratio 2, a sample of level
    0.25, which lies below threshold - knee/2 = 0.45, leaves the gate with
    its value unchanged instead of compressed; a sample of level 0.48, inside
    the knee, leaves it louder than it came; and with the default
    configuration (threshold 0.001, ratio 10) a sample of level 0.0005 is
    amplified as well.  Each of them increments the activation counter. *)
Theorem noise_gate_low_level_not_compressed :
  softKneeCompress (flit 0.25) (flit 0.5) (flit 2) DEFAULT_KNEE_WIDTH
  = flit 0.25
  ∧ noiseGate half_scale_config [flit 0.25] 0 = ([flit 0.25], 1%Z)
  ∧ (∃ y, noiseGate half_scale_config [flit 0.48] 0 = ([y], 1%Z)
          ∧ flt (flit 0.48) y = true)
  ∧ (∃ y, noiseGate default_config [flit 0.0005] 0 = ([y], 1%Z)
          ∧ flt (flit 0.0005) y = true).
Proof.
  split_and!.
  - vm_compute. reflexivity.
  - vm_compute. reflexivity.
  - eexists. split; vm_compute; reflexivity.
  - eexists. split; vm_compute; reflexivity.
Qed.

End NoiseGateFacts.

(** ** Facts about sorting *)

Section SortFacts.
Import Float.

#[local] Instance Qle_transitive : Transitive Qle.
Proof. intros x y z. apply Qle_trans. Qed.

Lemma fle_true (a b : float) : fle a b = true ↔ (a <= b)%Q.
Proof. apply Qle_bool_iff. Qed.

Lemma fle_false (a b : float) : fle a b = false → (b <= a)%Q.
Proof.
  intros Hf. destruct (Qlt_le_dec b a) as [Hlt | Hle].
  - by apply Qlt_le_weak.
  - apply fle_true in Hle. congruence.
Qed.

Lemma canonical_antisym (a b : float) :
  canonical a → canonical b → (a <= b)%Q → (b <= a)%Q → a = b.
Proof.
  unfold canonical. intros Ha Hb Hab Hba.
  rewrite <- Ha, <- Hb. apply Qred_complete. by apply Qle_antisym.
Qed.

Lemma sort_insert_Permutation (x : float) (l : list float) :
  sort_insert x l ≡ₚ x :: l.
Proof.
  induction l as [| y l IH]; simpl; [done |].
  destruct (fle x y); [done |].
  rewrite IH. apply Permutation_swap.
Qed.

Lemma std_sort_Permutation (l : list float) : std_sort l ≡ₚ l.
Proof.
  induction l as [| x l IH]; simpl; [done |].
  rewrite sort_insert_Permutation. by rewrite IH.
Qed.

Lemma std_sort_length (l : list float) : length (std_sort l) = length l.
Proof. apply Permutation_length, std_sort_Permutation. Qed.

Lemma sort_insert_HdRel (y x : float) (l : list float) :
  (y <= x)%Q → HdRel Qle y l → HdRel Qle y (sort_insert x l).
Proof.
  intros Hyx Hhd. destruct l as [| z l]; simpl.
  - by constructor.
  - destruct (fle x z); constructor; [done |]. by inversion Hhd.
Qed.

Lemma sort_insert_Sorted (x : float) (l : list float) :
  Sorted Qle l → Sorted Qle (sort_insert x l).
Proof.
  induction l as [| y l IH]; intros Hs; simpl.
  - by repeat constructor.
  - destruct (fle x y) eqn:Hxy.
    + constructor; [done |]. constructor. by apply fle_true.
    + inversion Hs as [| ? ? Hs' Hhd]; subst.
      constructor; [by apply IH |].
      apply sort_insert_HdRel; [by apply fle_false | done].
Qed.

Lemma std_sort_Sorted (l : list float) : Sorted Qle (std_sort l).
Proof.
  induction l as [| x l IH]; simpl; [constructor |].
  by apply sort_insert_Sorted.
Qed.

(** Sorting any arrangement of a sorted list of values in lowest terms
    gives that list back. *)
Lemma std_sort_unique (l target : list float) :
  Forall canonical target → Sorted Qle target → l ≡ₚ target →
  std_sort l = target.
Proof.
  intros Hcan Hsorted Hperm.
  apply (Sorted_unique_strong Qle).
  - intros x1 x2 Hx1 Hx2. rewrite Forall_forall in Hcan.
    apply canonical_antisym; apply Hcan; [| done].
    by rewrite <- Hperm, <- (std_sort_Permutation l).
  - apply std_sort_Sorted.
  - done.
  - by rewrite std_sort_Permutation.
Qed.

(** The result of sorting depends on the values only, not on their
    arrangement. *)
Lemma std_sort_perm_invariant (l1 l2 : list float) :
  Forall canonical l2 → l1 ≡ₚ l2 → std_sort l1 = std_sort l2.
Proof.
  intros Hcan Hperm. apply std_sort_unique.
  - by rewrite std_sort_Permutation.
  - apply std_sort_Sorted.
  - by rewrite std_sort_Permutation.
Qed.

End SortFacts.

(** ** Facts about the temporal filter *)

Section TemporalFilterFacts.
Import Float BarkDetector.

Lemma foldl_insert_length {A} (f : nat → A) (idxs : list nat) (c : list A) :
  length (foldl (λ c j, <[j := f j]> c) c idxs) = length c.
Proof.
  revert c. induction idxs as [| j idxs IH]; intros c; simpl; [done |].
  by rewrite IH, length_insert.
Qed.

Lemma foldl_insert_lookup {A} (f : nat → A) (idxs : list nat) (c : list A)
    (i : nat) :
  i ∈ idxs → i < length c →
  foldl (λ c j, <[j := f j]> c) c idxs !! i = Some (f i).
Proof.
  revert c. induction idxs as [| j idxs IH] using rev_ind; intros c Hin Hlt.
  - by apply elem_of_nil in Hin.
  - rewrite foldl_app. simpl. destruct (decide (j = i)) as [-> | Hne].
    + apply list_lookup_insert_eq. by rewrite foldl_insert_length.
    + rewrite list_lookup_insert_ne by done. apply IH; [| done].
      apply elem_of_app in Hin as [Hin | Hin]; [done |].
      apply list_elem_of_singleton in Hin. congruence.
Qed.

Lemma ema_loop_length (alpha : float) (idxs : list nat)
    (acc : list float * list float) :
  length (foldl (ema_update alpha) acc idxs).2 = length acc.2.
Proof.
  revert acc. induction idxs as [| j idxs IH]; intros [ema confs]; [done |].
  simpl. rewrite IH. simpl. apply length_insert.
Qed.

(** The copy loop of the median computation fills the first [count] slots
    of [values] with the history of the class. *)
Lemma median_copy_take (values buf : list float) (num_classes i : nat) :
  ∀ count, count ≤ length values →
    take count (foldl (λ v j, <[j := buf !!! (j * num_classes + i)]> v)
                      values (seq 0 count))
    = history_column buf num_classes i count.
Proof.
  induction count as [| count IH]; intros Hle.
  - by rewrite take_0.
  - rewrite seq_S, foldl_app. simpl. unfold history_column.
    rewrite seq_S, fmap_app. simpl.
    erewrite take_S_r.
    + rewrite take_insert_ge by done. rewrite IH by lia. done.
    + apply list_lookup_insert_eq.
      rewrite (foldl_insert_length
                 (λ j, buf !!! (j * num_classes + i))). lia.
Qed.

Lemma history_column_length (buf : list float) (num_classes i count : nat) :
  length (history_column buf num_classes i count) = count.
Proof. unfold history_column. by rewrite length_fmap, length_seq. Qed.

(** With at least one entry copied, the selected element is the middle one
    of the sorted history of the class. *)
Lemma median_values_select (values buf : list float)
    (num_classes i count : nat) :
  0 < count → count ≤ length values →
  median_values values buf num_classes i count !!! (count / 2)
  = std_sort (history_column buf num_classes i count) !!! (count / 2).
Proof.
  intros Hpos Hle. unfold median_values.
  rewrite median_copy_take by done.
  apply lookup_total_app_l.
  rewrite std_sort_length, history_column_length.
  apply Nat.div_lt; lia.
Qed.

(** With nothing copied, the selected element is slot 0 of [values] as it
    was on entry. *)
Lemma median_values_select_empty (values buf : list float)
    (num_classes i : nat) :
  median_values values buf num_classes i 0 !!! (0 / 2) = values !!! 0.
Proof. done. Qed.

(** The shape of the result when the median filter is enabled. *)
Lemma apply_temporal_filter_median (values_of : nat → list float) (st : Impl)
    (confidences : list float) (i : nat) :
  enable_temporal_filter (config st) = true →
  1 < median_filter_size (config st) →
  i < length confidences →
  (apply_temporal_filter values_of st confidences).1 !! i
  = Some (median_values (values_of i)
            (median_buffer (apply_temporal_filter values_of st confidences).2)
            (length confidences) i (median_count st)
          !!! (median_count st / 2)).
Proof.
  intros Hen Hsize Hi. unfold apply_temporal_filter. rewrite Hen. simpl.
  pose proof (ema_loop_length (ema_alpha (config st))
                (seq 0 (length confidences))
                (ema_confidence st, confidences)) as Hlen.
  destruct (foldl _ _ _) as [ema confidences1]. simpl in Hlen.
  case_decide; [| lia]. simpl.
  apply (foldl_insert_lookup
           (λ i, median_values (values_of i) _ (length confidences) i
                   (median_count st) !!! (median_count st / 2))).
  - apply elem_of_seq. lia.
  - lia.
Qed.

Lemma median_count_window (st : Impl) :
  (Z.of_nat (median_filter_size (config st)) ≤ total_inferences (stats st))%Z →
  median_count st = median_filter_size (config st).
Proof. intros Hge. unfold median_count. lia. Qed.

(** The middle index lies among the copied entries exactly when at least
    one entry was copied. *)
Lemma median_index_in_range (st : Impl) :
  median_count st / 2 < median_count st ↔ 0 < median_count st.
Proof.
  split; intros H; [lia |]. apply Nat.div_lt; lia.
Qed.

Lemma apply_temporal_filter_length (values_of : nat → list float)
    (st : Impl) (confidences : list float) :
  length (apply_temporal_filter values_of st confidences).1
  = length confidences.
Proof.
  unfold apply_temporal_filter.
  destruct (enable_temporal_filter (config st)); simpl; [| done].
  pose proof (ema_loop_length (ema_alpha (config st))
                (seq 0 (length confidences))
                (ema_confidence st, confidences)) as Hlen.
  destruct (foldl _ _ _) as [ema confidences1]. simpl in Hlen.
  case_decide; simpl; [| done].
  by rewrite (foldl_insert_length
                (λ i, median_values (values_of i) _ (length confidences) i
                        (median_count st) !!! (median_count st / 2))).
Qed.

(** Whenever the filter runs before any inference has been counted, every
    class is assigned slot 0 of its uninitialised [values] array. *)
Lemma apply_temporal_filter_first_cycle (values_of : nat → list float)
    (st : Impl) (confidences : list float) :
  enable_temporal_filter (config st) = true →
  1 < median_filter_size (config st) →
  total_inferences (stats st) = 0%Z →
  (apply_temporal_filter values_of st confidences).1
  = (λ i, values_of i !!! 0) <$> seq 0 (length confidences).
Proof.
  intros Hen Hsize Hzero. apply list_eq. intros i.
  destruct (decide (i < length confidences)) as [Hi | Hi].
  - rewrite apply_temporal_filter_median by done.
    assert (Hcount : median_count st = 0)
      by (unfold median_count; rewrite Hzero; simpl; lia).
    rewrite Hcount, median_values_select_empty.
    rewrite list_lookup_fmap, lookup_seq_lt by done. done.
  - rewrite !lookup_ge_None_2; [done | |].
    + rewrite length_fmap, length_seq. lia.
    + rewrite apply_temporal_filter_length. lia.
Qed.

(** C4. With a window of five and at least five cycles processed, a class
    whose history holds 0.1, 0.9, 0.2, 0.8 and 0.3 (in whatever slots) leaves
    the temporal filter with confidence 0.3, the middle element of the
    sorted window. *)
Theorem median_of_five_picks_middle (values_of : nat → list float)
    (st : Impl) (confidences : list float) (i : nat) :
  enable_temporal_filter (config st) = true →
  median_filter_size (config st) = 5 →
  (5 ≤ total_inferences (stats st))%Z →
  i < length confidences →
  length (values_of i) = MAX_MEDIAN_FILTER_SIZE →
  history_column
    (median_buffer (apply_temporal_filter values_of st confidences).2)
    (length confidences) i 5
  ≡ₚ [flit 0.1; flit 0.9; flit 0.2; flit 0.8; flit 0.3] →
  (apply_temporal_filter values_of st confidences).1 !! i = Some (flit 0.3).
Proof.
  intros Hen Hsize Htotal Hi Hvalues Hhist.
  rewrite apply_temporal_filter_median by (done || lia).
  rewrite median_count_window by (rewrite Hsize; lia).
  rewrite Hsize. f_equal.
  rewrite median_values_select by (rewrite ?Hvalues; unfold MAX_MEDIAN_FILTER_SIZE; lia).
  assert (Hcan : Forall canonical
                   [flit 0.1; flit 0.9; flit 0.2; flit 0.8; flit 0.3])
    by (repeat constructor).
  rewrite (std_sort_perm_invariant _ _ Hcan Hhist).
  vm_compute. reflexivity.
Qed.

(** C10 fails on the code.  [stats.total_inferences] is incremented only
    after the filter has run, so on the first classification cycle
    [count] is 0: nothing is copied into [values], the selection index
    [count / 2 = 0] is not below [count], and every class receives whatever
    slot 0 of the uninitialised array held. *)
Theorem median_first_cycle_reads_uninitialised (values_of : nat → list float) :
  median_count fresh_detector = 0
  ∧ (median_count fresh_detector / 2 <? median_count fresh_detector) = false
  ∧ (apply_temporal_filter values_of fresh_detector
       [flit 0.9; flit 0.05; flit 0.03; flit 0.02]).1
    = [values_of 0 !!! 0; values_of 1 !!! 0;
       values_of 2 !!! 0; values_of 3 !!! 0].
Proof.
  split_and!.
  - vm_compute. reflexivity.
  - vm_compute. reflexivity.
  - vm_compute. reflexivity.
Qed.

End TemporalFilterFacts.

Lemma median_of_five_picks_middle_witness :
  (BarkDetector.apply_temporal_filter
     (λ _, replicate 10 (Float.flit 0)) BarkDetector.window5_detector
     [Float.flit 0.3; Float.flit 0.6]).1 !! 0
  = Some (Float.flit 0.3).
Proof.
  apply median_of_five_picks_middle.
  - reflexivity.
  - reflexivity.
  - vm_compute. discriminate.
  - simpl. lia.
  - reflexivity.
  - vm_compute. reflexivity.
Defined.

(** ** Facts about feature extraction and the entry point *)

Section DetectorFacts.
Import Float BarkDetector.

Variable sqrtf : float → float.
Variable log10f : float → float.
Variable mel_frame : list Z → nat → nat → list float.
Variable Invoke : list float → option (list float).

(** Without overflow the [size_t] computation of the required number of
    samples is the mathematical one; this includes [time_frames = 0], where
    the intermediate [time_frames - 1] wraps. *)
Lemma required_samples_exact (st : Impl) :
  (0 ≤ time_frames st)%Z →
  ((time_frames st - 1) * HOP_LENGTH + FFT_SIZE < 2 ^ 32)%Z →
  required_samples st = ((time_frames st - 1) * HOP_LENGTH + FFT_SIZE)%Z.
Proof.
  intros Hnn Hfit. unfold required_samples, size_t_wrap.
  rewrite Zmult_mod_idemp_l, Zplus_mod_idemp_l.
  apply Z.mod_small. unfold HOP_LENGTH, FFT_SIZE in *. lia.
Qed.

(** C6. Called with fewer samples than
    [(time_frames - 1) * HOP_LENGTH + FFT_SIZE] (a count that fits [size_t]),
    [extract_mel_spectrogram] returns [false], the failure it logs as
    "Insufficient samples", and the output matrix it was given comes back
    element for element. *)
Theorem extract_insufficient_samples (st : Impl) (audio_samples : list Z)
    (output_features : list float) :
  (0 ≤ time_frames st)%Z →
  ((time_frames st - 1) * HOP_LENGTH + FFT_SIZE < 2 ^ 32)%Z →
  (Z.of_nat (length audio_samples)
   < (time_frames st - 1) * HOP_LENGTH + FFT_SIZE)%Z →
  extract_mel_spectrogram mel_frame st audio_samples output_features
  = (false, output_features).
Proof.
  intros Hnn Hfit Hshort. unfold extract_mel_spectrogram.
  destruct (initialized st); simpl; [| done].
  rewrite required_samples_exact by done.
  apply Z.ltb_lt in Hshort. by rewrite Hshort.
Qed.

(** The same through the public [extract_features]. *)
Lemma extract_features_insufficient_samples (st : Impl)
    (audio_samples : list Z) (features : list float) (feature_size : Z) :
  (0 ≤ time_frames st)%Z →
  ((time_frames st - 1) * HOP_LENGTH + FFT_SIZE < 2 ^ 32)%Z →
  (Z.of_nat (length audio_samples)
   < (time_frames st - 1) * HOP_LENGTH + FFT_SIZE)%Z →
  extract_features mel_frame st audio_samples features feature_size
  = (false, features).
Proof.
  intros Hnn Hfit Hshort. unfold extract_features. case_decide; [done |].
  unfold extract_mel_spectrogram.
  destruct (initialized st); simpl; [| done].
  rewrite required_samples_exact by done.
  apply Z.ltb_lt in Hshort. by rewrite Hshort.
Qed.

(** C9. A call of [process] with a sample rate other than 16000 returns
    class UNKNOWN, confidence 0.0 and [is_bark = false], and the detector
    is exactly as before: EMA values, median history, statistics, tensors
    and the count of interpreter invocations are unchanged, so no inference
    ran. *)
Theorem process_rejects_sample_rate (env : CallEnv) (st : Impl)
    (audio_samples : list Z) (sample_rate : Z) :
  sample_rate ≠ SAMPLE_RATE →
  let '(result, st') :=
    process sqrtf log10f mel_frame Invoke env st audio_samples sample_rate in
  detected_class result = UNKNOWN
  ∧ confidence result = flit 0
  ∧ is_bark result = false
  ∧ st' = st.
Proof.
  intros Hrate. unfold process. case_decide; [| done]. done.
Qed.

(** The first inference of a detector reaches the filter with
    [stats.total_inferences = 0]: the confidences left in the output tensor,
    from which the result is chosen, are slot 0 of the uninitialised
    [values] array of each class. *)
Lemma first_inference_uses_stack (env : CallEnv) (st : Impl)
    (audio_samples : list Z) (features output : list float) :
  initialized st = true →
  enable_temporal_filter (config st) = true →
  1 < median_filter_size (config st) →
  total_inferences (stats st) = 0%Z →
  alloc_ok env = true →
  apply_noise_gate sqrtf log10f
    (apply_agc sqrtf audio_samples (agc_target_level (config st)))
    (noise_gate_threshold (config st)) = true →
  extract_mel_spectrogram mel_frame st
    (apply_agc sqrtf audio_samples (agc_target_level (config st)))
    (input_tensor st) = (true, features) →
  Invoke features = Some output →
  output_tensor
    (run_inference sqrtf log10f mel_frame Invoke env st audio_samples).2
  = (λ i, stack_values env i !!! 0) <$> seq 0 (length output).
Proof.
  intros Hinit Hen Hsize Hzero Halloc Hgate Hextract Hinvoke.
  unfold run_inference.
  rewrite Hinit, Halloc, Hgate, Hextract.
  cbn [negb input_tensor set_stats set_input_tensor].
  rewrite Hinvoke.
  match goal with
  | |- context [apply_temporal_filter ?v ?st3 ?o] =>
      pose proof (apply_temporal_filter_first_cycle v st3 o Hen Hsize Hzero)
        as Hfilter;
      destruct (apply_temporal_filter v st3 o) as [filtered st4]
  end.
  simpl in Hfilter. subst filtered.
  by destruct (foldl _ _ _).
Qed.

(** A first call of this kind exists: the run above on [fresh_detector]. *)
Lemma fresh_detector_first_cycle :
  initialized fresh_detector = true
  ∧ enable_temporal_filter (config fresh_detector) = true
  ∧ 1 < median_filter_size (config fresh_detector)
  ∧ total_inferences (stats fresh_detector) = 0%Z.
Proof. split_and!; [done | done | simpl; lia | done]. Qed.

End DetectorFacts.

Lemma extract_insufficient_samples_witness :
  BarkDetector.extract_mel_spectrogram
    (λ _ _ bands, replicate bands (Float.flit 1))
    BarkDetector.fresh_detector (replicate 100 0%Z)
    [Float.flit 0.5; Float.flit 0.25]
  = (false, [Float.flit 0.5; Float.flit 0.25]).
Proof.
  apply extract_insufficient_samples.
  - vm_compute. discriminate.
  - vm_compute. reflexivity.
  - vm_compute. reflexivity.
Defined.

Lemma process_rejects_sample_rate_witness :
  let '(result, st') :=
    BarkDetector.process (λ x, x) (λ x, x)
      (λ _ _ bands, replicate bands (Float.flit 1)) (λ _, None)
      (BarkDetector.mkCallEnv true 0 0 0 0 0 (λ _, []))
      BarkDetector.fresh_detector [1; 2; 3]%Z 8000%Z in
  BarkDetector.detected_class result = BarkDetector.UNKNOWN
  ∧ BarkDetector.confidence result = Float.flit 0
  ∧ BarkDetector.is_bark result = false
  ∧ st' = BarkDetector.fresh_detector.
Proof.
  apply (process_rejects_sample_rate (λ x, x) (λ x, x)
           (λ _ _ bands, replicate bands (Float.flit 1)) (λ _, None)
           (BarkDetector.mkCallEnv true 0 0 0 0 0 (λ _, []))
           BarkDetector.fresh_detector [1; 2; 3]%Z 8000%Z).
  vm_compute. discriminate.
Defined.

(** ** Facts about the decision state machine *)

Section DecisionFacts.
Import Float TemporalDecision.

Variable cfg : Config.

Lemma run_app (st : DetectionState) (l1 l2 : list Cycle) :
  run cfg st (l1 ++ l2)
  = ((run cfg st l1).1 ++ (run cfg (run cfg st l1).2 l2).1,
     (run cfg (run cfg st l1).2 l2).2).
Proof.
  revert st. induction l1 as [| c l1 IH]; intros st; simpl.
  - by destruct (run cfg st l2).
  - destruct (step cfg st c) as [st1 ev]. rewrite IH.
    destruct (run cfg st1 l1) as [evs1 st2]. simpl.
    destruct (run cfg st2 l2) as [evs2 st3]. simpl.
    by destruct ev.
Qed.

Lemma last_time_cons (c : Cycle) (l : list Cycle) :
  l ≠ [] → last_time (c :: l) = last_time l.
Proof. intros Hne. unfold last_time. destruct l; [done |]. done. Qed.

(** A step taken in [Confirmed] emits nothing; it stays in [Confirmed]
    unless the confidence is below the threshold and the last qualifying
    cycle lies more than the debounce interval back. *)
Lemma confirmed_step (st : DetectionState) (c : Cycle) :
  event_state st = Confirmed →
  (step cfg st c).2 = None
  ∧ (event_state (step cfg st c).1 = Confirmed
     ∨ (event_state (step cfg st c).1 = Idle
        ∧ qualifies cfg c = false
        ∧ (debounce_ms cfg < cycle_time c - last_activity st)%Z)).
Proof.
  intros Hst. unfold step. rewrite Hst.
  destruct (qualifies cfg c); simpl; [by auto |].
  destruct (Z.ltb_spec (debounce_ms cfg) (cycle_time c - last_activity st));
    simpl; [by auto | by auto].
Qed.

(** Further crossings of the threshold while in [Confirmed] are absorbed. *)
Lemma confirmed_burst (l : list Cycle) :
  ∀ st, event_state st = Confirmed → forallb (qualifies cfg) l = true →
        (run cfg st l).1 = []
        ∧ event_state (run cfg st l).2 = Confirmed
        ∧ start_time (run cfg st l).2 = start_time st
        ∧ (l ≠ [] → last_activity (run cfg st l).2 = last_time l).
Proof.
  induction l as [| c l IH]; intros st Hst Hq; [done |].
  simpl in Hq. apply andb_true_iff in Hq as [Hc Hq].
  simpl. unfold step. rewrite Hst, Hc.
  destruct (IH (mkDetectionState Confirmed (start_time st) (cycle_time c))
               eq_refl Hq) as (Hev & Hstate & Hstart & Hlast).
  destruct l as [| c' l']; [done |].
  rewrite (last_time_cons c) by done.
  destruct (run cfg _ (c' :: l')) as [evs st2]. simpl in *.
  split_and!; try done. intros _. by apply Hlast.
Qed.

(** A pause shorter than the debounce interval changes nothing. *)
Lemma short_pause_stays (l : list Cycle) (st : DetectionState) :
  event_state st ≠ Idle →
  short_pause cfg (last_activity st) l = true →
  run cfg st l = ([], st).
Proof.
  intros Hst Hp. induction l as [| c l IH]; [done |].
  simpl in Hp. apply andb_true_iff in Hp as [Hc Hp].
  apply andb_true_iff in Hc as [Hq Ht].
  apply negb_true_iff in Hq. apply Z.ltb_lt in Ht.
  assert (Hstep : step cfg st c = (st, None)).
  { unfold step. rewrite Hq.
    destruct (Z.ltb_spec (debounce_ms cfg) (cycle_time c - last_activity st));
      [lia |].
    by destruct (event_state st). }
  simpl. rewrite Hstep, (IH Hp). done.
Qed.

(** A candidate that keeps qualifying until the minimum duration is reached
    is confirmed with exactly one event. *)
Lemma candidate_burst (l : list Cycle) :
  ∀ st, event_state st = CandidateActive →
        forallb (qualifies cfg) l = true → l ≠ [] →
        (min_duration_ms cfg ≤ last_time l - start_time st)%Z →
        length (run cfg st l).1 = 1
        ∧ event_state (run cfg st l).2 = Confirmed
        ∧ last_activity (run cfg st l).2 = last_time l.
Proof.
  induction l as [| c l IH]; intros st Hst Hq Hne Hdur; [done |].
  simpl in Hq. apply andb_true_iff in Hq as [Hc Hq].
  simpl. unfold step. rewrite Hst, Hc.
  destruct (Z.leb_spec (min_duration_ms cfg) (cycle_time c - start_time st))
    as [Hreach | Hshort].
  - destruct (confirmed_burst l
                (mkDetectionState Confirmed (start_time st) (cycle_time c))
                eq_refl Hq) as (Hev & Hstate & _ & Hlast).
    destruct l as [| c' l']; [done |].
    rewrite (last_time_cons c) by done.
    destruct (run cfg _ (c' :: l')) as [evs st2]. simpl in *. subst evs.
    split_and!; try done. by apply Hlast.
  - assert (Hl : l ≠ []).
    { intros ->. unfold last_time in Hdur. simpl in Hdur. lia. }
    rewrite last_time_cons in Hdur |- * by done.
    destruct (IH (mkDetectionState CandidateActive (start_time st)
                                   (cycle_time c)) eq_refl Hq Hl Hdur)
      as (Hev & Hstate & Hlast).
    by destruct (run cfg _ l) as [evs st2].
Qed.

(** A qualifying burst met in [Idle] produces exactly one event. *)
Lemma idle_burst (b : list Cycle) :
  (0 < min_duration_ms cfg)%Z → qualifying_burst cfg b = true →
  length (run cfg idle_state b).1 = 1
  ∧ event_state (run cfg idle_state b).2 = Confirmed
  ∧ last_activity (run cfg idle_state b).2 = last_time b.
Proof.
  intros Hmin Hb. unfold qualifying_burst in Hb.
  apply andb_true_iff in Hb as [Hb Hdur].
  apply andb_true_iff in Hb as [Hne Hq].
  apply Z.leb_le in Hdur.
  destruct b as [| c rest]; [done |].
  simpl in Hq. apply andb_true_iff in Hq as [Hc Hq].
  simpl in Hdur.
  assert (Hrest : rest ≠ []).
  { intros ->. unfold last_time in Hdur. simpl in Hdur. lia. }
  rewrite last_time_cons in Hdur |- * by done.
  simpl. unfold step. simpl. rewrite Hc.
  destruct (candidate_burst rest
              (mkDetectionState CandidateActive (cycle_time c) (cycle_time c))
              eq_refl Hq Hrest Hdur) as (Hev & Hstate & Hlast).
  by destruct (run cfg _ rest) as [evs st2].
Qed.

End DecisionFacts.

(** The scenarios of the specification, run on the model with the default
    configuration (threshold 0.8, minimum duration 300 ms, debounce 100 ms).
    A: silence gives no event.  B: 400 ms at confidence 0.9 give one event
    of 300 ms.  C: 150 ms at 0.9 followed by 0.1 give no event. *)
Example scenario_silence :
  (TemporalDecision.run TemporalDecision.default_config
     TemporalDecision.idle_state
     ((λ t, TemporalDecision.mkCycle (Z.of_nat t * 100) (Float.flit 0))
        <$> seq 0 21)).1
  = [].
Proof. vm_compute. reflexivity. Qed.

Example scenario_one_bark :
  (TemporalDecision.run TemporalDecision.default_config
     TemporalDecision.idle_state
     ((λ t, TemporalDecision.mkCycle (Z.of_nat t * 100) (Float.flit 0.9))
        <$> seq 0 5)).1
  = [TemporalDecision.mkBarkEvent (Float.flit 0.9) 0 300].
Proof. vm_compute. reflexivity. Qed.

Example scenario_too_short :
  (TemporalDecision.run TemporalDecision.default_config
     TemporalDecision.idle_state
     (((λ t, TemporalDecision.mkCycle (Z.of_nat t * 50) (Float.flit 0.9))
         <$> seq 0 4)
      ++ ((λ t, TemporalDecision.mkCycle (200 + Z.of_nat t * 50)
                  (Float.flit 0.1)) <$> seq 0 9))).1
  = [].
Proof. vm_compute. reflexivity. Qed.

(** C2. In [Confirmed] no step emits an event, however often the confidence
    crosses the threshold, and the state is left only when the confidence
    has stayed below the threshold for longer than the debounce interval;
    so two qualifying bursts separated by a pause shorter than the debounce
    interval produce exactly one event in total. *)
Theorem confirmed_absorbs_second_burst (cfg : TemporalDecision.Config) :
  (∀ st c,
      TemporalDecision.event_state st = TemporalDecision.Confirmed →
      (TemporalDecision.step cfg st c).2 = None
      ∧ (TemporalDecision.event_state (TemporalDecision.step cfg st c).1
         = TemporalDecision.Confirmed
         ∨ (TemporalDecision.qualifies cfg c = false
            ∧ (TemporalDecision.debounce_ms cfg
               < TemporalDecision.cycle_time c
                 - TemporalDecision.last_activity st)%Z)))
  ∧ (∀ burst1 pause burst2,
        (0 < TemporalDecision.min_duration_ms cfg)%Z →
        TemporalDecision.qualifying_burst cfg burst1 = true →
        TemporalDecision.short_pause cfg
          (TemporalDecision.last_time burst1) pause = true →
        TemporalDecision.qualifying_burst cfg burst2 = true →
        length (TemporalDecision.run cfg TemporalDecision.idle_state
                  (burst1 ++ pause ++ burst2)).1 = 1).
Proof.
  split.
  - intros st c Hst.
    destruct (confirmed_step cfg st c Hst) as [Hev [Hc | (_ & Hq & Ht)]];
      auto.
  - intros burst1 pause burst2 Hmin Hb1 Hpause Hb2.
    destruct (idle_burst cfg burst1 Hmin Hb1) as (Hev1 & Hst1 & Hlast1).
    rewrite !run_app. simpl.
    set (st1 := (TemporalDecision.run cfg TemporalDecision.idle_state
                   burst1).2) in *.
    rewrite (short_pause_stays cfg pause st1)
      by (rewrite ?Hst1, ?Hlast1; done).
    simpl.
    assert (Hq2 : forallb (TemporalDecision.qualifies cfg) burst2 = true).
    { unfold TemporalDecision.qualifying_burst in Hb2.
      apply andb_true_iff in Hb2 as [Hb2 _].
      by apply andb_true_iff in Hb2 as [_ Hb2]. }
    destruct (confirmed_burst cfg burst2 st1 Hst1 Hq2) as (Hev2 & _).
    rewrite Hev2, length_app, Hev1. done.
Qed.

Lemma confirmed_absorbs_second_burst_witness :
  length
    (TemporalDecision.run TemporalDecision.default_config
       TemporalDecision.idle_state
       ([TemporalDecision.mkCycle 0 (Float.flit 0.9);
         TemporalDecision.mkCycle 200 (Float.flit 0.9);
         TemporalDecision.mkCycle 400 (Float.flit 0.9)]
        ++ [TemporalDecision.mkCycle 450 (Float.flit 0.1)]
        ++ [TemporalDecision.mkCycle 480 (Float.flit 0.9);
            TemporalDecision.mkCycle 800 (Float.flit 0.95)])).1
  = 1.
Proof.
  apply (confirmed_absorbs_second_burst TemporalDecision.default_config).
  - vm_compute. reflexivity.
  - vm_compute. reflexivity.
  - vm_compute. reflexivity.
  - vm_compute. reflexivity.
Defined.

(* ====================================================================== *)
(** * Further properties of the modelled code *)
(* ====================================================================== *)

(** ** The audio ring buffer: partial writes, reads, peeks *)

Section SampleRingMore.
Import SampleRing.

#[local] Opaque AUDIO_BUFFER_SIZE.

(** X1. A write stores the longest prefix of the offered samples that fits
    into the [AUDIO_BUFFER_SIZE - 1] usable slots and returns its length;
    the samples buffered before stay in front of it, in order, and the read
    cursor does not move. *)
Theorem write_stores_fitting_prefix (r : Ring) (samples : list Z) :
  ring_wf r → audioMutex r = SemFree →
  let k := length samples `min`
           (AUDIO_BUFFER_SIZE - 1 - getAvailableSamples r) in
  let r' := (writeToRingBuffer r samples).2 in
  (writeToRingBuffer r samples).1 = k
  ∧ contents r' = contents r ++ take k samples
  ∧ getAvailableSamples r' = getAvailableSamples r + k
  ∧ ringBufferReadPos r' = ringBufferReadPos r
  ∧ ring_wf r'.
Proof.
  intros Hwf Hfree k r'. subst r'.
  destruct (writeToRingBuffer_spec r samples Hwf Hfree)
    as (r1 & Hrun & Hwf1 & _ & Hrd & Hav & Hct).
  rewrite Hrun. simpl. done.
Qed.

Lemma write_stores_fitting_prefix_witness :
  (writeToRingBuffer ring_init [4; 5; 6]%Z).1
  = 3 `min` (AUDIO_BUFFER_SIZE - 1 - getAvailableSamples ring_init).
Proof.
  destruct (write_stores_fitting_prefix ring_init [4; 5; 6]%Z) as [H _].
  - split.
    + vm_compute. reflexivity.
    + apply Nat.ltb_lt. vm_compute. reflexivity.
    + apply Nat.ltb_lt. vm_compute. reflexivity.
  - reflexivity.
  - exact H.
Defined.

(** X2. A read hands back the oldest [min count available] samples, leaves
    the rest of the queue buffered in order, lowers the fill level by the
    number of samples returned, and touches neither the buffer nor the write
    cursor; on an empty ring it returns nothing. *)
Theorem read_takes_oldest (r : Ring) (count : nat) :
  ring_wf r → audioMutex r = SemFree →
  let r' := (readFromRingBuffer r count).2 in
  (readFromRingBuffer r count).1 = take count (contents r)
  ∧ length (readFromRingBuffer r count).1
    = count `min` getAvailableSamples r
  ∧ contents r' = drop count (contents r)
  ∧ getAvailableSamples r'
    = getAvailableSamples r - count `min` getAvailableSamples r
  ∧ audioRingBuffer r' = audioRingBuffer r
  ∧ ringBufferWritePos r' = ringBufferWritePos r.
Proof.
  intros Hwf Hfree r'. subst r'.
  destruct (readFromRingBuffer_spec r count Hwf Hfree)
    as (r1 & Hrun & Hwf1 & _ & Hct).
  assert (Hframe : audioRingBuffer (readFromRingBuffer r count).2
                   = audioRingBuffer r
                   ∧ ringBufferWritePos (readFromRingBuffer r count).2
                     = ringBufferWritePos r).
  { unfold readFromRingBuffer. rewrite Hfree. simpl.
    by destruct (copy_loop _ _ _ _). }
  rewrite Hrun in *. simpl in *.
  pose proof (contents_length r) as Hlen.
  pose proof (contents_length r1) as Hlen1.
  rewrite Hct, length_drop, Hlen in Hlen1.
  split_and!; try done; try tauto.
  - by rewrite length_take, Hlen.
  - lia.
Qed.

Lemma read_takes_oldest_witness :
  let r := (writeToRingBuffer ring_init [4; 5; 6]%Z).2 in
  (readFromRingBuffer r 2).1 = take 2 (contents r).
Proof.
  intros r. destruct (read_takes_oldest r 2) as [H _].
  - split.
    + vm_compute. reflexivity.
    + apply Nat.ltb_lt. vm_compute. reflexivity.
    + apply Nat.ltb_lt. vm_compute. reflexivity.
  - vm_compute. reflexivity.
  - exact H.
Defined.

(** X3. What a peek returns does not depend on writes made in the meantime:
    as long as nothing is read, a peek of samples that were already buffered
    returns the same samples after any write, so the analysis task keeps
    seeing the oldest buffered frame until some reader drains it. *)
Theorem peek_unchanged_by_write (r : Ring) (samples : list Z) (count : nat) :
  ring_wf r → audioMutex r = SemFree →
  count ≤ getAvailableSamples r →
  (peekRingBuffer (writeToRingBuffer r samples).2 count).1
  = (peekRingBuffer r count).1.
Proof.
  intros Hwf Hfree Hcount.
  destruct (writeToRingBuffer_spec r samples Hwf Hfree)
    as (r1 & Hrun & Hwf1 & Hfree1 & _ & _ & Hct).
  rewrite Hrun. simpl.
  rewrite !peekRingBuffer_spec by done. simpl.
  rewrite Hct. apply take_app_le. rewrite contents_length. done.
Qed.

Lemma peek_unchanged_by_write_witness :
  let r := (writeToRingBuffer ring_init [4; 5; 6]%Z).2 in
  (peekRingBuffer (writeToRingBuffer r [7; 8]%Z).2 3).1
  = (peekRingBuffer r 3).1.
Proof.
  intros r. apply peek_unchanged_by_write.
  - split.
    + vm_compute. reflexivity.
    + apply Nat.ltb_lt. vm_compute. reflexivity.
    + apply Nat.ltb_lt. vm_compute. reflexivity.
  - vm_compute. reflexivity.
  - apply Nat.leb_le. vm_compute. reflexivity.
Defined.

End SampleRingMore.

(** ** The ring of [audioProcessTask]: newest samples win *)

Section WebrtcRingMore.
Import WebrtcFirmware WebrtcRing.

Lemma RING_BUFFER_SIZE_pos : 0 < RING_BUFFER_SIZE.
Proof. apply Nat.ltb_lt. vm_compute. reflexivity. Qed.

#[local] Opaque RING_BUFFER_SIZE.

Lemma keep_last_all {A} (n : nat) (l : list A) :
  length l ≤ n → keep_last n l = l.
Proof.
  intros Hle. unfold keep_last. by replace (length l - n) with 0 by lia.
Qed.

Lemma keep_last_app {A} (n : nat) (l k : list A) :
  keep_last n (keep_last n l ++ k) = keep_last n (l ++ k).
Proof.
  destruct (decide (length l ≤ n)) as [Hle | Hgt].
  - by rewrite (keep_last_all n l).
  - unfold keep_last. rewrite !length_app, length_drop.
    replace (length l - (length l - n) + length k - n) with (length k) by lia.
    replace (length l + length k - n)
      with ((length l - n) + length k) by lia.
    rewrite <- drop_drop. f_equal.
    rewrite drop_app_le by lia. done.
Qed.

Lemma audio_ring_init_wf : audio_ring_wf audio_ring_init.
Proof.
  pose proof RING_BUFFER_SIZE_pos.
  split; simpl; try lia.
  - apply length_replicate.
  - apply Nat.mod_small. lia.
Qed.

Lemma ring_store_wf (a : AudioRing) (sample : Z) :
  audio_ring_wf a → audio_ring_wf (ring_store a sample).
Proof.
  pose proof RING_BUFFER_SIZE_pos as Hpos.
  intros [Hl Hw Hr Ha Hoff]. unfold ring_store.
  case_decide as Hroom; split; simpl;
    rewrite ?length_insert; try done; try lia;
    try (by apply succ_mod_lt).
  - rewrite <- Hoff, Nat.Div0.add_mod_idemp_l. f_equal. lia.
  - rewrite <- Hoff, !Nat.Div0.add_mod_idemp_l. f_equal. lia.
Qed.

Lemma buffered_length (a : AudioRing) : length (buffered a) = ringAvailable a.
Proof. unfold buffered. by rewrite length_fmap, length_seq. Qed.

(** One stored sample: appended while there is room, and in place of the
    oldest one when the ring is full. *)
Lemma ring_store_buffered (a : AudioRing) (sample : Z) :
  audio_ring_wf a →
  buffered (ring_store a sample)
  = keep_last RING_BUFFER_SIZE (buffered a ++ [sample]).
Proof.
  pose proof RING_BUFFER_SIZE_pos as Hpos.
  intros [Hl Hw Hr Ha Hoff]. unfold ring_store.
  case_decide as Hroom.
  - rewrite keep_last_all
      by (rewrite length_app, buffered_length; simpl; lia).
    unfold buffered. simpl.
    replace (ringAvailable a + 1) with (S (ringAvailable a)) by lia.
    rewrite seq_S, fmap_app. simpl. f_equal.
    + apply list_fmap_ext. intros i k Hk.
      apply lookup_seq in Hk as [-> Hk]. simpl.
      apply list_lookup_total_insert_ne. rewrite <- Hoff.
      rewrite !add_mod_wrap by lia. repeat case_decide; lia.
    + rewrite Hoff. rewrite list_lookup_total_insert_eq by lia. done.
  - assert (Hfull : ringAvailable a = RING_BUFFER_SIZE) by lia.
    assert (Hsame : ringWritePos a = ringReadPos a).
    { rewrite <- Hoff, Hfull, add_mod_wrap by lia. case_decide; lia. }
    unfold keep_last. rewrite length_app, buffered_length, Hfull. simpl.
    replace (RING_BUFFER_SIZE + 1 - RING_BUFFER_SIZE) with 1 by lia.
    unfold buffered. simpl. rewrite Hfull.
    assert (∃ m, RING_BUFFER_SIZE = S m) as [m Hsize]
      by (exists (RING_BUFFER_SIZE - 1); lia).
    assert (Hsnoc : seq 0 RING_BUFFER_SIZE = seq 0 m ++ [m]).
    { rewrite Hsize, seq_S. reflexivity. }
    assert (Hcons : seq 0 RING_BUFFER_SIZE = 0 :: (S <$> seq 0 m)).
    { rewrite Hsize, <- cons_seq, fmap_S_seq. reflexivity. }
    match goal with
    | |- _ = drop 1 ((?f <$> _) ++ _) =>
        trans ((f ∘ S <$> seq 0 m) ++ [sample])
    end;
      [| rewrite Hcons, fmap_cons; simpl; rewrite drop_0;
         by rewrite <- list_fmap_compose].
    rewrite Hsnoc, fmap_app. simpl. f_equal.
    + apply list_fmap_ext. intros i k Hk.
      apply lookup_seq in Hk as [-> Hk]. simpl.
      rewrite add_mod_succ by lia.
      apply list_lookup_total_insert_ne.
      rewrite add_mod_wrap by lia. case_decide; lia.
    + f_equal. rewrite add_mod_succ by lia.
      replace (ringReadPos a + S m) with (ringReadPos a + RING_BUFFER_SIZE)
        by lia.
      rewrite add_mod_wrap by lia. case_decide; [lia |].
      replace (ringReadPos a + RING_BUFFER_SIZE - RING_BUFFER_SIZE)
        with (ringWritePos a) by lia.
      apply list_lookup_total_insert_eq. lia.
Qed.

Lemma ring_store_available (a : AudioRing) (sample : Z) :
  ringAvailable (ring_store a sample)
  = (ringAvailable a + 1) `min` (ringAvailable a `max` RING_BUFFER_SIZE).
Proof. unfold ring_store. case_decide; simpl; lia. Qed.

Lemma uint32_wrap_add_l (x y : Z) :
  uint32_wrap (uint32_wrap x + y) = uint32_wrap (x + y).
Proof. unfold uint32_wrap. apply Zplus_mod_idemp_l. Qed.

Lemma ring_store_overruns (a : AudioRing) (sample : Z) :
  ringAvailable a ≤ RING_BUFFER_SIZE →
  bufferOverruns (ring_store a sample)
  = (if decide (ringAvailable a < RING_BUFFER_SIZE) then bufferOverruns a
     else uint32_wrap (bufferOverruns a + 1)).
Proof. intros _. unfold ring_store. by case_decide. Qed.

(** X4. The ring of [audioProcessTask] always holds the most recent
    samples: after any run of the sample loop on a well-formed ring, the
    samples between the read cursor and the write cursor are the last
    [RING_BUFFER_SIZE] of those buffered before followed by the new ones, in
    arrival order.  When the ring overflows it is the oldest samples that
    are lost. *)
Theorem audioProcess_keeps_newest (a : AudioRing) (i2sBuffer : list Z) :
  audio_ring_wf a →
  buffered (audioProcess_samples a i2sBuffer)
  = keep_last RING_BUFFER_SIZE (buffered a ++ (sample_of_i2s <$> i2sBuffer))
  ∧ audio_ring_wf (audioProcess_samples a i2sBuffer).
Proof.
  revert a. unfold audioProcess_samples.
  induction i2sBuffer as [| w ws IH]; intros a Hwf; simpl.
  - rewrite app_nil_r.
    rewrite keep_last_all; [done |].
    rewrite buffered_length. by destruct Hwf.
  - destruct (IH (ring_store a (sample_of_i2s w))
                 (ring_store_wf a _ Hwf)) as [Hbuf Hwf'].
    split; [| done].
    rewrite Hbuf, ring_store_buffered by done.
    rewrite keep_last_app. by rewrite <- app_assoc.
Qed.

Lemma audioProcess_keeps_newest_witness :
  buffered (audioProcess_samples audio_ring_init [65536; 131072; -65536]%Z)
  = keep_last RING_BUFFER_SIZE
      (buffered audio_ring_init
       ++ (sample_of_i2s <$> [65536; 131072; -65536]%Z)).
Proof.
  destruct (audioProcess_keeps_newest audio_ring_init
              [65536; 131072; -65536]%Z) as [H _].
  - split.
    + apply Nat.eqb_eq. vm_compute. reflexivity.
    + apply Nat.ltb_lt. vm_compute. reflexivity.
    + apply Nat.ltb_lt. vm_compute. reflexivity.
    + apply Nat.leb_le. vm_compute. reflexivity.
    + apply Nat.eqb_eq. vm_compute. reflexivity.
  - exact H.
Defined.

(** X5. Accounting of the same loop: the fill level is the number of
    samples offered so far, capped at [RING_BUFFER_SIZE], which it never
    exceeds; [bufferOverruns] grows (modulo [2^32]) by exactly the number of
    samples that did not fit. *)
Theorem audioProcess_accounting (a : AudioRing) (i2sBuffer : list Z) :
  ringAvailable a ≤ RING_BUFFER_SIZE →
  (0 ≤ bufferOverruns a < 2 ^ 32)%Z →
  let a' := audioProcess_samples a i2sBuffer in
  ringAvailable a'
  = (ringAvailable a + length i2sBuffer) `min` RING_BUFFER_SIZE
  ∧ bufferOverruns a'
    = uint32_wrap
        (bufferOverruns a
         + Z.of_nat (ringAvailable a + length i2sBuffer - RING_BUFFER_SIZE)).
Proof.
  unfold audioProcess_samples. revert a.
  induction i2sBuffer as [| w ws IH]; intros a Ha Hov; simpl.
  - split; [lia |].
    replace (ringAvailable a + 0 - RING_BUFFER_SIZE) with 0 by lia.
    rewrite Z.add_0_r. unfold uint32_wrap. by rewrite Z.mod_small.
  - assert (Hov1 : (0 ≤ bufferOverruns (ring_store a (sample_of_i2s w))
                    < 2 ^ 32)%Z).
    { rewrite ring_store_overruns by done. case_decide; [done |].
      unfold uint32_wrap. by apply Z.mod_pos_bound. }
    assert (Ha1 : ringAvailable (ring_store a (sample_of_i2s w))
                  ≤ RING_BUFFER_SIZE)
      by (rewrite ring_store_available; lia).
    destruct (IH _ Ha1 Hov1) as [Hav Hcount].
    rewrite Hav, Hcount.
    rewrite ring_store_available, ring_store_overruns by done.
    case_decide as Hroom.
    + split; [lia |]. f_equal. lia.
    + split; [lia |]. rewrite uint32_wrap_add_l. f_equal. lia.
Qed.

Lemma audioProcess_accounting_witness :
  ringAvailable (audioProcess_samples audio_ring_init [65536; 131072]%Z)
  = (ringAvailable audio_ring_init + 2) `min` RING_BUFFER_SIZE.
Proof.
  destruct (audioProcess_accounting audio_ring_init [65536; 131072]%Z)
    as [H _].
  - apply Nat.leb_le. vm_compute. reflexivity.
  - vm_compute. split; [discriminate | reflexivity].
  - exact H.
Defined.

(** X6. The conversion of an I2S word keeps its upper half: for every
    32-bit word the sample is the word divided by [2^16], rounded down, and
    lies in the [int16_t] range. *)
Theorem sample_of_i2s_upper_half (word : Z) :
  (- 2 ^ 31 ≤ word < 2 ^ 31)%Z →
  sample_of_i2s word = (word / 2 ^ 16)%Z
  ∧ (-32768 ≤ sample_of_i2s word ≤ 32767)%Z.
Proof.
  intros Hword. unfold sample_of_i2s.
  rewrite Z.shiftr_div_pow2 by lia.
  change 65535%Z with (Z.ones 16). rewrite Z.land_ones by lia.
  assert (Hq : (-32768 ≤ word / 2 ^ 16 ≤ 32767)%Z).
  { split.
    - apply Z.div_le_lower_bound; lia.
    - apply Z.lt_succ_r. apply Z.div_lt_upper_bound; lia. }
  pose proof (Z.mod_pos_bound (word / 2 ^ 16) (2 ^ 16) ltac:(lia)) as Hm.
  pose proof (Z.div_mod (word / 2 ^ 16) (2 ^ 16) ltac:(lia)) as Hdm.
  assert (Hcases : ((word / 2 ^ 16) / 2 ^ 16 = 0
                    ∨ (word / 2 ^ 16) / 2 ^ 16 = -1)%Z).
  { assert ((-1 ≤ (word / 2 ^ 16) / 2 ^ 16)%Z)
      by (apply Z.div_le_lower_bound; lia).
    assert (((word / 2 ^ 16) / 2 ^ 16 < 1)%Z)
      by (apply Z.div_lt_upper_bound; lia).
    lia. }
  case_decide; lia.
Qed.

Lemma sample_of_i2s_upper_half_witness :
  sample_of_i2s (-65537) = (-65537 / 2 ^ 16)%Z.
Proof.
  destruct (sample_of_i2s_upper_half (-65537)) as [H _].
  - lia.
  - exact H.
Defined.

End WebrtcRingMore.

(** ** G.711 A-law companding *)

Section AlawFacts.
Import Alaw.

Lemma forall_from_spec (P : Z → bool) (n : nat) :
  ∀ start, forall_from n start P = true →
           ∀ z, (start ≤ z < start + Z.of_nat n)%Z → P z = true.
Proof.
  induction n as [| n IH]; intros start Hall z Hz; [lia |].
  simpl in Hall. apply andb_true_iff in Hall as [Hhere Hrest].
  destruct (decide (z = start)) as [-> | Hne]; [done |].
  apply (IH (start + 1)%Z Hrest). lia.
Qed.

(** X7. A-law encoding is symmetric in the sign: a negative sample gets
    the code of its magnitude with the sign bit flipped, and the one value
    without a positive counterpart, -32768, is encoded as -32767.  Every
    code is a byte. *)
Theorem encodeAlaw_sign_symmetric (sample : Z) :
  (1 ≤ sample ≤ 32767)%Z →
  encodeAlaw (- sample) = Z.lxor (encodeAlaw sample) 128
  ∧ (0 ≤ encodeAlaw sample < 256)%Z
  ∧ encodeAlaw INT16_MIN = encodeAlaw (-32767).
Proof.
  intros Hs.
  assert (Hall : forall_from (Z.to_nat 32767) 1
                   (λ s, (encodeAlaw (- s) =? Z.lxor (encodeAlaw s) 128)%Z
                         && (0 <=? encodeAlaw s)%Z
                         && (encodeAlaw s <? 256)%Z) = true)
    by (vm_compute; reflexivity).
  pose proof (forall_from_spec _ _ _ Hall sample ltac:(lia)) as Hp.
  simpl in Hp.
  apply andb_true_iff in Hp as [Hp Hhi].
  apply andb_true_iff in Hp as [Hsym Hlo].
  apply Z.eqb_eq in Hsym. apply Z.leb_le in Hlo. apply Z.ltb_lt in Hhi.
  split_and!; done.
Qed.

Lemma encodeAlaw_sign_symmetric_witness :
  encodeAlaw (- 1000) = Z.lxor (encodeAlaw 1000) 128.
Proof.
  destruct (encodeAlaw_sign_symmetric 1000) as [H _]; [lia | exact H].
Defined.

Lemma alaw_code_step (sample : Z) :
  (0 ≤ sample < 32767)%Z → (alaw_code sample ≤ alaw_code (sample + 1))%Z.
Proof.
  intros Hs.
  assert (Hall : forall_from (Z.to_nat 32767) 0
                   (λ s, (alaw_code s <=? alaw_code (s + 1))%Z) = true)
    by (vm_compute; reflexivity).
  pose proof (forall_from_spec _ _ _ Hall sample ltac:(lia)) as Hp.
  by apply Z.leb_le in Hp.
Qed.

(** X8. The encoder keeps the order of magnitudes and saturates early: a
    louder sample never gets a smaller code, every magnitude from 4095 up
    gets the code of 4095, and no code uses a segment above 4 (the seven
    code bits never exceed [0x4F]). *)
Theorem encodeAlaw_monotone_saturating (a b : Z) :
  (0 ≤ a ≤ b)%Z → (b ≤ 32767)%Z →
  (alaw_code a ≤ alaw_code b ≤ 79)%Z
  ∧ ((4095 ≤ a)%Z → encodeAlaw a = encodeAlaw 4095).
Proof.
  intros Hab Hb.
  assert (Hmono : ∀ n : nat, (a + Z.of_nat n ≤ 32767)%Z →
                             (alaw_code a ≤ alaw_code (a + Z.of_nat n))%Z).
  { induction n as [| n IH]; intros Hn.
    - rewrite Z.add_0_r. lia.
    - etrans; [apply IH; lia |].
      replace (a + Z.of_nat (S n))%Z with (a + Z.of_nat n + 1)%Z by lia.
      apply alaw_code_step. lia. }
  assert (Htop : (alaw_code b ≤ 79)%Z).
  { assert (Hall : forall_from (Z.to_nat 32768) 0
                     (λ s, (alaw_code s <=? 79)%Z) = true)
      by (vm_compute; reflexivity).
    pose proof (forall_from_spec _ _ _ Hall b ltac:(lia)) as Hp.
    by apply Z.leb_le in Hp. }
  split_and!.
  - specialize (Hmono (Z.to_nat (b - a))).
    replace (a + Z.of_nat (Z.to_nat (b - a)))%Z with b in Hmono by lia.
    apply Hmono. lia.
  - done.
  - intros Hsat.
    assert (Hall : forall_from (Z.to_nat (32768 - 4095)) 4095
                     (λ s, (encodeAlaw s =? encodeAlaw 4095)%Z) = true)
      by (vm_compute; reflexivity).
    pose proof (forall_from_spec _ _ _ Hall a ltac:(lia)) as Hp.
    by apply Z.eqb_eq in Hp.
Qed.

Lemma encodeAlaw_monotone_saturating_witness :
  (alaw_code 100 ≤ alaw_code 2000 ≤ 79)%Z.
Proof.
  destruct (encodeAlaw_monotone_saturating 100 2000) as [H _];
    [lia | lia | exact H].
Defined.

End AlawFacts.

(** ** RTP packets *)

Section RtpFacts.
Import Alaw.

Variable htons : Z → Z.
Variable htonl : Z → Z.

Lemma uint16_wrap_add_l (x y : Z) :
  uint16_wrap (uint16_wrap x + y) = uint16_wrap (x + y).
Proof. unfold uint16_wrap. apply Zplus_mod_idemp_l. Qed.

Lemma alaw_uint32_wrap_add_l (x y : Z) :
  uint32_wrap (uint32_wrap x + y) = uint32_wrap (x + y).
Proof. unfold uint32_wrap. apply Zplus_mod_idemp_l. Qed.

(** X9. Packets made one after the other form a continuous RTP stream:
    packet [i] carries the A-law code of every sample of frame [i] in order,
    has size 12 plus the number of samples, payload type 8, the client's SSRC,
    the starting sequence number plus [i] (modulo [2^16]) and the starting
    timestamp plus the number of samples sent before it (modulo [2^32]). *)
Theorem rtp_stream_continuity (frames : list (list Z)) :
  ∀ (client : StreamingClient) (i : nat) (frame : list Z),
    (0 ≤ sequenceNumber client < 2 ^ 16)%Z →
    (0 ≤ timestamp client < 2 ^ 32)%Z →
    frames !! i = Some frame →
    ∃ header,
      (send_frames htons htonl frames client).1 !! i
      = Some (header, encodeAlaw <$> frame, sizeof_RTPHeader + length frame)
      ∧ hdr_sequenceNumber header
        = htons (uint16_wrap (sequenceNumber client + Z.of_nat i))
      ∧ hdr_timestamp header
        = htonl (uint32_wrap
                   (timestamp client
                    + Z.of_nat (sum_list (length <$> take i frames))))
      ∧ hdr_ssrc header = htonl (ssrc client)
      ∧ payloadType header = 8%Z
      ∧ version header = 2%Z.
Proof.
  induction frames as [| f rest IH]; intros client i frame Hseq Hts Hi;
    [done |].
  simpl.
  destruct (send_frames htons htonl rest _) as [packets client2] eqn:Hrest.
  destruct i as [| i].
  - simpl in Hi. injection Hi as ->. eexists. simpl.
    split_and!; try done.
    + simpl. f_equal. unfold uint16_wrap. rewrite Z.add_0_r.
      symmetry. by apply Z.mod_small.
    + simpl. f_equal. unfold uint32_wrap. rewrite Z.add_0_r.
      symmetry. by apply Z.mod_small.
  - simpl in Hi.
    edestruct (IH (mkStreamingClient (ssrc client)
                     (uint16_wrap (sequenceNumber client + 1))
                     (uint32_wrap (timestamp client
                                   + Z.of_nat (length f)))) i frame)
      as (header & Hlook & Hs & Ht & Hssrc & Hpt & Hv); try done.
    { simpl. unfold uint16_wrap. apply Z.mod_pos_bound. lia. }
    { simpl. unfold uint32_wrap. apply Z.mod_pos_bound. lia. }
    rewrite Hrest in Hlook. simpl in *.
    exists header. split_and!; try done.
    + rewrite Hs, uint16_wrap_add_l. do 2 f_equal. clear. lia.
    + rewrite Ht, alaw_uint32_wrap_add_l. do 2 f_equal.
      rewrite Nat2Z.inj_add, Z.add_assoc. reflexivity.
Qed.

End RtpFacts.

Lemma rtp_stream_continuity_witness :
  ∃ header,
    (Alaw.send_frames (λ x, x) (λ x, x) [[100; -100]; [5]]%Z
       (Alaw.mkStreamingClient 7 65535 10)).1 !! 1
    = Some (header, Alaw.encodeAlaw <$> [5%Z], Alaw.sizeof_RTPHeader + 1)
    ∧ Alaw.hdr_sequenceNumber header
      = Alaw.uint16_wrap (65535 + Z.of_nat 1)
    ∧ Alaw.hdr_timestamp header
      = Alaw.uint32_wrap
          (10 + Z.of_nat (sum_list (length <$> take 1 [[100; -100]; [5]]%Z)))
    ∧ Alaw.hdr_ssrc header = 7%Z
    ∧ Alaw.payloadType header = 8%Z
    ∧ Alaw.version header = 2%Z.
Proof.
  apply (rtp_stream_continuity (λ x, x) (λ x, x) [[100; -100]; [5]]%Z
           (Alaw.mkStreamingClient 7 65535 10) 1 [5%Z]).
  - simpl. lia.
  - simpl. lia.
  - reflexivity.
Defined.

(** ** Base64url *)

Section Base64Facts.
Import Base64Url.

Lemma byte_of_range (c : ascii) : (0 ≤ byte_of c < 256)%Z.
Proof.
  unfold byte_of. pose proof (N_ascii_bounded c). lia.
Qed.

Lemma char_of_byte_of (c : ascii) : char_of (byte_of c) = c.
Proof.
  unfold char_of, byte_of. rewrite N2Z.id. apply ascii_N_embedding.
Qed.

(** Every position of the alphabet is found again by [strchr]. *)
Lemma strchr_char_at (i : Z) :
  (0 ≤ i < 64)%Z → strchr_index (char_at i) = Some i.
Proof.
  intros Hi.
  assert (Hall : forallb (λ n, bool_decide
                                 (strchr_index (char_at (Z.of_nat n))
                                  = Some (Z.of_nat n)))
                         (seq 0 64) = true) by (vm_compute; reflexivity).
  rewrite forallb_forall in Hall.
  specialize (Hall (Z.to_nat i)).
  rewrite Z2Nat.id in Hall by lia.
  assert (Hin : In (Z.to_nat i) (seq 0 64)) by (apply in_seq; lia).
  apply Hall in Hin. by apply bool_decide_eq_true in Hin.
Qed.

Lemma char_at_in_alphabet (i : Z) :
  (0 ≤ i < 64)%Z → char_at i ∈ base64_chars.
Proof.
  intros Hi. unfold char_at. apply list_elem_of_In, nth_In.
  change (length base64_chars) with 64. lia.
Qed.

(** Arithmetic of the two accumulators, modulo the width of [int]. *)
Ltac bits :=
  unfold int_wrap;
  rewrite ?Z.shiftl_mul_pow2, ?Z.shiftr_div_pow2 by lia;
  change 63%Z with (Z.ones 6); change 255%Z with (Z.ones 8);
  rewrite ?Z.land_ones by lia;
  change (2 ^ 32)%Z with 4294967296%Z; change (2 ^ 31)%Z with 2147483648%Z;
  change (2 ^ 8)%Z with 256%Z; change (2 ^ 6)%Z with 64%Z;
  change (2 ^ 4)%Z with 16%Z; change (2 ^ 2)%Z with 4%Z;
  change (2 ^ 0)%Z with 1%Z;
  Z.div_mod_to_equations; lia.

Lemma enc_val_low (val : Z) (c : ascii) :
  (enc_val val c mod 256 = byte_of c)%Z.
Proof. pose proof (byte_of_range c). unfold enc_val. bits. Qed.

Lemma enc_bits_2 (val : Z) (c : ascii) :
  Z.land (Z.shiftr (enc_val val c) 2) 63 = (byte_of c / 4)%Z.
Proof. pose proof (byte_of_range c). unfold enc_val. bits. Qed.

Lemma enc_bits_4 (val : Z) (c : ascii) :
  Z.land (Z.shiftr (enc_val val c) 4) 63
  = ((val mod 4) * 16 + byte_of c / 16)%Z.
Proof. pose proof (byte_of_range c). unfold enc_val. bits. Qed.

Lemma enc_bits_6 (val : Z) (c : ascii) :
  Z.land (Z.shiftr (enc_val val c) 6) 63
  = ((val mod 16) * 4 + byte_of c / 64)%Z.
Proof. pose proof (byte_of_range c). unfold enc_val. bits. Qed.

Lemma enc_bits_0 (val : Z) (c : ascii) :
  Z.land (Z.shiftr (enc_val val c) 0) 63 = (byte_of c mod 64)%Z.
Proof. pose proof (byte_of_range c). unfold enc_val. bits. Qed.

Lemma flush_bits_4 (val : Z) :
  Z.land (Z.shiftr (int_wrap (Z.shiftl val 8)) 4) 63 = ((val mod 4) * 16)%Z.
Proof. bits. Qed.

Lemma flush_bits_6 (val : Z) :
  Z.land (Z.shiftr (int_wrap (Z.shiftl val 8)) 6) 63 = ((val mod 16) * 4)%Z.
Proof. bits. Qed.

Lemma dec_val_low (val idx : Z) :
  (0 ≤ idx < 64)%Z → (dec_val val idx mod 64 = idx)%Z.
Proof. intros Hi. unfold dec_val. bits. Qed.

Lemma dec_val_low16 (val idx : Z) :
  (0 ≤ idx < 64)%Z → (dec_val val idx mod 16 = idx mod 16)%Z.
Proof. intros Hi. unfold dec_val. bits. Qed.

Lemma dec_val_low4 (val idx : Z) :
  (0 ≤ idx < 64)%Z → (dec_val val idx mod 4 = idx mod 4)%Z.
Proof. intros Hi. unfold dec_val. bits. Qed.

Lemma dec_bits_4 (val idx : Z) :
  (0 ≤ idx < 64)%Z →
  Z.land (Z.shiftr (dec_val val idx) 4) 255
  = ((val mod 64) * 4 + idx / 16)%Z.
Proof. intros Hi. unfold dec_val. bits. Qed.

Lemma dec_bits_2 (val idx : Z) :
  (0 ≤ idx < 64)%Z →
  Z.land (Z.shiftr (dec_val val idx) 2) 255
  = ((val mod 16) * 16 + idx / 4)%Z.
Proof. intros Hi. unfold dec_val. bits. Qed.

Lemma dec_bits_0 (val idx : Z) :
  (0 ≤ idx < 64)%Z →
  Z.land (Z.shiftr (dec_val val idx) 0) 255 = ((val mod 4) * 64 + idx)%Z.
Proof. intros Hi. unfold dec_val. bits. Qed.

(** The output only grows at its end. *)
Lemma emit_loop_acc (fuel : nat) :
  ∀ val valb encoded,
    emit_loop fuel val valb encoded
    = (encoded ++ (emit_loop fuel val valb []).1,
       (emit_loop fuel val valb []).2).
Proof.
  induction fuel as [| fuel IH]; intros val valb encoded; simpl.
  - by rewrite app_nil_r.
  - destruct (0 <=? valb)%Z; simpl; [| by rewrite app_nil_r].
    rewrite IH. rewrite (IH _ _ [_]). simpl. by rewrite <- app_assoc.
Qed.

Lemma encode_char_acc (val valb : Z) (encoded : list ascii) (c : ascii) :
  encode_char (val, valb, encoded) c
  = ((encode_char (val, valb, []) c).1.1,
     (encode_char (val, valb, []) c).1.2,
     encoded ++ (encode_char (val, valb, []) c).2).
Proof.
  unfold encode_char. rewrite emit_loop_acc.
  by destruct (emit_loop _ _ _ []).
Qed.

Lemma encode_finish_acc (val valb : Z) (encoded : list ascii) :
  encode_finish (val, valb, encoded)
  = encoded ++ encode_finish (val, valb, []).
Proof.
  unfold encode_finish. destruct (-6 <? valb)%Z; [done |].
  by rewrite app_nil_r.
Qed.

Lemma encode_loop_acc (input : list ascii) :
  ∀ val valb encoded,
    encode_finish (foldl encode_char (val, valb, encoded) input)
    = encoded ++ enc_from val valb input.
Proof.
  unfold enc_from.
  induction input as [| c rest IH]; intros val valb encoded; cbn [foldl].
  - apply encode_finish_acc.
  - rewrite encode_char_acc.
    destruct (encode_char (val, valb, []) c) as [[val1 valb1] out].
    cbn [fst snd]. rewrite IH, (IH _ _ out). by rewrite app_assoc.
Qed.

Lemma enc_from_cons (val valb : Z) (c : ascii) (rest : list ascii) :
  enc_from val valb (c :: rest)
  = (encode_char (val, valb, []) c).2
    ++ enc_from (encode_char (val, valb, []) c).1.1
                (encode_char (val, valb, []) c).1.2 rest.
Proof.
  unfold enc_from at 1. cbn [foldl].
  destruct (encode_char (val, valb, []) c) as [[val1 valb1] out].
  cbn [fst snd]. apply encode_loop_acc.
Qed.

Lemma decode_char_acc (val valb : Z) (decoded : list ascii) (c : ascii) :
  decode_char (val, valb, decoded) c
  = ((decode_char (val, valb, []) c).1.1,
     (decode_char (val, valb, []) c).1.2,
     decoded ++ (decode_char (val, valb, []) c).2).
Proof.
  unfold decode_char. destruct (strchr_index c); simpl.
  - destruct (0 <=? valb + 6)%Z; simpl; [done | by rewrite app_nil_r].
  - by rewrite app_nil_r.
Qed.

Lemma decode_loop_acc (input : list ascii) :
  ∀ val valb decoded,
    (foldl decode_char (val, valb, decoded) input).2
    = decoded ++ dec_from val valb input.
Proof.
  unfold dec_from.
  induction input as [| c rest IH]; intros val valb decoded; cbn [foldl].
  - simpl. by rewrite app_nil_r.
  - rewrite decode_char_acc.
    destruct (decode_char (val, valb, []) c) as [[val1 valb1] out].
    cbn [fst snd]. rewrite IH, (IH _ _ out). by rewrite app_assoc.
Qed.

Lemma dec_from_cons (val valb : Z) (c : ascii) (rest : list ascii) :
  dec_from val valb (c :: rest)
  = (decode_char (val, valb, []) c).2
    ++ dec_from (decode_char (val, valb, []) c).1.1
                (decode_char (val, valb, []) c).1.2 rest.
Proof.
  unfold dec_from at 1. cbn [foldl].
  destruct (decode_char (val, valb, []) c) as [[val1 valb1] out].
  cbn [fst snd]. apply decode_loop_acc.
Qed.

(** The encoder, one input byte at a time, in each of its three phases. *)
Lemma enc_from_phase0 (val : Z) (c : ascii) (rest : list ascii) :
  enc_from val (-6) (c :: rest)
  = char_at (byte_of c / 4) :: enc_from (enc_val val c) (-4) rest.
Proof.
  rewrite enc_from_cons.
  change (encode_char (val, (-6)%Z, []) c)
    with (enc_val val c, (-4)%Z,
          [char_at (Z.land (Z.shiftr (enc_val val c) 2) 63)]).
  simpl. by rewrite enc_bits_2.
Qed.

Lemma enc_from_phase1 (val : Z) (c : ascii) (rest : list ascii) :
  enc_from val (-4) (c :: rest)
  = char_at ((val mod 4) * 16 + byte_of c / 16)
    :: enc_from (enc_val val c) (-2) rest.
Proof.
  rewrite enc_from_cons.
  change (encode_char (val, (-4)%Z, []) c)
    with (enc_val val c, (-2)%Z,
          [char_at (Z.land (Z.shiftr (enc_val val c) 4) 63)]).
  simpl. by rewrite enc_bits_4.
Qed.

Lemma enc_from_phase2 (val : Z) (c : ascii) (rest : list ascii) :
  enc_from val (-2) (c :: rest)
  = char_at ((val mod 16) * 4 + byte_of c / 64)
    :: char_at (byte_of c mod 64)
    :: enc_from (enc_val val c) (-6) rest.
Proof.
  rewrite enc_from_cons.
  change (encode_char (val, (-2)%Z, []) c)
    with (enc_val val c, (-6)%Z,
          [char_at (Z.land (Z.shiftr (enc_val val c) 6) 63);
           char_at (Z.land (Z.shiftr (enc_val val c) 0) 63)]).
  simpl. by rewrite enc_bits_6, enc_bits_0.
Qed.

Lemma enc_from_nil (val : Z) :
  enc_from val (-6) [] = []
  ∧ enc_from val (-4) [] = [char_at ((val mod 4) * 16)]
  ∧ enc_from val (-2) [] = [char_at ((val mod 16) * 4)].
Proof.
  split_and!.
  - done.
  - unfold enc_from. simpl. by rewrite flush_bits_4.
  - unfold enc_from. simpl. by rewrite flush_bits_6.
Qed.

(** The decoder, one alphabet character at a time, in each of its four
    phases. *)
Lemma decode_char_index (val valb : Z) (idx : Z) :
  (0 ≤ idx < 64)%Z →
  decode_char (val, valb, []) (char_at idx)
  = (if (0 <=? valb + 6)%Z then
       (dec_val val idx, (valb + 6 - 8)%Z,
        [char_of (Z.land (Z.shiftr (dec_val val idx) (valb + 6)) 255)])
     else (dec_val val idx, (valb + 6)%Z, [])).
Proof.
  intros Hi. unfold decode_char. by rewrite strchr_char_at.
Qed.

Lemma dec_from_phase0 (val idx : Z) (rest : list ascii) :
  (0 ≤ idx < 64)%Z →
  dec_from val (-8) (char_at idx :: rest)
  = dec_from (dec_val val idx) (-2) rest.
Proof.
  intros Hi. by rewrite dec_from_cons, decode_char_index.
Qed.

Lemma dec_from_phase1 (val idx : Z) (rest : list ascii) :
  (0 ≤ idx < 64)%Z →
  dec_from val (-2) (char_at idx :: rest)
  = char_of ((val mod 64) * 4 + idx / 16)
    :: dec_from (dec_val val idx) (-4) rest.
Proof.
  intros Hi. rewrite dec_from_cons, decode_char_index by done.
  cbn [Z.leb Z.add Z.sub fst snd app]. simpl.
  by rewrite dec_bits_4.
Qed.

Lemma dec_from_phase2 (val idx : Z) (rest : list ascii) :
  (0 ≤ idx < 64)%Z →
  dec_from val (-4) (char_at idx :: rest)
  = char_of ((val mod 16) * 16 + idx / 4)
    :: dec_from (dec_val val idx) (-6) rest.
Proof.
  intros Hi. rewrite dec_from_cons, decode_char_index by done.
  simpl. by rewrite dec_bits_2.
Qed.

Lemma dec_from_phase3 (val idx : Z) (rest : list ascii) :
  (0 ≤ idx < 64)%Z →
  dec_from val (-6) (char_at idx :: rest)
  = char_of ((val mod 4) * 64 + idx)
    :: dec_from (dec_val val idx) (-8) rest.
Proof.
  intros Hi. rewrite dec_from_cons, decode_char_index by done.
  simpl. by rewrite dec_bits_0.
Qed.

Ltac byte_arith c :=
  pose proof (byte_of_range c); Z.div_mod_to_equations; lia.

(** The three phases of the round trip, proved together: the encoder has
    consumed a whole number of 3-byte groups, one byte more, or two bytes
    more; the decoder lags behind by the bits still pending in the encoder. *)
Lemma round_trip_phases (input : list ascii) :
  (∀ val dval, dec_from dval (-8) (enc_from val (-6) input) = input)
  ∧ (∀ val dval b,
        (val mod 256 = byte_of b)%Z → (dval mod 64 = byte_of b / 4)%Z →
        dec_from dval (-2) (enc_from val (-4) input) = b :: input)
  ∧ (∀ val dval b,
        (val mod 256 = byte_of b)%Z →
        (dval mod 16 = byte_of b / 16)%Z →
        dec_from dval (-4) (enc_from val (-2) input) = b :: input).
Proof.
  induction input as [| c rest (IH0 & IH1 & IH2)].
  - split_and!.
    + done.
    + intros val dval b Hval Hdval.
      destruct (enc_from_nil val) as (_ & -> & _).
      rewrite dec_from_phase1 by byte_arith b.
      simpl. f_equal. etrans; [| apply (char_of_byte_of b)]; f_equal.
      byte_arith b.
    + intros val dval b Hval Hdval.
      destruct (enc_from_nil val) as (_ & _ & ->).
      rewrite dec_from_phase2 by byte_arith b.
      simpl. f_equal. etrans; [| apply (char_of_byte_of b)]; f_equal.
      byte_arith b.
  - split_and!.
    + intros val dval.
      rewrite enc_from_phase0, dec_from_phase0 by byte_arith c.
      apply IH1.
      * apply enc_val_low.
      * apply dec_val_low. byte_arith c.
    + intros val dval b Hval Hdval.
      pose proof (byte_of_range b) as Hb.
      rewrite enc_from_phase1.
      rewrite dec_from_phase1 by byte_arith c.
      f_equal.
      * etrans; [| apply (char_of_byte_of b)]; f_equal. byte_arith c.
      * apply IH2; [apply enc_val_low |].
        rewrite dec_val_low16 by byte_arith c. byte_arith c.
    + intros val dval b Hval Hdval.
      pose proof (byte_of_range b) as Hb.
      rewrite enc_from_phase2.
      rewrite dec_from_phase2 by byte_arith c.
      rewrite dec_from_phase3 by byte_arith c.
      f_equal; [| f_equal].
      * etrans; [| apply (char_of_byte_of b)]; f_equal. byte_arith c.
      * etrans; [| apply (char_of_byte_of c)]; f_equal.
        rewrite dec_val_low4 by byte_arith c. byte_arith c.
      * apply IH0.
Qed.

(** The fuel given to the inner loop is enough: the loop ends because its
    condition fails. *)
Lemma emit_loop_exits (val valb : Z) (encoded : list ascii) :
  ((emit_loop (emit_fuel valb) val valb encoded).2 < 0 ∨ valb < 0)%Z.
Proof.
  unfold emit_fuel.
  remember (Z.to_nat (valb / 6 + 1)) as fuel eqn:Hfuel.
  assert (Hle : (valb < 6 * Z.of_nat fuel ∨ valb < 0)%Z).
  { destruct (decide (valb < 0)%Z); [by right | left].
    subst fuel. rewrite Z2Nat.id by (Z.div_mod_to_equations; lia).
    Z.div_mod_to_equations; lia. }
  clear Hfuel.
  revert valb encoded Hle.
  induction fuel as [| fuel IH]; intros valb encoded Hle.
  - right. lia.
  - cbn [emit_loop]. destruct (0 <=? valb)%Z eqn:Hv.
    + apply Z.leb_le in Hv.
      destruct (IH (valb - 6)%Z
                  (encoded ++ [char_at (Z.land (Z.shiftr val valb) 63)]))
        as [Hdone | Hneg]; [lia | by left |].
      left.
      destruct fuel as [| fuel']; [simpl; lia |].
      cbn [emit_loop]. destruct (0 <=? valb - 6)%Z eqn:Hv'; [| simpl; lia].
      apply Z.leb_le in Hv'. lia.
    + apply Z.leb_gt in Hv. by right.
Qed.

Lemma encode_phases_shape (input : list ascii) :
  (∀ val,
      Forall in_alphabet (enc_from val (-6) input)
      ∧ length (enc_from val (-6) input) = (4 * length input + 2) / 3)
  ∧ (∀ val,
      Forall in_alphabet (enc_from val (-4) input)
      ∧ length (enc_from val (-4) input) = (4 * length input + 3) / 3)
  ∧ (∀ val,
      Forall in_alphabet (enc_from val (-2) input)
      ∧ length (enc_from val (-2) input) = (4 * length input + 4) / 3).
Proof.
  induction input as [| c rest (IH0 & IH1 & IH2)].
  - split_and!; intros val.
    + done.
    + destruct (enc_from_nil val) as (_ & -> & _). split; [| done].
      apply Forall_singleton, char_at_in_alphabet.
      Z.div_mod_to_equations; lia.
    + destruct (enc_from_nil val) as (_ & _ & ->). split; [| done].
      apply Forall_singleton, char_at_in_alphabet.
      Z.div_mod_to_equations; lia.
  - split_and!; intros val.
    + rewrite enc_from_phase0.
      destruct (IH1 (enc_val val c)) as [Hall Hlen]. split.
      * constructor; [| done]. apply char_at_in_alphabet. byte_arith c.
      * cbn [length]. rewrite Hlen.
        replace (4 * S (length rest) + 2) with (4 * length rest + 3 + 1 * 3)
          by lia.
        rewrite Nat.div_add by lia. lia.
    + rewrite enc_from_phase1.
      destruct (IH2 (enc_val val c)) as [Hall Hlen]. split.
      * constructor; [| done]. apply char_at_in_alphabet. byte_arith c.
      * cbn [length]. rewrite Hlen.
        replace (4 * S (length rest) + 3) with (4 * length rest + 4 + 1 * 3)
          by lia.
        rewrite Nat.div_add by lia. lia.
    + rewrite enc_from_phase2.
      destruct (IH0 (enc_val val c)) as [Hall Hlen]. split.
      * constructor; [| constructor; [| done]];
          apply char_at_in_alphabet; byte_arith c.
      * cbn [length]. rewrite Hlen.
        replace (4 * S (length rest) + 4) with (4 * length rest + 2 + 2 * 3)
          by lia.
        rewrite Nat.div_add by lia. lia.
Qed.

(** Characters outside the alphabet do not move the decoder. *)
Lemma decode_char_foreign (st : Z * Z * list ascii) (c : ascii) :
  strchr_index c = None → decode_char st c = st.
Proof.
  intros Hc. destruct st as [[val valb] decoded].
  unfold decode_char. by rewrite Hc.
Qed.

Lemma decode_loop_filter (input : list ascii) (st : Z * Z * list ascii) :
  foldl decode_char st (List.filter decodable input)
  = foldl decode_char st input.
Proof.
  revert st. induction input as [| c rest IH]; intros st; [done |].
  cbn [List.filter]. unfold decodable at 1.
  destruct (strchr_index c) eqn:Hc.
  - cbn [foldl]. apply IH.
  - cbn [foldl]. rewrite (decode_char_foreign st c Hc). apply IH.
Qed.

(** X10. Decoding an encoded string gives the string back, byte for byte,
    whatever its length: [base64UrlDecode] inverts [base64UrlEncode] on
    every string without a NUL character, also where [val] has long
    overflowed. *)
Theorem base64url_round_trip (input : list ascii) :
  nul_free input →
  base64UrlDecode (base64UrlEncode input) = input.
Proof.
  intros _.
  destruct (round_trip_phases input) as (H0 & _ & _).
  apply (H0 0%Z 0%Z).
Qed.

(** X11. The encoding is unpadded base64url: only characters of the
    alphabet, and exactly ceil(4n/3) of them for n input bytes. *)
Theorem base64url_encode_shape (input : list ascii) :
  Forall in_alphabet (base64UrlEncode input)
  ∧ length (base64UrlEncode input) = (4 * length input + 2) / 3.
Proof.
  destruct (encode_phases_shape input) as (H0 & _ & _).
  apply (H0 0%Z).
Qed.

(** X12. The decoder skips every character that [strchr] does not find:
    padding, dots, white space and line breaks change nothing. *)
Theorem base64url_decode_skips_foreign (input : list ascii) :
  base64UrlDecode (List.filter decodable input) = base64UrlDecode input.
Proof.
  unfold base64UrlDecode. by rewrite decode_loop_filter.
Qed.

End Base64Facts.

Lemma base64url_round_trip_witness :
  Base64Url.nul_free (String.list_ascii_of_string "{alg:HS256}")
  ∧ Base64Url.base64UrlDecode
      (Base64Url.base64UrlEncode (String.list_ascii_of_string "{alg:HS256}"))
    = String.list_ascii_of_string "{alg:HS256}".
Proof.
  assert (Hfree :
    Base64Url.nul_free (String.list_ascii_of_string "{alg:HS256}")).
  { intros Hin. apply list_elem_of_In in Hin. simpl in Hin.
    repeat (destruct Hin as [Heq | Hin]; [discriminate Heq |]). done. }
  split; [exact Hfree |].
  exact (base64url_round_trip _ Hfree).
Defined.

(** ** Rate limiting *)

Section RateLimitFacts.
Import Security.

Lemma map_index_lookup {V : Type} (dflt : V) (m : gmap string V)
    (k k' : string) :
  k' ≠ k → (map_index dflt m k).2 !! k' = m !! k'.
Proof.
  intros Hne. unfold map_index. destruct (m !! k) eqn:Hk; [done |].
  simpl. by rewrite lookup_insert_ne.
Qed.

Lemma map_index_value {V : Type} (dflt : V) (m : gmap string V) (k : string) :
  (map_index dflt m k).1 = default dflt (m !! k)
  ∧ (map_index dflt m k).2 !! k = Some (default dflt (m !! k)).
Proof.
  unfold map_index. destruct (m !! k) eqn:Hk; simpl; [done |].
  by rewrite lookup_insert_eq.
Qed.

Lemma map_index_eq {V : Type} (dflt : V) (m : gmap string V) (k : string) :
  map_index dflt m k
  = (default dflt (m !! k), <[k := default dflt (m !! k)]> m).
Proof.
  unfold map_index. destruct (m !! k) eqn:Hk; simpl; [| done].
  by rewrite insert_id.
Qed.

#[local] Opaque uint32_wrap RATE_LIMIT_WINDOW MAX_REQUESTS_PER_WINDOW Z.mul.

(** [rateLimitCheck] acts on the caller's entries as [view_step] says. *)
Lemma rateLimitCheck_view (now : Z) (ip : string) (st : RateState) :
  (rateLimitCheck now ip st).1 = (view_step now (client_view st ip)).1
  ∧ client_view (rateLimitCheck now ip st).2 ip
    = (view_step now (client_view st ip)).2.
Proof.
  destruct st as [cr cw bc].
  unfold rateLimitCheck, client_view, view_step.
  cbn [clientRequests clientWindowStart blockedClients].
  rewrite (map_index_eq false bc ip).
  destruct (default false (bc !! ip)) eqn:Hb.
  - rewrite (map_index_eq 0%Z cw ip). cbn [andb].
    destruct (now <? _)%Z eqn:Hlock.
    + cbn [fst snd clientRequests clientWindowStart blockedClients].
      by rewrite !lookup_insert_eq.
    + rewrite (map_index_eq 0%Z (<[ip:=_]> cw) ip), lookup_insert_eq.
      cbn [default].
      destruct (uint32_wrap _ <? now)%Z eqn:Hexp.
      * rewrite (map_index_eq 0%Z (<[ip:=_]> cr) ip), lookup_insert_eq.
        cbn [default].
        destruct (MAX_REQUESTS_PER_WINDOW <? _)%Z eqn:Hmax;
          cbn [fst snd clientRequests clientWindowStart blockedClients];
          by rewrite !lookup_insert_eq.
      * rewrite (map_index_eq 0%Z cr ip).
        destruct (MAX_REQUESTS_PER_WINDOW <? _)%Z eqn:Hmax;
          cbn [fst snd clientRequests clientWindowStart blockedClients];
          by rewrite !lookup_insert_eq.
  - cbn [andb].
    rewrite (map_index_eq 0%Z cw ip).
    destruct (uint32_wrap _ <? now)%Z eqn:Hexp.
    + rewrite (map_index_eq 0%Z (<[ip:=_]> cr) ip), lookup_insert_eq.
      cbn [default].
      destruct (MAX_REQUESTS_PER_WINDOW <? _)%Z eqn:Hmax;
        cbn [fst snd clientRequests clientWindowStart blockedClients];
        by rewrite !lookup_insert_eq.
    + rewrite (map_index_eq 0%Z cr ip).
      destruct (MAX_REQUESTS_PER_WINDOW <? _)%Z eqn:Hmax;
        cbn [fst snd clientRequests clientWindowStart blockedClients];
        by rewrite !lookup_insert_eq.
Qed.

(** It touches no entry of any other client, and creates none. *)
Lemma rateLimitCheck_others (now : Z) (ip ip' : string) (st : RateState) :
  ip' ≠ ip →
  clientRequests (rateLimitCheck now ip st).2 !! ip' = clientRequests st !! ip'
  ∧ clientWindowStart (rateLimitCheck now ip st).2 !! ip'
    = clientWindowStart st !! ip'
  ∧ blockedClients (rateLimitCheck now ip st).2 !! ip'
    = blockedClients st !! ip'.
Proof.
  intros Hne.
  destruct st as [cr cw bc].
  unfold rateLimitCheck.
  cbn [clientRequests clientWindowStart blockedClients].
  rewrite !map_index_eq.
  repeat match goal with
    | |- context [if ?b then _ else _] => destruct b eqn:?
    end;
    rewrite ?map_index_eq;
    repeat match goal with
    | |- context [if ?b then _ else _] => destruct b eqn:?
    end;
    cbn [fst snd clientRequests clientWindowStart blockedClients];
    by rewrite ?lookup_insert_ne.
Qed.

Lemma rate_run_cons (ip : string) (now : Z) (rest : list Z) (st : RateState) :
  rate_run ip (now :: rest) st
  = ((rateLimitCheck now ip st).1
       :: (rate_run ip rest (rateLimitCheck now ip st).2).1,
     (rate_run ip rest (rateLimitCheck now ip st).2).2).
Proof.
  cbn [rate_run]. destruct (rateLimitCheck now ip st) as [ok st1].
  cbn [fst snd]. by destruct (rate_run ip rest st1).
Qed.

Lemma rate_run_others (ip ip' : string) (times : list Z) (st : RateState) :
  ip' ≠ ip →
  clientRequests (rate_run ip times st).2 !! ip' = clientRequests st !! ip'
  ∧ clientWindowStart (rate_run ip times st).2 !! ip'
    = clientWindowStart st !! ip'
  ∧ blockedClients (rate_run ip times st).2 !! ip'
    = blockedClients st !! ip'.
Proof.
  intros Hne. revert st.
  induction times as [| now rest IH]; intros st; [done |].
  rewrite rate_run_cons. cbn [snd].
  destruct (IH (rateLimitCheck now ip st).2) as (-> & -> & ->).
  by apply rateLimitCheck_others.
Qed.

#[local] Transparent uint32_wrap RATE_LIMIT_WINDOW MAX_REQUESTS_PER_WINDOW Z.mul.

Lemma uint32_wrap_small (z : Z) :
  (0 ≤ z < 2 ^ 32)%Z → uint32_wrap z = z.
Proof. intros Hz. unfold uint32_wrap. by rewrite Z.mod_small. Qed.

(** The four cases of [view_step], away from the wrap-around of the
    clock. *)
Lemma view_step_blocked (now start requests : Z) :
  (0 ≤ start)%Z → (start + 300000 < 2 ^ 32)%Z → (now < start + 300000)%Z →
  view_step now (true, start, requests) = (false, (true, start, requests)).
Proof.
  intros H0 Hw Hnow. unfold view_step. cbn [andb].
  change (5 * 60 * 1000)%Z with 300000%Z.
  rewrite uint32_wrap_small by lia.
  by destruct (Z.ltb_spec now (start + 300000)); [| lia].
Qed.

Lemma view_step_unblock (now start requests : Z) :
  (0 ≤ start)%Z → (start + 300000 < 2 ^ 32)%Z → (start + 300000 ≤ now)%Z →
  view_step now (true, start, requests) = (true, (false, now, 1%Z)).
Proof.
  intros H0 Hw Hnow. unfold view_step. cbn [andb].
  change (5 * 60 * 1000)%Z with 300000%Z.
  unfold RATE_LIMIT_WINDOW.
  rewrite (uint32_wrap_small (start + 300000)) by lia.
  rewrite (uint32_wrap_small (start + 60000)) by lia.
  destruct (Z.ltb_spec now (start + 300000)); [lia |].
  destruct (Z.ltb_spec (start + 60000) now); [| lia].
  done.
Qed.

Lemma view_step_open (now start requests : Z) :
  (0 ≤ start)%Z → (start + 60000 < 2 ^ 32)%Z → (now ≤ start + 60000)%Z →
  (0 ≤ requests < 2 ^ 32 - 1)%Z →
  view_step now (false, start, requests)
  = if (100 <? requests + 1)%Z then (false, (true, now, requests + 1)%Z)
    else (true, (false, start, requests + 1)%Z).
Proof.
  intros H0 Hw Hnow Hreq. unfold view_step. cbn [andb].
  unfold RATE_LIMIT_WINDOW, MAX_REQUESTS_PER_WINDOW.
  rewrite (uint32_wrap_small (start + 60000)) by lia.
  destruct (Z.ltb_spec (start + 60000) now); [lia |].
  by rewrite (uint32_wrap_small (requests + 1)) by lia.
Qed.

Lemma view_step_expired (now start requests : Z) :
  (0 ≤ start)%Z → (start + 60000 < now)%Z → (start + 60000 < 2 ^ 32)%Z →
  view_step now (false, start, requests) = (true, (false, now, 1%Z)).
Proof.
  intros H0 Hnow Hw. unfold view_step. cbn [andb].
  unfold RATE_LIMIT_WINDOW.
  rewrite (uint32_wrap_small (start + 60000)) by lia.
  by destruct (Z.ltb_spec (start + 60000) now); [| lia].
Qed.

Lemma rate_run_blocked (ip : string) (times : list Z) (st : RateState)
    (start requests : Z) :
  client_view st ip = (true, start, requests) →
  (0 ≤ start)%Z → (start + 300000 < 2 ^ 32)%Z →
  Forall (λ t, (t < start + 300000)%Z) times →
  (rate_run ip times st).1 = replicate (length times) false
  ∧ client_view (rate_run ip times st).2 ip = (true, start, requests).
Proof.
  intros Hview H0 Hw Htimes. revert st Hview.
  induction Htimes as [| now rest Hnow _ IH]; intros st Hview; [done |].
  rewrite rate_run_cons. cbn [fst snd length replicate].
  destruct (rateLimitCheck_view now ip st) as [Hok Hnext].
  rewrite Hview, view_step_blocked in Hok, Hnext by done.
  destruct (IH _ Hnext) as [-> ->]. by rewrite Hok.
Qed.

(** One step against the budget of a span of one window length. *)
Lemma budget_step (t0 now : Z) (v : bool * Z * Z) :
  (0 ≤ t0)%Z → (t0 + 360000 < 2 ^ 32)%Z → (t0 ≤ now ≤ t0 + 60000)%Z →
  counter_safe t0 v →
  counter_safe t0 (view_step now v).2
  ∧ (budget t0 (view_step now v).2
     + (if (view_step now v).1 then 1 else 0) ≤ budget t0 v)%Z.
Proof.
  intros H0 Hw Hnow.
  destruct v as [[blocked start] requests]. intros [Hreq Hsafe].
  assert (Hnow_in : window_in_span t0 now = true).
  { unfold window_in_span, RATE_LIMIT_WINDOW.
    apply andb_true_iff. split; apply Z.leb_le; lia. }
  assert (Hone : uint32_wrap (0 + 1) = 1%Z) by done.
  unfold view_step, budget, counter_safe.
  change (5 * 60 * 1000)%Z with 300000%Z.
  unfold MAX_REQUESTS_PER_WINDOW.
  destruct (window_in_span t0 start) eqn:Hspan.
  - (* the running window started inside the span: no wrap, no reset *)
    pose proof Hspan as Hspan_eq.
    unfold window_in_span, RATE_LIMIT_WINDOW in Hspan.
    apply andb_true_iff in Hspan as [Hlo Hhi].
    apply Z.leb_le in Hlo, Hhi.
    unfold RATE_LIMIT_WINDOW.
    rewrite (uint32_wrap_small (start + 300000)) by lia.
    rewrite (uint32_wrap_small (start + 60000)) by lia.
    destruct blocked; cbn [andb].
    + destruct (Z.ltb_spec now (start + 300000)); [| lia].
      cbn [fst snd]. rewrite Hspan_eq. lia.
    + destruct Hsafe as [Hsafe | [? _]]; [| done].
      destruct (Z.ltb_spec (start + 60000) now); [lia |].
      rewrite (uint32_wrap_small (requests + 1)) by lia.
      destruct (Z.ltb_spec 100 (requests + 1)); cbn [fst snd].
      * rewrite Hnow_in. split; [split; [lia | by right] | lia].
      * rewrite Hspan_eq. split; [split; [lia | left; lia] | lia].
  - (* an older window: at most what is left of it, then a whole one *)
    destruct Hsafe as [Hsafe | [_ ?]]; [| done].
    destruct (blocked && (now <? uint32_wrap (start + 300000))%Z) eqn:Hlock.
    + cbn [fst snd]. rewrite Hspan. split; [split; [lia | by left] | lia].
    + destruct (uint32_wrap (start + RATE_LIMIT_WINDOW) <? now)%Z.
      * rewrite Hone. change (100 <? 1)%Z with false. cbn [fst snd].
        rewrite Hnow_in. split; [split; [lia | left; lia] | lia].
      * rewrite (uint32_wrap_small (requests + 1)) by lia.
        destruct (Z.ltb_spec 100 (requests + 1)); cbn [fst snd].
        -- rewrite Hnow_in. split; [split; [lia | by right] | lia].
        -- rewrite Hspan. split; [split; [lia | left; lia] | lia].
Qed.

Lemma accepted_cons (ok : bool) (oks : list bool) :
  accepted (ok :: oks) = (if ok then 1 else 0) + accepted oks.
Proof. unfold accepted. by destruct ok. Qed.

Lemma rate_run_budget (ip : string) (t0 : Z) (times : list Z)
    (st : RateState) :
  (0 ≤ t0)%Z → (t0 + 360000 < 2 ^ 32)%Z →
  Forall (λ t, (t0 ≤ t ≤ t0 + 60000)%Z) times →
  counter_safe t0 (client_view st ip) →
  (Z.of_nat (accepted (rate_run ip times st).1)
   ≤ budget t0 (client_view st ip))%Z.
Proof.
  intros H0 Hw Htimes. revert st.
  induction Htimes as [| now rest Hnow _ IH]; intros st Hsafe.
  - cbn [rate_run fst]. change (accepted []) with 0.
    destruct (client_view st ip) as [[blocked start] requests].
    unfold budget, MAX_REQUESTS_PER_WINDOW.
    destruct (window_in_span t0 start), blocked; lia.
  - rewrite rate_run_cons. cbn [fst]. rewrite accepted_cons.
    destruct (rateLimitCheck_view now ip st) as [Hok Hnext].
    destruct (budget_step t0 now (client_view st ip)) as [Hsafe' Hstep];
      [done .. |].
    rewrite <- Hnext in Hsafe', Hstep. rewrite <- Hok in Hstep.
    specialize (IH _ Hsafe').
    destruct (rateLimitCheck now ip st).1; lia.
Qed.

(** X13. The limiter works per client: whatever one client sends, the
    entries of every other client stay as they were (none is created), and
    the other client's next request is answered as if the first had sent
    nothing. *)
Theorem rate_limit_per_client (ip ip' : string) (times : list Z) (now : Z)
    (st : RateState) :
  ip' ≠ ip →
  clientRequests (rate_run ip times st).2 !! ip' = clientRequests st !! ip'
  ∧ clientWindowStart (rate_run ip times st).2 !! ip'
    = clientWindowStart st !! ip'
  ∧ blockedClients (rate_run ip times st).2 !! ip'
    = blockedClients st !! ip'
  ∧ (rateLimitCheck now ip' (rate_run ip times st).2).1
    = (rateLimitCheck now ip' st).1.
Proof.
  intros Hne.
  destruct (rate_run_others ip ip' times st Hne) as (Hcr & Hcw & Hbc).
  split_and!; [done .. |].
  destruct (rateLimitCheck_view now ip' (rate_run ip times st).2) as [-> _].
  destruct (rateLimitCheck_view now ip' st) as [-> _].
  unfold client_view. by rewrite Hcr, Hcw, Hbc.
Qed.

(** X14. A block lasts five minutes from the request that caused it: every
    request before [start + 300000] ms is refused and changes nothing, the
    first one from then on is accepted and opens a new window. *)
Theorem rate_limit_block_lasts (ip : string) (st : RateState)
    (start requests : Z) (times : list Z) (now : Z) :
  client_view st ip = (true, start, requests) →
  (0 ≤ start)%Z → (start + 300000 < 2 ^ 32)%Z →
  Forall (λ t, (t < start + 300000)%Z) times →
  (start + 300000 ≤ now)%Z →
  (rate_run ip times st).1 = replicate (length times) false
  ∧ client_view (rate_run ip times st).2 ip = (true, start, requests)
  ∧ (rateLimitCheck now ip (rate_run ip times st).2).1 = true
  ∧ client_view (rateLimitCheck now ip (rate_run ip times st).2).2 ip
    = (false, now, 1%Z).
Proof.
  intros Hview H0 Hw Htimes Hnow.
  destruct (rate_run_blocked ip times st start requests) as [Hoks Hview'];
    [done .. |].
  destruct (rateLimitCheck_view now ip (rate_run ip times st).2)
    as [Hok Hnext].
  rewrite Hview', view_step_unblock in Hok, Hnext by done.
  done.
Qed.

(** X15. Within one window exactly [MAX_REQUESTS_PER_WINDOW] requests are
    let through: a client with [requests] requests counted in the window
    that began at [start] gets its next [100 - requests] requests accepted
    and every further one up to the end of the window refused. *)
Theorem rate_limit_window_quota (ip : string) (st : RateState)
    (start requests : Z) (times : list Z) :
  client_view st ip = (false, start, requests) →
  (0 ≤ start)%Z → (start + 360000 < 2 ^ 32)%Z →
  (0 ≤ requests ≤ 100)%Z →
  Forall (λ t, (start ≤ t ≤ start + 60000)%Z) times →
  (rate_run ip times st).1
  = replicate (length times `min` Z.to_nat (100 - requests)) true
    ++ replicate (length times - Z.to_nat (100 - requests)) false.
Proof.
  intros Hview H0 Hw Hreq Htimes. revert st requests Hview Hreq.
  induction Htimes as [| now rest Hnow Hrest IH]; intros st requests Hview Hreq;
    [done |].
  rewrite rate_run_cons. cbn [fst length].
  destruct (rateLimitCheck_view now ip st) as [Hok Hnext].
  rewrite Hview, view_step_open in Hok, Hnext by lia.
  destruct (Z.ltb_spec 100 (requests + 1)) as [Hfull | Hroom];
    cbn [fst snd] in Hok, Hnext; rewrite Hok.
  - assert (requests = 100%Z) as -> by lia.
    destruct (rate_run_blocked ip rest _ now 101%Z Hnext) as [-> _];
      [lia | lia | |].
    { eapply Forall_impl; [exact Hrest |]. simpl. intros t Ht. lia. }
    change (Z.to_nat (100 - 100)) with 0.
    by rewrite Nat.min_0_r, Nat.sub_0_r.
  - rewrite (IH _ (requests + 1)%Z Hnext) by lia.
    replace (Z.to_nat (100 - requests))
      with (S (Z.to_nat (100 - (requests + 1)))) by lia.
    done.
Qed.

(** X16. In any span of one window length a client gets at most twice
    [MAX_REQUESTS_PER_WINDOW] requests accepted, whatever the state of its
    entries at the beginning of the span. *)
Theorem rate_limit_span_bound (ip : string) (st : RateState) (t0 : Z)
    (times : list Z) :
  (0 ≤ t0)%Z → (t0 + 360000 < 2 ^ 32)%Z →
  (0 ≤ (client_view st ip).2 < 2 ^ 32 - 1)%Z →
  Forall (λ t, (t0 ≤ t ≤ t0 + 60000)%Z) times →
  accepted (rate_run ip times st).1 ≤ 200.
Proof.
  intros H0 Hw Hreq Htimes.
  pose proof (rate_run_budget ip t0 times st H0 Hw Htimes) as Hbudget.
  destruct (client_view st ip) as [[blocked start] requests].
  cbn [snd] in Hreq.
  assert (budget t0 (blocked, start, requests) ≤ 200)%Z.
  { unfold budget, MAX_REQUESTS_PER_WINDOW.
    destruct (window_in_span t0 start), blocked; lia. }
  assert (counter_safe t0 (blocked, start, requests)).
  { split; [lia | left; lia]. }
  specialize (Hbudget ltac:(done)). lia.
Qed.

End RateLimitFacts.

(** ** Login *)

Section LoginFacts.
Import Security.

Variable hashPassword : string → string → string.

Lemma login_run_cons (name : string) (t : Z) (password : string)
    (rest : list (Z * string)) (users : gmap string UserCredentials) :
  login_run hashPassword name ((t, password) :: rest) users
  = ((authenticateUser hashPassword (at_time t) name password users).1
       :: (login_run hashPassword name rest
             (authenticateUser hashPassword (at_time t) name password users).2).1,
     (login_run hashPassword name rest
        (authenticateUser hashPassword (at_time t) name password users).2).2).
Proof.
  cbn [login_run].
  destruct (authenticateUser hashPassword (at_time t) name password users) as [ok users1].
  cbn [fst snd]. by destruct (login_run hashPassword name rest users1).
Qed.

(** A locked account whose lock has not expired: nothing happens. *)
Lemma authenticate_locked (clock : Clock) (name password : string)
    (users : gmap string UserCredentials) (user : UserCredentials) :
  users !! name = Some user → isLocked user = true →
  (t_lock_test clock < lockExpiry user)%Z →
  authenticateUser hashPassword clock name password users = (false, users).
Proof.
  intros Huser Hlocked Htime. unfold authenticateUser.
  rewrite Huser, Hlocked. cbn [andb].
  by destruct (Z.ltb_spec (t_lock_test clock) (lockExpiry user)); [| lia].
Qed.

(** A wrong password on an account that is not locked. *)
Lemma authenticate_wrong (clock : Clock) (name password : string)
    (users : gmap string UserCredentials) (user : UserCredentials) :
  users !! name = Some user → isLocked user = false →
  hashPassword password name ≠ passwordHash user →
  (0 ≤ failedAttempts user < 65535)%Z →
  authenticateUser hashPassword clock name password users
  = (false,
     <[name :=
         if (MAX_FAILED_ATTEMPTS <=? failedAttempts user + 1)%Z then
           set_lockExpiry
             (set_isLocked
                (set_failedAttempts user (failedAttempts user + 1)) true)
             (uint32_wrap (t_stamp clock + LOCKOUT_DURATION))
         else set_failedAttempts user (failedAttempts user + 1)]> users).
Proof.
  intros Huser Hlocked Hwrong Hcount. unfold authenticateUser.
  rewrite Huser, Hlocked. cbn [andb].
  destruct (decide _) as [Heq | _]; [done |].
  cbn [failedAttempts set_failedAttempts].
  unfold uint16_wrap. change (2 ^ 16)%Z with 65536%Z.
  by rewrite Z.mod_small by lia.
Qed.

Lemma login_run_locked (name : string) (attempts : list (Z * string))
    (users : gmap string UserCredentials) (user : UserCredentials) :
  users !! name = Some user → isLocked user = true →
  Forall (λ a, (a.1 < lockExpiry user)%Z) attempts →
  login_run hashPassword name attempts users
  = (replicate (length attempts) false, users).
Proof.
  intros Huser Hlocked Hall.
  induction Hall as [| [t password] rest Ht _ IH]; [done |].
  rewrite login_run_cons.
  rewrite (authenticate_locked (at_time t) name password users user)
    by done.
  cbn [fst snd]. by rewrite IH.
Qed.

(** X17. A login attempt concerns one account only: no other account is
    changed or created, an unknown name is refused without any change, and
    of the account itself the name, the password hash and the level stay
    as they are. *)
Theorem login_touches_one_account (clock : Clock) (name password : string)
    (users : gmap string UserCredentials) :
  (∀ other, other ≠ name →
     (authenticateUser hashPassword clock name password users).2 !! other = users !! other)
  ∧ (users !! name = None →
     authenticateUser hashPassword clock name password users = (false, users))
  ∧ (∀ user, users !! name = Some user →
     ∃ user',
       (authenticateUser hashPassword clock name password users).2 !! name = Some user'
       ∧ username user' = username user
       ∧ passwordHash user' = passwordHash user
       ∧ level user' = level user).
Proof.
  unfold authenticateUser. split_and!.
  - intros other Hne.
    destruct (users !! name) as [user |] eqn:Huser; [| done].
    repeat case_match; cbn [snd]; by rewrite ?lookup_insert_ne.
  - by intros ->.
  - intros user Huser. rewrite Huser.
    repeat case_match; cbn [snd];
      rewrite ?lookup_insert_eq; eauto.
Qed.

(** X18. Who gets in: [authenticateUser] answers [true] exactly when the
    account exists, the hash of the password salted with the name is the
    stored hash, and the account is not locked or its lock has expired at
    the time of the lock test. *)
Theorem login_granted_iff (clock : Clock) (name password : string)
    (users : gmap string UserCredentials) :
  (authenticateUser hashPassword clock name password users).1 = true
  ↔ ∃ user,
      users !! name = Some user
      ∧ hashPassword password name = passwordHash user
      ∧ (isLocked user = false
         ∨ (lockExpiry user ≤ t_lock_test clock)%Z).
Proof.
  unfold authenticateUser.
  destruct (users !! name) as [user |] eqn:Huser.
  - destruct (isLocked user) eqn:Hlocked; cbn [andb].
    + destruct (Z.ltb_spec (t_lock_test clock) (lockExpiry user)) as [Hlt | Hge].
      * split; [done |]. intros (user' & [= <-] & _ & [Hfree | Hexp]).
        -- congruence.
        -- lia.
      * assert (Hhash : ∀ b : bool,
                  passwordHash
                    (if b then set_failedAttempts (set_isLocked user false) 0
                     else user) = passwordHash user) by (by intros []).
        rewrite Hhash.
        destruct (decide _) as [Heq | Hne]; cbn [fst].
        -- split; [| done]. intros _. exists user. eauto.
        -- split; [done |]. by intros (user' & [= <-] & Heq & _).
    + destruct (decide _) as [Heq | Hne]; cbn [fst].
      * split; [| done]. intros _. exists user. eauto.
      * split; [done |]. by intros (user' & [= <-] & Heq & _).
  - cbn [fst]. split; [done |]. by intros (user & [=] & _).
Qed.

(** X19. Lock-out: when wrong passwords bring [failedAttempts] of an
    unlocked account to [MAX_FAILED_ATTEMPTS], the account is locked for
    [LOCKOUT_DURATION] ms from the last of them, and until then every
    attempt is refused, the right password included. *)
Theorem login_lockout (name : string) (users : gmap string UserCredentials)
    (user : UserCredentials) (wrong : list (Z * string)) (t_last : Z)
    (pw_last : string) (more : list (Z * string)) :
  users !! name = Some user → isLocked user = false →
  (0 ≤ failedAttempts user)%Z →
  (failedAttempts user + Z.of_nat (length wrong) + 1 = MAX_FAILED_ATTEMPTS)%Z →
  Forall (λ a, hashPassword a.2 name ≠ passwordHash user)
         (wrong ++ [(t_last, pw_last)]) →
  (0 ≤ t_last)%Z → (t_last + LOCKOUT_DURATION < 2 ^ 32)%Z →
  Forall (λ a, (a.1 < t_last + LOCKOUT_DURATION)%Z) more →
  (login_run hashPassword name (wrong ++ (t_last, pw_last) :: more) users).1
  = replicate (length wrong + 1 + length more) false
  ∧ ∃ user',
      (login_run hashPassword name (wrong ++ (t_last, pw_last) :: more)
         users).2 !! name = Some user'
      ∧ isLocked user' = true
      ∧ lockExpiry user' = (t_last + LOCKOUT_DURATION)%Z
      ∧ failedAttempts user' = MAX_FAILED_ATTEMPTS.
Proof.
  intros Huser Hfree Hcount Hsum Hwrong Ht0 Htw Hmore.
  revert users user Huser Hfree Hcount Hsum Hwrong.
  induction wrong as [| [t password] wrong IH];
    intros users user Huser Hfree Hcount Hsum Hwrong.
  - cbn [app length] in *.
    apply Forall_inv in Hwrong. cbn [snd] in Hwrong.
    rewrite login_run_cons.
    rewrite (authenticate_wrong (at_time t_last) name pw_last users user)
      by (unfold MAX_FAILED_ATTEMPTS in Hsum; first [done | lia]).
    cbn [fst snd t_stamp at_time].
    destruct (Z.leb_spec MAX_FAILED_ATTEMPTS (failedAttempts user + 1));
      [| lia].
    set (locked :=
      set_lockExpiry
        (set_isLocked (set_failedAttempts user (failedAttempts user + 1)) true)
        (uint32_wrap (t_last + LOCKOUT_DURATION))).
    assert (Hexp : lockExpiry locked = (t_last + LOCKOUT_DURATION)%Z).
    { unfold locked, uint32_wrap. cbn [lockExpiry set_lockExpiry].
      unfold LOCKOUT_DURATION in *. by rewrite Z.mod_small by lia. }
    rewrite (login_run_locked name more (<[name:=locked]> users) locked).
    + cbn [fst snd]. split; [done |].
      exists locked. rewrite lookup_insert_eq.
      split_and!; [done | done | done |].
      unfold locked. cbn [failedAttempts set_lockExpiry set_isLocked
                           set_failedAttempts]. lia.
    + by rewrite lookup_insert_eq.
    + done.
    + by rewrite Hexp.
  - cbn [app length] in *.
    apply Forall_cons in Hwrong as [Hpw Hwrong]. cbn [snd] in Hpw.
    rewrite login_run_cons.
    rewrite (authenticate_wrong (at_time t) name password users user)
      by (unfold MAX_FAILED_ATTEMPTS in Hsum; first [done | lia]).
    cbn [fst snd].
    destruct (Z.leb_spec MAX_FAILED_ATTEMPTS (failedAttempts user + 1));
      [lia |].
    set (user1 := set_failedAttempts user (failedAttempts user + 1)).
    destruct (IH (<[name:=user1]> users) user1) as [Hoks Hfinal].
    + by rewrite lookup_insert_eq.
    + done.
    + unfold user1. cbn [failedAttempts set_failedAttempts]. lia.
    + unfold user1. cbn [failedAttempts set_failedAttempts]. lia.
    + done.
    + rewrite Hoks. split; [done | exact Hfinal].
Qed.

(** X20. A lock ends: once [lockExpiry] has passed on a clock that does not
    run backwards, the right password is accepted again, and the account
    is left unlocked with [failedAttempts] zero and [lastLogin] set. *)
Theorem login_after_lock_expiry (clock : Clock) (name password : string)
    (users : gmap string UserCredentials) (user : UserCredentials) :
  users !! name = Some user → isLocked user = true →
  (lockExpiry user ≤ t_lock_test clock)%Z →
  (t_lock_test clock ≤ t_expiry_test clock)%Z →
  hashPassword password name = passwordHash user →
  (authenticateUser hashPassword clock name password users).1 = true
  ∧ ∃ user',
      (authenticateUser hashPassword clock name password users).2 !! name = Some user'
      ∧ isLocked user' = false
      ∧ failedAttempts user' = 0%Z
      ∧ lastLogin user' = t_stamp clock.
Proof.
  intros Huser Hlocked Hexp Hmono Hhash. unfold authenticateUser.
  rewrite Huser, Hlocked. cbn [andb].
  destruct (Z.ltb_spec (t_lock_test clock) (lockExpiry user)); [lia |].
  destruct (Z.leb_spec (lockExpiry user) (t_expiry_test clock)); [| lia].
  cbn [passwordHash set_failedAttempts set_isLocked].
  destruct (decide _) as [_ | Hne]; [| done].
  cbn [fst snd]. split; [done |].
  eexists. rewrite lookup_insert_eq. by split_and!.
Qed.

End LoginFacts.

Lemma login_lockout_witness :
  (Security.login_run String.append "admin"
     ([(1000%Z, "guess1")]
        ++ (2000%Z, "guess2") :: [(3000%Z, "secret")])
     {["admin" :=
         Security.mkUserCredentials "admin" "secretadmin"
           Security.SUPER_ADMIN 0 3 false 0]}).1
  = [false; false; false].
Proof.
  refine (proj1
    (login_lockout String.append "admin"
       {["admin" :=
           Security.mkUserCredentials "admin" "secretadmin"
             Security.SUPER_ADMIN 0 3 false 0]}
       (Security.mkUserCredentials "admin" "secretadmin"
          Security.SUPER_ADMIN 0 3 false 0)
       [(1000%Z, "guess1")] 2000 "guess2" [(3000%Z, "secret")]
       _ _ _ _ _ _ _ _)).
  - reflexivity.
  - reflexivity.
  - simpl. lia.
  - reflexivity.
  - repeat constructor; discriminate.
  - lia.
  - unfold Security.LOCKOUT_DURATION. lia.
  - repeat constructor.
Defined.

Lemma login_after_lock_expiry_witness :
  (Security.authenticateUser String.append (Security.at_time 302000)
     "admin" "secret"
     {["admin" :=
         Security.mkUserCredentials "admin" "secretadmin"
           Security.SUPER_ADMIN 0 5 true 302000]}).1
  = true.
Proof.
  refine (proj1
    (login_after_lock_expiry String.append (Security.at_time 302000)
       "admin" "secret"
       {["admin" :=
           Security.mkUserCredentials "admin" "secretadmin"
             Security.SUPER_ADMIN 0 5 true 302000]}
       (Security.mkUserCredentials "admin" "secretadmin"
          Security.SUPER_ADMIN 0 5 true 302000)
       _ _ _ _ _)).
  - reflexivity.
  - reflexivity.
  - simpl. lia.
  - simpl. lia.
  - reflexivity.
Defined.

(** The bound is reached: a full window just before it expires, and a
    full one right after. *)
Example rate_limit_span_bound_tight :
  Security.accepted
    (Security.rate_run "10.0.0.7"
       (replicate 100 60000%Z ++ replicate 100 60001%Z) Security.rate_init).1
  = 200.
Proof. vm_compute. reflexivity. Qed.

Lemma rate_limit_per_client_witness :
  "10.0.0.8" ≠ "10.0.0.7"
  ∧ (Security.rateLimitCheck 70000 "10.0.0.8"
       (Security.rate_run "10.0.0.7" (replicate 150 60000%Z)
          Security.rate_init).2).1
    = (Security.rateLimitCheck 70000 "10.0.0.8" Security.rate_init).1.
Proof.
  assert (Hne : "10.0.0.8" ≠ "10.0.0.7") by discriminate.
  split; [exact Hne |].
  exact (proj2 (proj2 (proj2
    (rate_limit_per_client "10.0.0.7" "10.0.0.8" (replicate 150 60000%Z)
       70000 Security.rate_init Hne)))).
Defined.

Lemma rate_limit_block_lasts_witness :
  (Security.rate_run "10.0.0.7" [1000; 5000; 300999]%Z
     (Security.mkRateState {["10.0.0.7" := 101%Z]} {["10.0.0.7" := 1000%Z]}
        {["10.0.0.7" := true]})).1
  = [false; false; false]
  ∧ (Security.rateLimitCheck 301000 "10.0.0.7"
       (Security.rate_run "10.0.0.7" [1000; 5000; 300999]%Z
          (Security.mkRateState {["10.0.0.7" := 101%Z]}
             {["10.0.0.7" := 1000%Z]} {["10.0.0.7" := true]})).2).1
    = true.
Proof.
  destruct (rate_limit_block_lasts "10.0.0.7"
              (Security.mkRateState {["10.0.0.7" := 101%Z]}
                 {["10.0.0.7" := 1000%Z]} {["10.0.0.7" := true]})
              1000 101 [1000; 5000; 300999]%Z 301000)
    as (Hrefused & _ & Haccepted & _).
  - reflexivity.
  - lia.
  - lia.
  - repeat constructor.
  - lia.
  - exact (conj Hrefused Haccepted).
Defined.

Lemma rate_limit_window_quota_witness :
  (Security.rate_run "10.0.0.7" [10; 20; 30; 40]%Z
     (Security.mkRateState {["10.0.0.7" := 98%Z]} {["10.0.0.7" := 5%Z]} ∅)).1
  = [true; true; false; false].
Proof.
  apply (rate_limit_window_quota "10.0.0.7"
           (Security.mkRateState {["10.0.0.7" := 98%Z]}
              {["10.0.0.7" := 5%Z]} ∅)
           5 98 [10; 20; 30; 40]%Z).
  - reflexivity.
  - lia.
  - lia.
  - lia.
  - repeat constructor; lia.
Defined.

Lemma rate_limit_span_bound_witness :
  Security.accepted
    (Security.rate_run "10.0.0.7"
       (replicate 150 60000%Z ++ replicate 150 60001%Z)
       Security.rate_init).1
  ≤ 200.
Proof.
  apply (rate_limit_span_bound "10.0.0.7" Security.rate_init 60000).
  - lia.
  - lia.
  - change (0 ≤ 0 < 2 ^ 32 - 1)%Z. lia.
  - apply Forall_app. split; apply Forall_replicate; lia.
Defined.

(** ** The detector core, continued *)

Section DetectorMore.
Import Float BarkDetector.

Variable sqrtf : float → float.
Variable log10f : float → float.
Variable mel_frame : list Z → nat → nat → list float.
Variable Invoke : list float → option (list float).


Lemma calculate_rms_zero (samples : list Z) :
  sqrtf (flit 0) = flit 0 →
  Forall (λ s, s = 0%Z) samples →
  calculate_rms sqrtf samples = flit 0.
Proof.
  intros Hsqrt Hzero. unfold calculate_rms.
  destruct samples as [| s rest]; [done |].
  match goal with
  | |- context [foldl ?f ?a ?l] => assert (Hsum : foldl f a l = flit 0)
  end.
  { induction Hzero as [| s' rest' -> _ IH]; [done |].
    cbn [foldl]. exact IH. }
  rewrite Hsum.
  assert (fdiv (flit 0) (of_int (Z.of_nat (length (s :: rest))))
          = flit 0) as ->; [| done].
  unfold fdiv, flit. apply Qred_complete. unfold Qdiv.
  change (Qred 0) with 0%Q. ring.
Qed.

(** X21. Digital silence never reaches the model: a frame of zeros is left
    alone by the gain control, closes the noise gate (for every threshold
    of -100 dB or more), and is answered SILENCE with confidence 1 without
    any change of the detector; the interpreter is not invoked. *)
Theorem process_digital_silence (env : CallEnv) (st : Impl)
    (audio_samples : list Z) :
  sqrtf (flit 0) = flit 0 →
  initialized st = true → alloc_ok env = true →
  fle (flit (-100)) (noise_gate_threshold (config st)) = true →
  Forall (λ s, s = 0%Z) audio_samples →
  process sqrtf log10f mel_frame Invoke env st audio_samples SAMPLE_RATE
  = (mkDetectionResult SILENCE (flit 1) (Some (now_ms env)) false, st).
Proof.
  intros Hsqrt Hinit Halloc Hthreshold Hzero.
  pose proof (calculate_rms_zero audio_samples Hsqrt Hzero) as Hrms.
  unfold process. case_decide; [done |].
  unfold run_inference. rewrite Hinit, Halloc. cbn [negb].
  assert (Hagc :
    apply_agc sqrtf audio_samples (agc_target_level (config st))
    = audio_samples).
  { unfold apply_agc. by rewrite Hrms. }
  rewrite Hagc.
  unfold apply_noise_gate, amplitude_to_db. rewrite Hrms.
  change (flt (flit 0) (flit 1e-10)) with true. cbn iota.
  unfold flt. unfold fle in Hthreshold. rewrite Hthreshold. done.
Qed.



Lemma flt_spec (a b : float) : flt a b = true ↔ (a < b)%Q.
Proof.
  unfold flt. rewrite negb_true_iff. split.
  - intros Hle. apply Qnot_le_lt. intros Hba.
    apply Qle_bool_iff in Hba. congruence.
  - intros Hlt. destruct (Qle_bool b a) eqn:Hba; [| done].
    apply Qle_bool_iff in Hba. by apply Qlt_not_le in Hlt.
Qed.

Lemma flt_false (a b : float) : flt a b = false ↔ (b <= a)%Q.
Proof.
  unfold flt. rewrite negb_false_iff. apply Qle_bool_iff.
Qed.

(** The state of the maximum search after classes [1 .. k]. *)
Lemma argmax_loop (output : list float) (k : nat) :
  k < 256 →
  let '(max_confidence, max_class) :=
    foldl (argmax_step output) (output !!! 0, 0) (seq 1 k) in
  max_class ≤ k
  ∧ output !!! max_class = max_confidence
  ∧ (∀ j, j ≤ k → (output !!! j <= max_confidence)%Q)
  ∧ (∀ j, j < max_class → (output !!! j < max_confidence)%Q).
Proof.
  induction k as [| k IH]; intros Hk.
  - cbn [seq foldl]. split_and!; [done | done | | lia].
    intros j Hj. assert (j = 0) as -> by lia. apply Qle_refl.
  - rewrite seq_S, foldl_app. cbn [foldl Nat.add].
    destruct (foldl _ _ (seq 1 k)) as [m c].
    destruct IH as (Hc & Hm & Hall & Hbefore); [lia |].
    unfold argmax_step.
    destruct (flt m (output !!! S k)) eqn:Hcmp.
    + apply flt_spec in Hcmp.
      rewrite Nat.mod_small by lia.
      split_and!; [done | done | |].
      * intros j Hj. destruct (decide (j = S k)) as [-> | Hne];
          [apply Qle_refl |].
        apply Qlt_le_weak. eapply Qle_lt_trans; [apply Hall; lia | done].
      * intros j Hj. eapply Qle_lt_trans; [apply Hall; lia | done].
    + apply flt_false in Hcmp.
      split_and!; [lia | done | | done].
      intros j Hj. destruct (decide (j = S k)) as [-> | Hne]; [done |].
      apply Hall. lia.
Qed.

(** X24. The class reported is the first maximum: after the search over a
    model output of up to 256 classes, [max_confidence] is the largest
    confidence, [max_class] is its position, and every class before it has
    a strictly smaller confidence. *)
Theorem argmax_first_maximum (output : list float) :
  0 < length output ≤ 256 →
  let '(max_confidence, max_class) :=
    foldl (argmax_step output) (output !!! 0, 0)
          (seq 1 (length output - 1)) in
  output !! max_class = Some max_confidence
  ∧ ∀ j x, output !! j = Some x →
      (x <= max_confidence)%Q ∧ (j < max_class → (x < max_confidence)%Q).
Proof.
  intros Hlen.
  pose proof (argmax_loop output (length output - 1)) as Hloop.
  destruct (foldl _ _ _) as [m c].
  destruct Hloop as (Hc & Hm & Hall & Hbefore); [lia |].
  split.
  - rewrite <- Hm. apply list_lookup_lookup_total_lt. lia.
  - intros j x Hj.
    pose proof (lookup_lt_Some _ _ _ Hj) as Hlt.
    apply list_lookup_total_correct in Hj as <-.
    split; [apply Hall; unfold float in *; lia | apply Hbefore].
Qed.

Lemma ftrunc_range (x : float) (lo hi : Z) :
  (lo ≤ 0 ≤ hi)%Z → (inject_Z lo <= x)%Q → (x <= inject_Z hi)%Q →
  (lo ≤ ftrunc x ≤ hi)%Z.
Proof.
  intros Hzero Hlo Hhi. unfold ftrunc.
  destruct (Qle_bool 0 x) eqn:Hsign.
  - apply Qle_bool_iff in Hsign. split.
    + transitivity 0%Z; [lia |].
      change 0%Z with (Qfloor 0). by apply Qfloor_resp_le.
    + rewrite <- (Qfloor_Z hi). by apply Qfloor_resp_le.
  - assert (Hneg : (x <= 0)%Q).
    { apply Qlt_le_weak, Qnot_le_lt. intros Hle.
      apply Qle_bool_iff in Hle. congruence. }
    split.
    + rewrite <- (Qceiling_Z lo). by apply Qceiling_resp_le.
    + transitivity 0%Z; [| lia].
      change 0%Z with (Qceiling 0). by apply Qceiling_resp_le.
Qed.

(** The clipping of [apply_agc] followed by the conversion to [int16_t]. *)
Lemma agc_clip_range (sample : float) :
  (-32768
   ≤ ftrunc
       (let sample1 :=
          if flt (flit 32767) sample then flit 32767 else sample in
        if flt sample1 (flit (-32768)) then flit (-32768) else sample1)
   ≤ 32767)%Z.
Proof.
  cbn zeta.
  assert (Hlo : (inject_Z (-32768) <= flit (-32768))%Q)
    by (apply Qle_bool_iff; reflexivity).
  assert (Hhi : (flit (-32768) <= inject_Z 32767)%Q)
    by (apply Qle_bool_iff; reflexivity).
  assert (Hlo' : (inject_Z (-32768) <= flit 32767)%Q)
    by (apply Qle_bool_iff; reflexivity).
  assert (Hhi' : (flit 32767 <= inject_Z 32767)%Q)
    by (apply Qle_bool_iff; reflexivity).
  apply ftrunc_range; [lia | |].
  - destruct (flt (flit 32767) sample) eqn:Hcmp.
    + by change (flt (flit 32767) (flit (-32768))) with false.
    + destruct (flt sample (flit (-32768))) eqn:Hcmp'; [done |].
      apply flt_false in Hcmp'. exact (Qle_trans _ _ _ Hlo Hcmp').
  - destruct (flt (flit 32767) sample) eqn:Hcmp.
    + by change (flt (flit 32767) (flit (-32768))) with false.
    + apply flt_false in Hcmp.
      destruct (flt sample (flit (-32768))) eqn:Hcmp'; [done |].
      exact (Qle_trans _ _ _ Hcmp Hhi').
Qed.

(** X25. The gain control cannot overflow: whatever the gain, every sample
    it writes back is a valid [int16_t], and the frame keeps its length. *)
Theorem apply_agc_in_range (samples : list Z) (target_level : float) :
  Forall (λ s, (-32768 ≤ s ≤ 32767)%Z) samples →
  Forall (λ s, (-32768 ≤ s ≤ 32767)%Z) (apply_agc sqrtf samples target_level)
  ∧ length (apply_agc sqrtf samples target_level) = length samples.
Proof.
  intros Hin. unfold apply_agc.
  destruct (flt (calculate_rms sqrtf samples) (flit 1e-6)); [done |].
  split; [| by rewrite length_fmap].
  apply Forall_fmap, Forall_true. intros s. apply agc_clip_range.
Qed.

End DetectorMore.

Lemma process_digital_silence_witness :
  BarkDetector.process (λ x, x) (λ x, x) (λ _ _ bands, replicate bands 0%Q)
    (λ _, None)
    (BarkDetector.mkCallEnv true 0 0 0 0 1234 (λ _, []))
    BarkDetector.fresh_detector (replicate 8 0%Z) BarkDetector.SAMPLE_RATE
  = (BarkDetector.mkDetectionResult BarkDetector.SILENCE (Float.flit 1)
       (Some 1234%Z) false,
     BarkDetector.fresh_detector).
Proof.
  apply (process_digital_silence (λ x, x) (λ x, x)
           (λ _ _ bands, replicate bands 0%Q) (λ _, None)
           (BarkDetector.mkCallEnv true 0 0 0 0 1234 (λ _, []))
           BarkDetector.fresh_detector (replicate 8 0%Z)).
  - reflexivity.
  - reflexivity.
  - reflexivity.
  - reflexivity.
  - repeat constructor.
Defined.


Lemma argmax_first_maximum_witness :
  [Float.flit 0.1; Float.flit 0.6; Float.flit 0.6; Float.flit 0.2] !! 1
  = Some (Float.flit 0.6).
Proof.
  pose proof
    (argmax_first_maximum
       [Float.flit 0.1; Float.flit 0.6; Float.flit 0.6; Float.flit 0.2])
    as Hmax.
  cbv beta iota zeta delta [length Nat.sub seq foldl] in Hmax.
  vm_compute foldl in Hmax.
  apply Hmax. simpl. lia.
Defined.

Lemma apply_agc_in_range_witness :
  Forall (λ s, (-32768 ≤ s ≤ 32767)%Z)
    (BarkDetector.apply_agc (λ _, 1%Q) [30000; -30000; 12]%Z (Float.flit 8)).
Proof.
  apply (apply_agc_in_range (λ _, 1%Q) [30000; -30000; 12]%Z (Float.flit 8)).
  repeat constructor; lia.
Defined.

(** ** The streaming task *)

Section StreamingFacts.
Import SampleRing Alaw Streaming.

Variable htons : Z → Z.
Variable htonl : Z → Z.

#[local] Opaque AUDIO_BUFFER_SIZE.

Lemma serving_not_expired (now : Z) (s : Stream) :
  serving now s →
  barkTriggered s && (barkTriggerEnd s <? now)%Z = false.
Proof.
  intros [_ [-> | Hend]]; [done |].
  apply andb_false_iff. right. by apply Z.ltb_ge.
Qed.

(** X26. The audio is shared out, not copied: in one pass over streams that
    are all being served, with at least one frame buffered per stream, the
    i-th stream is sent the i-th buffered frame (A-law coded) and no other,
    and the frames sent are gone from the ring. *)
Theorem streaming_pass_divides_audio (now : Z)
    (streams : list (string * Stream)) (frames : list (list Z))
    (rest : list Z) (ring : Ring) :
  ring_wf ring → audioMutex ring = SemFree →
  Forall (λ entry, serving now entry.2) streams →
  Forall (λ frame, length frame = SAMPLES_PER_FRAME) frames →
  length frames = length streams →
  contents ring = concat frames ++ rest →
  let '(sent, kept, ring') := streaming_pass htons htonl now streams ring in
  sent.*1 = streams.*1
  ∧ (λ packet : string * (RTPHeader * list Z * nat), packet.2.1.2) <$> sent
    = fmap encodeAlaw <$> frames
  ∧ kept.*1 = streams.*1
  ∧ contents ring' = rest.
Proof.
  intros Hwf Hfree Hserving Hframes Hlen Hcontents.
  revert frames ring Hwf Hfree Hframes Hlen Hcontents.
  induction Hserving as [| [key client] streams Hclient _ IH];
    intros frames ring Hwf Hfree Hframes Hlen Hcontents.
  - destruct frames; [| done]. by cbn.
  - destruct frames as [| frame frames]; [done |].
    apply Forall_cons in Hframes as [Hframe Hframes].
    cbn [snd] in Hclient. cbn [streaming_pass].
    rewrite (serving_not_expired now client Hclient).
    destruct Hclient as [-> _].
    destruct (readFromRingBuffer_spec ring SAMPLES_PER_FRAME Hwf Hfree)
      as (ring1 & -> & Hwf1 & Hfree1 & Hcontents1).
    rewrite Hcontents in Hcontents1 |- *. cbn [concat] in Hcontents1 |- *.
    rewrite <- app_assoc in Hcontents1 |- *.
    rewrite take_app_length' by done.
    rewrite drop_app_length' in Hcontents1 by done.
    rewrite decide_True by done.
    cbn [createRTPPacket].
    specialize (IH frames ring1 Hwf1 Hfree1 Hframes ltac:(by injection Hlen)
                  Hcontents1).
    destruct (streaming_pass htons htonl now streams ring1)
      as [[sent kept] ring2].
    destruct IH as (Hkeys & Hpayloads & Hkept & Hrest).
    cbn. by rewrite Hkeys, Hpayloads, Hkept.
Qed.

(** X27. A short read is lost: when fewer samples than one frame are
    buffered, a served stream gets no packet, yet the samples have been
    taken out of the ring. *)
Theorem streaming_short_read_discards (now : Z) (key : string)
    (client : Stream) (ring : Ring) :
  ring_wf ring → audioMutex ring = SemFree →
  serving now client →
  getAvailableSamples ring < SAMPLES_PER_FRAME →
  let '(sent, kept, ring') :=
    streaming_pass htons htonl now [(key, client)] ring in
  sent = [] ∧ kept = [(key, client)]
  ∧ contents ring' = [] ∧ getAvailableSamples ring' = 0.
Proof.
  intros Hwf Hfree Hclient Hshort.
  cbn [streaming_pass].
  rewrite (serving_not_expired now client Hclient).
  destruct Hclient as [-> _].
  destruct (readFromRingBuffer_spec ring SAMPLES_PER_FRAME Hwf Hfree)
    as (ring1 & -> & Hwf1 & Hfree1 & Hcontents1).
  pose proof (contents_length ring) as Hlen.
  pose proof (contents_length ring1) as Hlen1.
  rewrite decide_False by (rewrite length_take; lia).
  rewrite drop_ge in Hcontents1 by lia.
  rewrite Hcontents1 in Hlen1. by split_and!.
Qed.

(** X28. The life of a bark-triggered session: as created by
    /api/start-stream it is erased by the first pass after time 0, without
    a packet and without reading the ring; once a bark has been reported at
    time [t] it is kept by every pass up to [t + 5000] ms and erased by the
    first pass after that. *)
Theorem bark_triggered_stream_lifetime (t now random : Z) (key : string)
    (ring : Ring) :
  (0 ≤ t)%Z → (t + BARK_TRIGGERED_STREAM_MS < 2 ^ 32)%Z →
  ((0 < now)%Z →
   streaming_pass htons htonl now [(key, new_stream random true)] ring
   = ([], [], ring))
  ∧ ((now ≤ t + BARK_TRIGGERED_STREAM_MS)%Z →
     (streaming_pass htons htonl now
        (activate_bark_streams t [(key, new_stream random true)])
        ring).1.2.*1 = [key])
  ∧ ((t + BARK_TRIGGERED_STREAM_MS < now)%Z →
     streaming_pass htons htonl now
       (activate_bark_streams t [(key, new_stream random true)]) ring
     = ([], [], ring)).
Proof.
  intros Ht Hwrap.
  assert (Hend : Alaw.uint32_wrap (t + BARK_TRIGGERED_STREAM_MS)
                 = (t + BARK_TRIGGERED_STREAM_MS)%Z).
  { unfold Alaw.uint32_wrap. apply Z.mod_small.
    unfold BARK_TRIGGERED_STREAM_MS in *. lia. }
  split_and!.
  - intros Hnow. cbn [streaming_pass new_stream barkTriggered barkTriggerEnd].
    by destruct (Z.ltb_spec 0 now); [| lia].
  - intros Hnow.
    cbn [activate_bark_streams fmap list_fmap new_stream barkTriggered
         barkTriggerEnd snd fst set_barkTriggerEnd active rtp
         streaming_pass andb].
    rewrite Hend.
    destruct (Z.ltb_spec (t + BARK_TRIGGERED_STREAM_MS) now); [lia |].
    destruct (readFromRingBuffer ring SAMPLES_PER_FRAME)
      as [streamBuffer ring1].
    by case_decide.
  - intros Hnow.
    cbn [activate_bark_streams fmap list_fmap new_stream barkTriggered
         barkTriggerEnd snd fst set_barkTriggerEnd active rtp
         streaming_pass andb].
    rewrite Hend.
    by destruct (Z.ltb_spec (t + BARK_TRIGGERED_STREAM_MS) now); [| lia].
Qed.

End StreamingFacts.

Lemma streaming_pass_divides_audio_witness :
  let '(sent, kept, ring') :=
    Streaming.streaming_pass (λ x, x) (λ x, x) 100
      [("10.0.0.7_1", Streaming.new_stream 7 false);
       ("10.0.0.8_2", Streaming.new_stream 8 false)]
      (SampleRing.writeToRingBuffer SampleRing.ring_init
         (replicate 320 1%Z ++ replicate 320 2%Z ++ [3%Z])).2 in
  sent.*1 = ["10.0.0.7_1"; "10.0.0.8_2"]
  ∧ (λ packet : string * (Alaw.RTPHeader * list Z * nat), packet.2.1.2)
      <$> sent
    = fmap Alaw.encodeAlaw <$> [replicate 320 1%Z; replicate 320 2%Z]
  ∧ kept.*1 = ["10.0.0.7_1"; "10.0.0.8_2"]
  ∧ SampleRing.contents ring' = [3%Z].
Proof.
  apply (streaming_pass_divides_audio (λ x, x) (λ x, x) 100
           [("10.0.0.7_1", Streaming.new_stream 7 false);
            ("10.0.0.8_2", Streaming.new_stream 8 false)]
           [replicate 320 1%Z; replicate 320 2%Z] [3%Z]).
  - split.
    + vm_compute. reflexivity.
    + apply Nat.ltb_lt. vm_compute. reflexivity.
    + apply Nat.ltb_lt. vm_compute. reflexivity.
  - vm_compute. reflexivity.
  - repeat constructor.
  - repeat constructor.
  - reflexivity.
  - vm_compute. reflexivity.
Defined.

Lemma streaming_short_read_discards_witness :
  let '(sent, kept, ring') :=
    Streaming.streaming_pass (λ x, x) (λ x, x) 100
      [("10.0.0.7_1", Streaming.new_stream 7 false)]
      (SampleRing.writeToRingBuffer SampleRing.ring_init
         (replicate 319 1%Z)).2 in
  sent = [] ∧ kept = [("10.0.0.7_1", Streaming.new_stream 7 false)]
  ∧ SampleRing.contents ring' = []
  ∧ SampleRing.getAvailableSamples ring' = 0.
Proof.
  apply (streaming_short_read_discards (λ x, x) (λ x, x) 100 "10.0.0.7_1"
           (Streaming.new_stream 7 false)).
  - split.
    + vm_compute. reflexivity.
    + apply Nat.ltb_lt. vm_compute. reflexivity.
    + apply Nat.ltb_lt. vm_compute. reflexivity.
  - vm_compute. reflexivity.
  - split; [reflexivity | by left].
  - apply Nat.ltb_lt. vm_compute. reflexivity.
Defined.

Lemma bark_triggered_stream_lifetime_witness :
  Streaming.streaming_pass (λ x, x) (λ x, x) 7001
    (Streaming.activate_bark_streams 2000
       [("10.0.0.7_1", Streaming.new_stream 7 true)])
    SampleRing.ring_init
  = ([], [], SampleRing.ring_init).
Proof.
  refine (proj2 (proj2
    (bark_triggered_stream_lifetime (λ x, x) (λ x, x) 2000 7001 7
       "10.0.0.7_1" SampleRing.ring_init _ _)) _).
  - lia.
  - unfold Streaming.BARK_TRIGGERED_STREAM_MS. lia.
  - unfold Streaming.BARK_TRIGGERED_STREAM_MS. lia.
Defined.

(** ** The filters of the preprocessor *)

Section PreprocessFilterFacts.
Import Float PreprocessFilters.

Variable expf : float → float.

(** X29. Pre-emphasis does not see frame boundaries: filtering a signal
    frame by frame, with the state carried over, gives the same samples and
    the same final state as filtering it in one piece; a frame keeps its
    length, and the state left behind is its last input sample. *)
Theorem preEmphasisFilter_streaming (cfg : FilterConfig) (state : float)
    (frame1 frame2 : list float) :
  preEmphasisFilter cfg state (frame1 ++ frame2)
  = (let '(out1, state1) := preEmphasisFilter cfg state frame1 in
     let '(out2, state2) := preEmphasisFilter cfg state1 frame2 in
     (out1 ++ out2, state2))
  ∧ length (preEmphasisFilter cfg state frame1).1 = length frame1
  ∧ (preEmphasisFilter cfg state frame1).2 = default state (last frame1).
Proof.
  revert state. induction frame1 as [| sample rest IH]; intros state.
  - cbn [app preEmphasisFilter fst snd length last default].
    by destruct (preEmphasisFilter cfg state frame2).
  - destruct (IH sample) as (Hsplit & Hlen & Hstate).
    cbn [app preEmphasisFilter]. rewrite Hsplit.
    destruct (preEmphasisFilter cfg sample rest) as [out1 state1].
    destruct (preEmphasisFilter cfg state1 frame2) as [out2 state2].
    cbn [fst snd length] in *. split_and!; [reflexivity | by rewrite Hlen |].
    rewrite Hstate. destruct rest as [| sample' rest']; [done |].
    change (last (sample :: sample' :: rest')) with (last (sample' :: rest')).
    destruct (last (sample' :: rest')) eqn:Hlast; [done |].
    by apply last_None in Hlast.
Qed.

Lemma clip_range (x : float) :
  (-1 <= fmax (flit (-1)) (fmin (flit 1) x) <= 1)%Q.
Proof.
  unfold fmax, fmin.
  destruct (flt x (flit 1)) eqn:Hhi.
  - apply flt_spec in Hhi.
    destruct (flt (flit (-1)) x) eqn:Hlo.
    + apply flt_spec in Hlo. split; by apply Qlt_le_weak.
    + done.
  - by change (flt (flit (-1)) (flit 1)) with true.
Qed.

Lemma agc_loop_clipped (cfg : FilterConfig) (attack_coeff release_coeff : float)
    (state : float * float) (samples : list float) :
  length (agc_loop cfg attack_coeff release_coeff state samples).1
  = length samples
  ∧ Forall (λ y, (-1 <= y <= 1)%Q)
      (agc_loop cfg attack_coeff release_coeff state samples).1.
Proof.
  revert state. induction samples as [| sample rest IH]; intros state.
  - by cbn.
  - cbn [agc_loop].
    destruct (agc_sample cfg attack_coeff release_coeff state sample)
      as [out state1] eqn:Hsample.
    destruct (IH state1) as [Hlen Hall].
    destruct (agc_loop cfg attack_coeff release_coeff state1 rest)
      as [outs state2].
    cbn [fst length] in *. split; [by rewrite Hlen |].
    constructor; [| done].
    unfold agc_sample in Hsample. destruct state as [agc_gain agc_envelope].
    injection Hsample as <- _. apply clip_range.
Qed.

(** X30. The gain control cannot clip the converter: whatever the
    configuration, the filter state and the input, every sample that
    [automaticGainControl] writes back lies in [-1, 1], and the frame keeps
    its length. *)
Theorem automaticGainControl_clipped (cfg : FilterConfig) (sample_rate : Z)
    (state : float * float) (samples : list float) :
  length (automaticGainControl expf cfg sample_rate state samples).1
  = length samples
  ∧ Forall (λ y, (-1 <= y <= 1)%Q)
      (automaticGainControl expf cfg sample_rate state samples).1.
Proof.
  unfold automaticGainControl. apply agc_loop_clipped.
Qed.

End PreprocessFilterFacts.
